(** * web-fs-manager: the live synchronisation core of [server.js]

    A shallow embedding of the server side of the directory mirror: the
    recursive tree builder [getDirectoryStructure], the fan-out
    [broadcastToClients], the watcher set-up and its two callbacks, the
    [/api/set-project] request handler and the WebSocket connection and
    message handlers. Beside the server it embeds the directory browser
    [/api/directories], the PID file of [launcher.js] and, from the script
    of the page, the breadcrumb and the reconnection counter.

    Conventions.
    - An absolute, normalised path is the list of its segments:
      [/proj/sub] is [["proj"; "sub"]] and [/] is [[]].
    - The file system is a finite tree, so it has no cycles of symbolic
      links; [readdir] and [stat] are the only two ways the builder looks
      at it, exactly as in the source.
    - A JavaScript exception is the [Throw] constructor of [outcome];
      [try { } catch { }] is [try_catch] in the builder and [htry] in the
      handlers. What was assigned before an exception stays assigned.
    - The libraries are modelled by what the server can observe of them:
      a socket of [ws] either raises on [send], or delivers when it is
      open, or drops the frame; [fs.watch] hands out a new watcher or
      raises; [close] makes a watcher inactive.
    - A message is kept as the object given to [JSON.stringify].
    - The handlers are given twice. First in one piece, as they run when
      no other handler runs before they end. Then in segments, one per
      [await] on the file system, which the segments of other handlers
      interleave with; the statements about what clients receive while
      handlers overlap are made on the segments. *)

From Stdlib Require Import List String Ascii Bool Arith NArith Lia Permutation.
From Stdlib Require Import ZArith DecimalString DecimalNat.
Import ListNotations.
Open Scope string_scope.
Open Scope list_scope.

Set Implicit Arguments.
Set Warnings "-register-all".

(** ** Exceptions *)

Inductive error :=
| ENOENT                 (* no such file or directory *)
| ENOTDIR                (* readdir on something that is not a directory *)
| EACCES                 (* permission denied *)
| EISDIR                 (* write on a directory *)
| TypeError              (* argument of the wrong JavaScript type *)
| SendError              (* the socket refused the frame *)
| Error (message : string).

Inductive outcome (A : Type) :=
| Ok (a : A)
| Throw (err : error).
Arguments Ok {A} a.
Arguments Throw {A} err.

Definition errorMessage (e : error) : string :=
  match e with
  | ENOENT => "ENOENT: no such file or directory"
  | ENOTDIR => "ENOTDIR: not a directory"
  | EACCES => "EACCES: permission denied"
  | EISDIR => "EISDIR: illegal operation on a directory"
  | TypeError => "The path argument must be of type string"
  | SendError => "socket write failed"
  | Error m => m
  end.

(** ** Paths: the functions of Node's [path] module that the server uses *)

Definition segments := list string.

(** [join(dir, item)] for an [item] that [readdir] returned: a single base
    name, so the join only appends it. *)
Definition join (dir : segments) (item : string) : segments := dir ++ [item].

Fixpoint strip_common (a b : segments) : segments * segments :=
  match a, b with
  | x :: a', y :: b' => if (x =? y)%string then strip_common a' b' else (a, b)
  | _, _ => (a, b)
  end.

(** [relative(from, to)]: climb out of what is left of [from], then go down
    what is left of [to]. *)
Definition relative (from to : segments) : string :=
  let (up, down) := strip_common from to in
  String.concat "/" (repeat ".." (List.length up) ++ down).

(** [parse(p).base] *)
Definition base (p : segments) : string := last p "".

Fixpoint split_slash (s : string) : list string :=
  match s with
  | EmptyString => [""]
  | String c rest =>
      if Ascii.eqb c "/"%char then "" :: split_slash rest
      else match split_slash rest with
           | h :: t => String c h :: t
           | [] => [String c ""]
           end
  end.

Definition normalize_step (acc : segments) (seg : string) : segments :=
  if (seg =? "")%string || (seg =? ".")%string then acc
  else if (seg =? "..")%string then removelast acc
  else acc ++ [seg].

Definition is_absolute (s : string) : bool :=
  match s with
  | String c _ => Ascii.eqb c "/"%char
  | EmptyString => false
  end.

(** [resolve(path)] with one argument; [undefined] is refused with a
    [TypeError], as Node's argument validation does. *)
Definition resolve (cwd : segments) (p : option string) : outcome segments :=
  match p with
  | None => Throw TypeError
  | Some s =>
      Ok (fold_left normalize_step (split_slash s)
                    (if is_absolute s then [] else cwd))
  end.

(** [String.prototype.includes] *)
Fixpoint includes (hay needle : string) : bool :=
  String.prefix needle hay ||
  match hay with
  | EmptyString => false
  | String _ rest => includes rest needle
  end.

(** ** The file system *)

Inductive entry :=
| EFile (bytes : N)
| EDir (listable : bool) (entries : list (string * entry))
| ESpecial               (* socket, fifo, device: neither file nor directory *)
| EDangling.             (* listed by readdir, but stat on it fails *)

Fixpoint find_entry (name : string) (entries : list (string * entry)) : option entry :=
  match entries with
  | [] => None
  | (n, e) :: rest => if (n =? name)%string then Some e else find_entry name rest
  end.

Fixpoint lookup (p : segments) (e : entry) : option entry :=
  match p with
  | [] => Some e
  | seg :: rest =>
      match e with
      | EDir _ entries =>
          match find_entry seg entries with
          | Some child => lookup rest child
          | None => None
          end
      | _ => None
      end
  end.

Fixpoint height (e : entry) : nat :=
  match e with
  | EDir _ entries =>
      S ((fix heights (l : list (string * entry)) : nat :=
            match l with
            | [] => 0
            | (_, c) :: t => Nat.max (height c) (heights t)
            end) entries)
  | _ => 0
  end.

Record Stats := mkStats {
  isDirectory : bool;
  isFile : bool;
  st_size : N
}.

Definition stats_of (e : entry) : outcome Stats :=
  match e with
  | EFile n => Ok (mkStats false true n)
  | EDir _ _ => Ok (mkStats true false 4096)
  | ESpecial => Ok (mkStats false false 0)
  | EDangling => Throw ENOENT
  end.

(** [fs/promises.stat] *)
Definition stat (fs : entry) (p : segments) : outcome Stats :=
  match lookup p fs with
  | Some e => stats_of e
  | None => Throw ENOENT
  end.

(** [fs/promises.readdir] *)
Definition readdir (fs : entry) (p : segments) : outcome (list string) :=
  match lookup p fs with
  | Some (EDir true entries) => Ok (map fst entries)
  | Some (EDir false _) => Throw EACCES
  | Some (EFile _) | Some ESpecial => Throw ENOTDIR
  | Some EDangling | None => Throw ENOENT
  end.

(** ** Snapshot nodes *)

Inductive nodeType := directory | file.

Inductive node := mkNode {
  name : string;
  path : string;
  type : nodeType;
  size : option N;                  (* [null] is [None] *)
  children : option (list node)     (* the property exists on directories only *)
}.

Definition set_children (n : node) (c : list node) : node :=
  mkNode (name n) (path n) (type n) (size n) (Some c).

Fixpoint mentions_node (x : string) (n : node) : bool :=
  match n with
  | mkNode nm _ _ _ kids =>
      (nm =? x)%string
      || match kids with
         | Some c =>
             (fix any (l : list node) : bool :=
                match l with
                | [] => false
                | m :: t => mentions_node x m || any t
                end) c
         | None => false
         end
  end.

(** [mentions x l]: some node of the forest [l], at any depth, is named [x]. *)
Definition mentions (x : string) (l : list node) : bool :=
  existsb (mentions_node x) l.

(** ** The builder's effects: exceptions, [console.error], and fuel

    [None] is "still running when the fuel ran out"; the log collects the
    lines written with [console.error]. *)

Definition M (A : Type) : Type := option (outcome A * list string).

Definition ret {A} (a : A) : M A := Some (Ok a, []).

Definition throw {A} (e : error) : M A := Some (Throw e, []).

Definition lift {A} (o : outcome A) : M A := Some (o, []).

Definition console_error (line : string) : M unit := Some (Ok tt, [line]).

Definition bind {A B} (m : M A) (f : A -> M B) : M B :=
  match m with
  | None => None
  | Some (Throw e, lg) => Some (Throw e, lg)
  | Some (Ok a, lg) =>
      match f a with
      | None => None
      | Some (r, lg') => Some (r, lg ++ lg')
      end
  end.

Definition try_catch {A} (body : M A) (handler : error -> M A) : M A :=
  match body with
  | None => None
  | Some (Ok a, lg) => Some (Ok a, lg)
  | Some (Throw e, lg) =>
      match handler e with
      | None => None
      | Some (r, lg') => Some (r, lg ++ lg')
      end
  end.

Notation "x <- m ;; k" := (bind m (fun x => k))
  (at level 61, m at next level, right associativity).
Notation "m ;;; k" := (bind m (fun _ => k))
  (at level 61, right associativity).

(** [for (const item of items) { ... }] over a local array that the body
    pushes to: the array is threaded through the iterations. *)
Fixpoint for_of {A S} (items : list A) (body : A -> S -> M S) (acc : S) : M S :=
  match items with
  | [] => ret acc
  | item :: rest => acc' <- body item acc ;; for_of rest body acc'
  end.

(** ** [getDirectoryStructure] (server.js, 162-197) *)

Section Builder.
Variable fs : entry.
Variable projectRoot : segments.

(** One iteration of the loop: lines 168-189. *)
Definition visit (recurse : segments -> M (list node))
           (dir : segments) (item : string) (structure : list node)
  : M (list node) :=
  try_catch
    (let path := join dir item in
     stats <- lift (stat fs path) ;;
     let relativePath := relative projectRoot path in
     if (item =? "node_modules")%string || (item =? ".git")%string
     then ret structure                                     (* continue *)
     else
       let node :=
         mkNode item relativePath
                (if isDirectory stats then directory else file)
                (if isFile stats then Some (st_size stats) else None)
                None in
       node <- (if isDirectory stats
                then kids <- recurse path ;; ret (set_children node kids)
                else ret node) ;;
       ret (structure ++ [node]))
    (fun err =>
       console_error ("Error processing " ++ item)%string ;;; ret structure).

(** The function itself, with [fuel] bounding the depth of its recursion. *)
Fixpoint gds (fuel : nat) (dir : segments) : M (list node) :=
  match fuel with
  | 0 => None
  | S fuel' =>
      try_catch
        (items <- lift (readdir fs dir) ;;
         for_of items (visit (gds fuel') dir) [])
        (fun err =>
           console_error "Error reading directory" ;;; ret [])
  end.

(** The recursion goes one directory level down per call, so the height
    of the tree bounds its depth. *)
Definition getDirectoryStructure (dir : segments) : M (list node) :=
  gds (S (height fs)) dir.
End Builder.

(** The ignore test of the builder (line 173). *)
Definition ignored (item : string) : bool :=
  (item =? "node_modules")%string || (item =? ".git")%string.

(** The node pushed for [item] whose [stat] gave [stats]. *)
Definition node_of (projectRoot dir : segments) (item : string) (stats : Stats)
  : node :=
  mkNode item (relative projectRoot (join dir item))
         (if isDirectory stats then directory else file)
         (if isFile stats then Some (st_size stats) else None)
         None.

(** Height of the subtree that [dir] names; 0 when there is none. *)
Definition height_at (fs : entry) (dir : segments) : nat :=
  match lookup dir fs with Some e => height e | None => 0 end.

(** ** Messages and sockets *)

(** The root object that every ['structure'] message carries: it has no
    [size] property, and its [children] are always present. *)
Record Content := mkContent {
  c_name : string;
  c_path : string;
  c_type : nodeType;
  c_children : list node
}.

Inductive message :=
| MsgStructure (content : Content)  (* { type: 'structure', content } *)
| MsgFileChange (changed : string)  (* { type: 'fileChange', file } *)
| MsgError (text : string).         (* { type: 'error', message } *)

(** A socket of the [ws] library, seen from the server. [sendFails] is the
    environment's choice that [send] raises on this socket; [inbox] is what
    the peer has received, oldest first. *)
Record WebSocket := mkWebSocket {
  id : nat;
  readyState : nat;                 (* 0 CONNECTING, 1 OPEN, 2 CLOSING, 3 CLOSED *)
  sendFails : bool;
  inbox : list message
}.

Definition OPEN : nat := 1.

(** What a client sent, after [JSON.parse]: the text does not parse, it
    parses to [null] (reading [.type] then raises), or it parses to a value
    whose [type] property is [ty] ([None] when there is none). *)
Inductive inbound :=
| Unparsable
| JsonNull
| Json (ty : option string).

(** ** Watcher objects *)

Record FSWatcher := mkFSWatcher {
  watched : segments;
  active : bool
}.

(** The calls made on the watch API, in order. *)
Inductive watchOp :=
| Started (handle : nat)
| Closed (handle : nat).

(** ** The server's state

    The module-level variables of [server.js] ([projectRoot], [watcher],
    [recentProjects], the [clients] of [wss]) together with the part of the
    environment they act on: the disk, the working directory, the watcher
    objects that [fs.watch] has handed out, and the console. *)
Record Server := mkServer {
  disk : entry;
  cwd : segments;
  projectRoot : segments;
  watcher : option nat;             (* [null], or a reference into [watchers] *)
  watchers : list FSWatcher;
  watchLog : list watchOp;
  recentProjects : list string;     (* a JS [Set], in insertion order *)
  clients : list WebSocket;         (* [wss.clients], in insertion order *)
  console : list string
}.

Definition set_disk (d : entry) (s : Server) : Server :=
  mkServer d (cwd s) (projectRoot s) (watcher s) (watchers s) (watchLog s)
           (recentProjects s) (clients s) (console s).

Definition set_projectRoot (r : segments) (s : Server) : Server :=
  mkServer (disk s) (cwd s) r (watcher s) (watchers s) (watchLog s)
           (recentProjects s) (clients s) (console s).

Definition set_watcher (w : option nat) (s : Server) : Server :=
  mkServer (disk s) (cwd s) (projectRoot s) w (watchers s) (watchLog s)
           (recentProjects s) (clients s) (console s).

Definition set_watchers (ws : list FSWatcher) (lg : list watchOp) (s : Server)
  : Server :=
  mkServer (disk s) (cwd s) (projectRoot s) (watcher s) ws lg
           (recentProjects s) (clients s) (console s).

Definition set_recentProjects (r : list string) (s : Server) : Server :=
  mkServer (disk s) (cwd s) (projectRoot s) (watcher s) (watchers s) (watchLog s)
           r (clients s) (console s).

Definition set_clients (c : list WebSocket) (s : Server) : Server :=
  mkServer (disk s) (cwd s) (projectRoot s) (watcher s) (watchers s) (watchLog s)
           (recentProjects s) c (console s).

Definition set_console (c : list string) (s : Server) : Server :=
  mkServer (disk s) (cwd s) (projectRoot s) (watcher s) (watchers s) (watchLog s)
           (recentProjects s) (clients s) c.

(** ** Handlers: state, exceptions, fuel

    A handler transforms the state and either returns or throws; what it
    changed before it threw stays changed. *)

Definition H (A : Type) : Type := Server -> option (outcome A * Server).

Definition hret {A} (a : A) : H A := fun s => Some (Ok a, s).

Definition hthrow {A} (e : error) : H A := fun s => Some (Throw e, s).

Definition hbind {A B} (m : H A) (f : A -> H B) : H B :=
  fun s =>
    match m s with
    | None => None
    | Some (Ok a, s') => f a s'
    | Some (Throw e, s') => Some (Throw e, s')
    end.

Definition htry {A} (body : H A) (handler : error -> H A) : H A :=
  fun s =>
    match body s with
    | None => None
    | Some (Ok a, s') => Some (Ok a, s')
    | Some (Throw e, s') => handler e s'
    end.

Definition gets {A} (f : Server -> A) : H A := fun s => Some (Ok (f s), s).

Definition modify (f : Server -> Server) : H unit := fun s => Some (Ok tt, f s).

Definition of_outcome {A} (o : outcome A) : H A := fun s => Some (o, s).

(** [console.log] and [console.error]: one console for both. *)
Definition console_log (line : string) : H unit :=
  modify (fun s => set_console (console s ++ [line]) s).

(** Running the builder inside a handler: its [console.error] lines go to
    the console. *)
Definition run {A} (m : M A) : H A :=
  fun s =>
    match m with
    | None => None
    | Some (o, lg) => Some (o, set_console (console s ++ lg) s)
    end.

Notation "x <~ m ;; k" := (hbind m (fun x => k))
  (at level 61, m at next level, right associativity).
Notation "m ;;> k" := (hbind m (fun _ => k))
  (at level 61, right associativity).

(** [array.forEach(f)] *)
Fixpoint forEach {A} (l : list A) (f : A -> H unit) : H unit :=
  match l with
  | [] => hret tt
  | x :: rest => f x ;;> forEach rest f
  end.

(** ** The environment's operations *)

(** The socket after its peer received one more frame. *)
Definition received (msg : message) (c : WebSocket) : WebSocket :=
  mkWebSocket (id c) (readyState c) (sendFails c) (inbox c ++ [msg]).

(** Delivery of one frame to the socket [i]. *)
Definition deliver (i : nat) (msg : message) (cs : list WebSocket)
  : list WebSocket :=
  map (fun c => if Nat.eqb (id c) i then received msg c else c) cs.

Definition find_client (i : nat) (cs : list WebSocket) : option WebSocket :=
  find (fun c => Nat.eqb (id c) i) cs.

(** [ws.send(JSON.stringify(msg))] on the socket [i]: it raises when the
    environment says so, delivers on an open socket, and drops the frame on
    a socket that is closing, closed or already gone. *)
Definition ws_send (i : nat) (msg : message) : H unit :=
  fun s =>
    match find_client i (clients s) with
    | None => Some (Ok tt, s)
    | Some c =>
        if sendFails c then Some (Throw SendError, s)
        else if Nat.eqb (readyState c) OPEN
             then Some (Ok tt, set_clients (deliver i msg (clients s)) s)
             else Some (Ok tt, s)
    end.

(** [fs.watch(root, { recursive: true }, callback)]: a new active watcher,
    or an exception when there is nothing to watch at [root]. *)
Definition watch (root : segments) : H nat :=
  fun s =>
    match stat (disk s) root with
    | Throw e => Some (Throw e, s)
    | Ok _ =>
        let h := List.length (watchers s) in
        Some (Ok h, set_watchers (watchers s ++ [mkFSWatcher root true])
                                 (watchLog s ++ [Started h]) s)
    end.

Fixpoint deactivate (h : nat) (ws : list FSWatcher) : list FSWatcher :=
  match ws, h with
  | [], _ => []
  | w :: rest, 0 => mkFSWatcher (watched w) false :: rest
  | w :: rest, S h' => w :: deactivate h' rest
  end.

(** [watcher.close()] *)
Definition close (h : nat) : H unit :=
  modify (fun s => set_watchers (deactivate h (watchers s))
                                (watchLog s ++ [Closed h]) s).

Fixpoint update_entry (seg : string) (f : option entry -> outcome entry)
         (entries : list (string * entry)) : outcome (list (string * entry)) :=
  match entries with
  | [] => match f None with
          | Ok e => Ok [(seg, e)]
          | Throw err => Throw err
          end
  | (n, e) :: rest =>
      if (n =? seg)%string
      then match f (Some e) with
           | Ok e' => Ok ((n, e') :: rest)
           | Throw err => Throw err
           end
      else match update_entry seg f rest with
           | Ok rest' => Ok ((n, e) :: rest')
           | Throw err => Throw err
           end
  end.

(** The tree after [bytes] bytes were written to the file at [p]. *)
Fixpoint write_at (p : segments) (bytes : N) (target : option entry)
  : outcome entry :=
  match p, target with
  | [], None => Ok (EFile bytes)
  | [], Some (EFile _) => Ok (EFile bytes)
  | [], Some (EDir _ _) => Throw EISDIR
  | [], Some ESpecial => Ok ESpecial
  | [], Some EDangling => Throw ENOENT
  | seg :: rest, Some (EDir l entries) =>
      match update_entry seg (write_at rest bytes) entries with
      | Ok entries' => Ok (EDir l entries')
      | Throw err => Throw err
      end
  | _ :: _, Some _ => Throw ENOTDIR
  | _ :: _, None => Throw ENOENT
  end.

(** [fs/promises.writeFile(file, data)] *)
Definition writeFile (p : segments) (data : string) : H unit :=
  fun s =>
    match write_at p (N.of_nat (String.length data)) (Some (disk s)) with
    | Ok d => Some (Ok tt, set_disk d s)
    | Throw err => Some (Throw err, s)
    end.

(** A resolved path as the string the server stores and compares. *)
Definition path_string (p : segments) : string :=
  ("/" ++ String.concat "/" p)%string.

(** ** [recentProjects]: a JS [Set] of strings *)

Definition Set_has (x : string) (s : list string) : bool :=
  existsb (String.eqb x) s.

Definition Set_add (x : string) (s : list string) : list string :=
  if Set_has x s then s else s ++ [x].

Definition Set_delete (x : string) (s : list string) : list string :=
  filter (fun y => negb (String.eqb x y)) s.


(** ** The handlers of [server.js] *)

(** The object literal that the four senders of a ['structure'] message all
    build (lines 131-140, 228-237, 254-263, 276-285): the tree of the
    current [projectRoot], then the root object around it. *)
Definition currentStructure : H message :=
  root <~ gets projectRoot ;;
  d <~ gets disk ;;
  structure <~ run (getDirectoryStructure d root root) ;;
  root' <~ gets projectRoot ;;
  hret (MsgStructure (mkContent (base root') "/" directory structure)).

(** [broadcastToClients] (199-209) *)
Definition broadcastToClients (msg : message) : H unit :=
  cs <~ gets clients ;;                          (* Array.from(wss.clients) *)
  if Nat.eqb (List.length cs) 0 then hret tt
  else
    forEach cs (fun client =>
      if Nat.eqb (readyState client) OPEN
      then ws_send (id client) msg
      else hret tt).

(** The [change] callback given to [fs.watch] (212-241). [None] is a
    [null] filename. *)
Definition onWatchChange (filename : option string) : H unit :=
  match filename with
  | None => hret tt
  | Some f =>
      if (f =? "")%string then hret tt                        (* !filename *)
      else if includes f "node_modules" || includes f ".git" then hret tt
      else
        console_log ("File " ++ f ++ " changed")%string ;;>
        htry
          (broadcastToClients (MsgFileChange f) ;;>
           msg <~ currentStructure ;;
           broadcastToClients msg)
          (fun err => console_log "Error broadcasting changes")
  end.

(** The [error] listener of the watcher (243-245) *)
Definition onWatchError (err : error) : H unit :=
  console_log ("File watcher error: " ++ errorMessage err)%string.

(** [setupWatcher] (211-246) *)
Definition setupWatcher : H unit :=
  root <~ gets projectRoot ;;
  h <~ watch root ;;
  modify (set_watcher (Some h)).

Definition RECENT_PROJECTS_FILE : string := ".recent_projects".

Inductive response :=
| json_success                       (* res.json({ success: true }) *)
| status_500 (err : string).         (* res.status(500).json({ error }) *)

(** [POST /api/set-project] (95-147); [body_path] is [req.body.path]. *)
Definition setProject (body_path : option string) : H response :=
  htry
    (console_log "Setting project path" ;;>
     here <~ gets cwd ;;
     resolvedPath <~ of_outcome (resolve here body_path) ;;
     d <~ gets disk ;;
     stats <~ of_outcome (stat d resolvedPath) ;;
     (if negb (isDirectory stats) then hthrow (Error "Not a directory")
      else hret tt) ;;>
     modify (set_projectRoot resolvedPath) ;;>
     modify (fun s => set_recentProjects
                        (Set_add (path_string resolvedPath) (recentProjects s)) s) ;;>
     recent <~ gets recentProjects ;;
     (if Nat.ltb 10 (List.length recent)
      then modify (fun s =>
             set_recentProjects
               match recentProjects s with
               | [] => []
               | first :: _ => Set_delete first (recentProjects s)
               end s)
      else hret tt) ;;>
     recent <~ gets recentProjects ;;
     htry (writeFile (join here RECENT_PROJECTS_FILE)
                     (String.concat (String "010"%char "") recent))
          (fun err => console_log "Error saving recent projects") ;;>
     w <~ gets watcher ;;
     match w with Some h => close h | None => hret tt end ;;>
     setupWatcher ;;>
     msg <~ currentStructure ;;
     broadcastToClients msg ;;>
     hret json_success)
    (fun err =>
       console_log "Error setting project" ;;>
       hret (status_500 (errorMessage err))).

(** [wss.on('connection')] (249-270): [ws] has just joined [wss.clients]. *)
Definition onConnection (ws : WebSocket) : H unit :=
  modify (fun s => set_clients (clients s ++ [ws]) s) ;;>
  console_log "Client connected" ;;>
  htry
    (msg <~ currentStructure ;;
     ws_send (id ws) msg)
    (fun err =>
       console_log "Error sending initial structure" ;;>
       ws_send (id ws) (MsgError "Failed to load project structure")).

(** [ws.on('message')] (272-294) of the socket [i] *)
Definition onMessage (i : nat) (m : inbound) : H unit :=
  htry
    (data <~ match m with
             | Unparsable => hthrow (Error "Unexpected token in JSON")
             | JsonNull => hthrow TypeError
             | Json ty => hret ty
             end ;;
     match data with
     | Some ty =>
         if (ty =? "getStructure")%string
         then msg <~ currentStructure ;; ws_send i msg
         else hret tt
     | None => hret tt
     end)
    (fun err =>
       console_log "Error handling message" ;;>
       ws_send i (MsgError "Failed to process request")).

(** The module's top level (12-24, 302): the recent list is read with
    [readdir], then the first watcher is set up. *)
Definition boot (d : entry) (here : segments) : option (outcome unit * Server) :=
  let root := match resolve here (Some "../") with
              | Ok r => r
              | Throw _ => here
              end in
  let recent := match readdir d (join here RECENT_PROJECTS_FILE) with
                | Ok names => fold_left (fun s x => Set_add x s) names []
                | Throw _ => []
                end in
  setupWatcher (mkServer d here root None [] [] recent [] []).

(** ** Runs *)

Inductive event :=
| Connection (ws : WebSocket)
| Message (i : nat) (m : inbound)
| SetProject (body_path : option string)
| WatchChange (filename : option string)
| WatchError (err : error)
| Disconnect (i : nat)               (* [ws] removes a closed socket *)
| DiskChange (d : entry).            (* some other process wrote to the disk *)

Definition forget {A} (m : H A) : H unit := m ;;> hret tt.

Definition handle (ev : event) : H unit :=
  match ev with
  | Connection ws => onConnection ws
  | Message i m => onMessage i m
  | SetProject p => forget (setProject p)
  | WatchChange f => onWatchChange f
  | WatchError e => onWatchError e
  | Disconnect i =>
      modify (fun s => set_clients
                         (filter (fun c => negb (Nat.eqb (id c) i)) (clients s)) s)
  | DiskChange d => modify (set_disk d)
  end.

(** The state after an event, whether its handler returned or threw. *)
Definition step (ev : event) (s : Server) : option Server :=
  match handle ev s with
  | Some (_, s') => Some s'
  | None => None
  end.

Fixpoint steps (evs : list event) (s : Server) : option Server :=
  match evs with
  | [] => Some s
  | ev :: rest =>
      match step ev s with
      | Some s' => steps rest s'
      | None => None
      end
  end.


(** ** The builder, seen from the subtree it walks

    [gds_in root fuel dir (lookup dir fs)] is [gds fs root fuel dir] with the
    two disk reads replaced by what they return on the subtree at [dir]
    (lemma [gds_in_correct]); it evaluates below a root that is not known. *)
Fixpoint gds_in (root : segments) (fuel : nat) (dir : segments)
         (here : option entry) : M (list node) :=
  match fuel with
  | 0 => None
  | S fuel' =>
      match here with
      | Some (EDir true entries) =>
          match
            for_of (map fst entries)
              (fun item structure =>
                 match find_entry item entries with
                 | None =>
                     Some (Ok structure, ["Error processing " ++ item]%string)
                 | Some c =>
                     match stats_of c with
                     | Throw _ =>
                         Some (Ok structure, ["Error processing " ++ item]%string)
                     | Ok stats =>
                         if ignored item then Some (Ok structure, [])
                         else if isDirectory stats then
                           match gds_in root fuel' (join dir item) (Some c) with
                           | None => None
                           | Some (Ok kids, lg) =>
                               Some (Ok (structure ++
                                           [set_children
                                              (node_of root dir item stats) kids]),
                                     lg)
                           | Some (Throw _, lg) =>
                               Some (Ok structure,
                                     lg ++ ["Error processing " ++ item]%string)
                           end
                         else
                           Some (Ok (structure ++ [node_of root dir item stats]),
                                 [])
                     end
                 end) []
          with
          | None => None
          | Some (Ok r, lg) => Some (Ok r, lg)
          | Some (Throw _, lg) => Some (Ok [], lg ++ ["Error reading directory"])
          end
      | _ => Some (Ok [], ["Error reading directory"])
      end
  end.

(** The file system of the scenario, below its root: [x] is whatever
    [node_modules/x.js] is, and [l] whether [node_modules] can be listed. *)
Definition scenario_entries (l : bool) (x : entry) : list (string * entry) :=
  [("a.txt", EFile 10);
   ("sub", EDir true [("b.txt", EFile 20)]);
   ("node_modules", EDir l [("x.js", x)])].

(** The two nodes the scenario expects, for a walk of [dir] while the
    project root is [root]. *)
Definition scenario_a (root dir : segments) : node :=
  mkNode "a.txt" (relative root (join dir "a.txt")) file (Some 10%N) None.

Definition scenario_sub (root dir : segments) : node :=
  mkNode "sub" (relative root (join dir "sub")) directory None
         (Some [mkNode "b.txt" (relative root (join (join dir "sub") "b.txt"))
                       file (Some 20%N) None]).


(** ** Concrete states, for evaluation *)

(** [/proj] as in the scenario, next to an empty [/other] and the server's
    own directory [/srv/app]. *)
Definition demo_disk : entry :=
  EDir true
    [("proj", EDir true (scenario_entries true (EFile 5)));
     ("other", EDir true []);
     ("srv", EDir true [("app", EDir true [])])].

(** [dir] names a directory on [fs]: what [/api/set-project] checks. *)
Definition is_directory_at (fs : entry) (dir : segments) : bool :=
  match stat fs dir with
  | Ok stats => isDirectory stats
  | Throw _ => false
  end.


(** ** Vocabulary of the statements *)

(** What a broadcast of [msg] does to a socket when no [send] raises. *)
Definition hears (msg : message) (c : WebSocket) : WebSocket :=
  if Nat.eqb (readyState c) OPEN then received msg c else c.

(** No open socket raises on [send], and sockets are told apart by [id]. *)
Definition healthy (cs : list WebSocket) : Prop :=
  NoDup (map id cs) /\
  forall c, In c cs -> readyState c = OPEN -> sendFails c = false.

(** A server at rest on [demo_disk], started in [/srv/app], with the given
    sockets connected. *)
Definition demo_server (cs : list WebSocket) : Server :=
  mkServer demo_disk ["srv"; "app"] ["srv"] (Some 0)
           [mkFSWatcher ["srv"] true] [Started 0] [] cs [].

Definition client1 : WebSocket := mkWebSocket 1 OPEN false [].
Definition client2_raising : WebSocket := mkWebSocket 2 OPEN true [].
Definition client2_closed : WebSocket := mkWebSocket 2 3 false [].
Definition client3 : WebSocket := mkWebSocket 3 OPEN false [].


(** The path a request names is a directory on the server's disk: the test
    that [/api/set-project] makes at lines 100-106. *)
Definition valid_root (body_path : option string) (s : Server) : bool :=
  match resolve (cwd s) body_path with
  | Ok resolvedPath => is_directory_at (disk s) resolvedPath
  | Throw _ => false
  end.

(** The message of the exception that an invalid request raises. *)
Definition rejection (body_path : option string) (s : Server) : string :=
  match resolve (cwd s) body_path with
  | Throw e => errorMessage e
  | Ok resolvedPath =>
      match stat (disk s) resolvedPath with
      | Throw e => errorMessage e
      | Ok _ => "Not a directory"
      end
  end.


(** ** Specifications of handlers

    [wp m Q s]: from [s], the handler [m] finishes, and its outcome and
    final state satisfy [Q]. *)
Definition wp {A} (m : H A) (Q : outcome A -> Server -> Prop) (s : Server)
  : Prop :=
  exists o s', m s = Some (o, s') /\ Q o s'.

(** [s'] differs from [s] at most in the sockets and the console. *)
Definition framed (s s' : Server) : Prop :=
  disk s' = disk s /\ cwd s' = cwd s /\ projectRoot s' = projectRoot s /\
  watcher s' = watcher s /\ watchers s' = watchers s /\
  watchLog s' = watchLog s /\ recentProjects s' = recentProjects s.

(** The same sockets, each having received some more messages, all of
    which satisfy [P]. *)
Definition grown (P : message -> Prop) (c c' : WebSocket) : Prop :=
  id c' = id c /\ readyState c' = readyState c /\ sendFails c' = sendFails c /\
  exists extra, inbox c' = inbox c ++ extra /\ Forall P extra.

Definition grows (P : message -> Prop) (cs cs' : list WebSocket) : Prop :=
  Forall2 (grown P) cs cs'.

(** The root object of a ['structure'] message describes the project root
    [root] of the disk [d]. *)
Definition describes (d : entry) (root : segments) (msg : message) : Prop :=
  match msg with
  | MsgStructure c =>
      c_path c = "/" /\ c_type c = directory /\ c_name c = base root /\
      exists lg, getDirectoryStructure d root root = Some (Ok (c_children c), lg)
  | _ => True
  end.

(** The sockets registered when the handler of [ev] starts: [ws] itself has
    added the new socket, or removed the closed one. *)
Definition arrivals (ev : event) (s : Server) : list WebSocket :=
  match ev with
  | Connection ws => clients s ++ [ws]
  | Disconnect i => filter (fun c => negb (Nat.eqb (id c) i)) (clients s)
  | _ => clients s
  end.

(** The recent list after [x] was selected: lines 112-115. *)
Definition recent_after (x : string) (recent : list string) : list string :=
  let added := Set_add x recent in
  if Nat.ltb 10 (List.length added)
  then match added with
       | [] => []
       | first :: _ => Set_delete first added
       end
  else added.

(** The handles of the watchers that are active, counted from [i]. *)
Fixpoint actives_from (i : nat) (ws : list FSWatcher) : list nat :=
  match ws with
  | [] => []
  | w :: rest =>
      if active w then i :: actives_from (S i) rest
      else actives_from (S i) rest
  end.

Definition actives (s : Server) : list nat := actives_from 0 (watchers s).

(** No watcher is active except the one the variable [watcher] refers to. *)
Definition only_current_active (s : Server) : bool :=
  forallb (fun h => match watcher s with
                    | Some c => Nat.eqb h c
                    | None => false
                    end) (actives s).

(** [setProject] called once per path, every call answered with success;
    [None] as soon as one is not. *)
Fixpoint switchRoots (paths : list (option string)) (s : Server) : option Server :=
  match paths with
  | [] => Some s
  | p :: rest =>
      match setProject p s with
      | Some (Ok json_success, s') => switchRoots rest s'
      | _ => None
      end
  end.

(** The watch API was used in the order: close the current watcher, start
    the next; [cur] is the watcher current before [ops]. *)
Fixpoint closed_before_started (cur : option nat) (ops : list watchOp) : bool :=
  match ops with
  | [] => true
  | Closed h :: Started h' :: rest =>
      match cur with
      | Some c => Nat.eqb c h && closed_before_started (Some h') rest
      | None => false
      end
  | Started h' :: rest =>
      match cur with
      | Some _ => false
      | None => closed_before_started (Some h') rest
      end
  | Closed _ :: _ => false
  end.


(** What a handler may do to the sockets while the project root and the
    disk stay as they are: deliver messages that satisfy [P]. *)
Definition sends (P : message -> Prop) (s s' : Server) : Prop :=
  framed s s' /\ grows P (clients s) (clients s').

(** The postcondition "whatever the outcome, only such messages were sent
    since [s]". *)
Definition sent (P : message -> Prop) (s : Server) {A}
  : outcome A -> Server -> Prop :=
  fun _ s' => sends P s s'.

(** What a successful switch to [r] did to the state [s], apart from the
    disk, the console and the sockets. *)
Definition switched (r : segments) (s s' : Server) : Prop :=
  projectRoot s' = r /\
  cwd s' = cwd s /\
  recentProjects s' = recent_after (path_string r) (recentProjects s) /\
  watcher s' = Some (List.length (watchers s)) /\
  watchers s' =
    match watcher s with
    | Some h => deactivate h (watchers s)
    | None => watchers s
    end ++ [mkFSWatcher r true] /\
  watchLog s' =
    watchLog s ++
    match watcher s with Some h => [Closed h] | None => [] end ++
    [Started (List.length (watchers s))].


(** The state after the switches [paths], or [s] itself when one of them
    was refused. *)
Definition after_switches (paths : list (option string)) (s : Server) : Server :=
  match switchRoots paths s with
  | Some s' => s'
  | None => s
  end.


(** What a socket has heard after the broadcasts of [msgs], none of which
    raised. *)
Definition hears_all (msgs : list message) (c : WebSocket) : WebSocket :=
  if Nat.eqb (readyState c) OPEN
  then mkWebSocket (id c) (readyState c) (sendFails c) (inbox c ++ msgs)
  else c.

(** The messages broadcast for a burst of changed files while the tree of
    the root is [content]: two per raw event. *)
Definition burst_messages (content : Content) (burst : list string)
  : list message :=
  flat_map (fun f => [MsgFileChange f; MsgStructure content]) burst.

(** A file name that the watcher's callback acts on: not empty, and free of
    the two ignored substrings (lines 213-216). *)
Definition reported (f : string) : bool :=
  negb (f =? "")%string &&
  negb (includes f "node_modules" || includes f ".git").

Definition is_fileChange (msg : message) : bool :=
  match msg with
  | MsgFileChange _ => true
  | _ => false
  end.


(** A repository with a [.github] directory next to its sources. *)
Definition github_disk : entry :=
  EDir true
    [("repo", EDir true
                [(".github", EDir true [("ci.yml", EFile 120)]);
                 (".git", EDir true [("HEAD", EFile 23)]);
                 ("src", EDir true [("a.js", EFile 7)])])].


(** ** Vocabulary of the further properties of the builder *)

(** A node is well shaped: a directory node has its [children] and no
    [size]; any other node has no [children] property. *)
Fixpoint well_shaped (n : node) : bool :=
  match n with
  | mkNode _ _ directory None (Some kids) =>
      (fix all (l : list node) : bool :=
         match l with
         | [] => true
         | m :: t => well_shaped m && all t
         end) kids
  | mkNode _ _ file _ None => true
  | _ => false
  end.

(** The [path] of a node found below the chain of names [prefix] is that
    chain and its own name, joined with slashes, and so on below it. *)
Fixpoint paths_below (prefix : list string) (n : node) : bool :=
  match n with
  | mkNode nm p _ _ kids =>
      (p =? String.concat "/" (prefix ++ [nm]))%string
      && match kids with
         | Some c =>
             (fix all (l : list node) : bool :=
                match l with
                | [] => true
                | m :: t => paths_below (prefix ++ [nm]) m && all t
                end) c
         | None => true
         end
  end.

(** The entries of a listing that get a node: not ignored by name, and
    [stat] succeeds on them. *)
Definition listed (fs : entry) (dir : segments) (item : string) : bool :=
  negb (ignored item) &&
  match stat fs (join dir item) with
  | Ok _ => true
  | Throw _ => false
  end.


(** [demo_disk] after other directories have changed: [/proj] is as it was. *)
Definition demo_disk_later : entry :=
  EDir true
    [("proj", EDir true (scenario_entries true (EFile 5)));
     ("other", EDir true [("new.txt", EFile 1)]);
     ("tmp", EDir false [])].


(** ** Vocabulary of the further properties of paths *)

Fixpoint has_slash (s : string) : bool :=
  match s with
  | EmptyString => false
  | String c rest => Ascii.eqb c "/"%char || has_slash rest
  end.

(** A segment of a normalised path: not empty, not [.] or [..], and free
    of slashes. *)
Definition plain (seg : string) : bool :=
  negb (seg =? "")%string && negb (seg =? ".")%string &&
  negb (seg =? "..")%string && negb (has_slash seg).

Definition normalised (p : segments) : bool := forallb plain p.


(** ** [GET /api/directories] (server.js, 41-88) *)

Record DirItem := mkDirItem {
  d_name : string;
  d_path : segments;
  isParent : bool
}.

Inductive dirResponse :=
| directory_listing (current : segments) (items : list DirItem)
                                     (* res.json({ current, items }) *)
| directory_error (err : string).    (* res.status(500).json({ error }) *)

(** [for (const item of items) { ... }] in a handler, over a local array. *)
Fixpoint hfor_of {A S} (items : list A) (body : A -> S -> H S) (acc : S) : H S :=
  match items with
  | [] => hret acc
  | item :: rest => acc' <~ body item acc ;; hfor_of rest body acc'
  end.

(** [dirname(p)] of a resolved path; the root is its own parent. *)
Definition dirname (p : segments) : segments := removelast p.

(** [req.query.path || '/'] *)
Definition query_or_root (query_path : option string) : string :=
  match query_path with
  | Some p => if (p =? "")%string then "/" else p
  | None => "/"
  end.

Definition listDirectories (query_path : option string) : H dirResponse :=
  htry
    (let path := query_or_root query_path in
     here <~ gets cwd ;;
     resolvedPath <~ of_outcome (resolve here (Some path)) ;;
     console_log "Loading directories for path" ;;>
     d <~ gets disk ;;
     items <~ of_outcome (readdir d resolvedPath) ;;
     directories <~
       hfor_of items
         (fun item directories =>
            htry
              (let fullPath := join resolvedPath item in
               d <~ gets disk ;;
               stats <~ of_outcome (stat d fullPath) ;;
               if isDirectory stats
               then hret (directories ++ [mkDirItem item fullPath false])
               else hret directories)
              (fun err =>
                 console_log ("Error processing " ++ item)%string ;;>
                 hret directories))
         [] ;;
     (* Add parent directory except for root *)
     let directories :=
       match resolvedPath with
       | [] => directories
       | _ :: _ => mkDirItem ".." (dirname resolvedPath) true :: directories
       end in
     console_log "Sending directory response" ;;>
     hret (directory_listing resolvedPath directories))
    (fun err =>
       console_log "Error listing directories" ;;>
       hret (directory_error (errorMessage err))).

(** [GET /api/recent-projects] (90-93) *)
Definition getRecentProjects : H (list string) :=
  console_log "Getting recent projects" ;;>
  gets recentProjects.

(** The items for the directories among [items], in their order. *)
Definition directory_items (fs : entry) (r : segments) (items : list string)
  : list DirItem :=
  map (fun item => mkDirItem item (join r item) false)
      (filter (fun item => is_directory_at fs (join r item)) items).

(** The console lines for the entries on which [stat] fails. *)
Definition stat_errors (fs : entry) (r : segments) (items : list string)
  : list string :=
  flat_map (fun item => match stat fs (join r item) with
                        | Throw _ => ["Error processing " ++ item]%string
                        | Ok _ => []
                        end) items.

Definition with_parent (r : segments) (items : list DirItem) : list DirItem :=
  match r with
  | [] => items
  | _ :: _ => mkDirItem ".." (removelast r) true :: items
  end.


(** The ['structure'] message for the state [s], given the tree of its
    root. *)
Definition structure_message (s : Server) (structure : list node) : message :=
  MsgStructure (mkContent (base (projectRoot s)) "/" directory structure).


(** * The launcher's process-id file ([launcher.js])

    [processes] is a [Map] from a name to a child process. Of a process the
    launcher reads [pid] only, which is a number, or [undefined] when the
    spawn failed. A [Map] keeps its keys in insertion order: it is the
    list of its entries, with distinct keys. The result of [parseInt] is
    an integer or [NaN], which is [None]; strings are ASCII. *)

Definition number := option Z.

Definition MAX_SAFE_INTEGER : Z := 2 ^ 53 - 1.

(** [map.set(k, v)]: a key that is there keeps its place. *)
Fixpoint Map_set (V : Type) (k : string) (v : V) (m : list (string * V))
  : list (string * V) :=
  match m with
  | [] => [(k, v)]
  | (k', v') :: rest =>
      if (k' =? k)%string then (k, v) :: rest else (k', v') :: Map_set k v rest
  end.

(** [new Map(entries)] *)
Definition new_Map (V : Type) (entries : list (string * V)) : list (string * V) :=
  fold_left (fun m e => Map_set (fst e) (snd e) m) entries [].

Definition LF : ascii := "010"%char.

(** [s.split(sep)] for a separator of one character. *)
Fixpoint split_on (sep : ascii) (s : string) : list string :=
  match s with
  | EmptyString => [""]
  | String c rest =>
      if Ascii.eqb c sep then "" :: split_on sep rest
      else match split_on sep rest with
           | h :: t => String c h :: t
           | [] => [String c ""]
           end
  end.

(** The template [`${proc.pid}`]. *)
Definition print_pid (pid : option nat) : string :=
  match pid with
  | Some n => NilEmpty.string_of_uint (Nat.to_uint n)
  | None => "undefined"
  end.

(** The data that [savePids] hands to [writeFile]. *)
Definition pid_lines (processes : list (string * option nat)) : string :=
  String.concat (String LF "")
    (map (fun e => fst e ++ ":" ++ print_pid (snd e))%string processes).

Definition is_white_space (c : ascii) : bool :=
  existsb (Ascii.eqb c) ["009"; "010"; "011"; "012"; "013"; " "]%char.

Fixpoint skip_white_space (s : string) : string :=
  match s with
  | String c rest => if is_white_space c then skip_white_space rest else s
  | EmptyString => EmptyString
  end.

(** The value of [c] as a digit of the given radix. *)
Definition digit_in (radix : nat) (c : ascii) : option nat :=
  let n := nat_of_ascii c in
  let v := if Nat.leb 48 n && Nat.leb n 57 then Some (n - 48)
           else if Nat.leb 97 n && Nat.leb n 122 then Some (n - 87)
           else if Nat.leb 65 n && Nat.leb n 90 then Some (n - 55)
           else None in
  match v with
  | Some d => if Nat.ltb d radix then Some d else None
  | None => None
  end.

(** The longest prefix of digits, read in the radix; [None] when it is
    empty. *)
Fixpoint digits (radix : nat) (s : string) (acc : option nat) : option nat :=
  match s with
  | String c rest =>
      match digit_in radix c with
      | Some d =>
          digits radix rest
            (Some (radix * match acc with Some a => a | None => 0 end + d))
      | None => acc
      end
  | EmptyString => acc
  end.

(** [parseInt(x)] with no radix; [None] for the argument is [undefined]. *)
Definition parseInt (x : option string) : number :=
  let s := skip_white_space (match x with Some s => s | None => "undefined" end) in
  let (negative, s) :=
    match s with
    | String "-" rest => (true, rest)
    | String "+" rest => (false, rest)
    | _ => (false, s)
    end in
  let (radix, s) :=
    match s with
    | String "0" (String x rest) =>
        if Ascii.eqb x "x" || Ascii.eqb x "X" then (16, rest) else (10, s)
    | _ => (10, s)
    end in
  match digits radix s None with
  | Some n => Some (if negative then (- Z.of_nat n)%Z else Z.of_nat n)
  | None => None
  end.

(** The callback of [map] in [loadPids]: [const [name, pid] =
    line.split(':')]. [split] never gives an empty array. *)
Definition parse_line (line : string) : string * number :=
  match split_on ":" line with
  | name :: pid :: _ => (name, parseInt (Some pid))
  | [name] => (name, parseInt None)
  | [] => ("", parseInt None)
  end.

(** [loadPids], given what [readFile] does. *)
Definition parse_pids (file : outcome string) : list (string * number) :=
  match file with
  | Ok content =>
      new_Map (map parse_line
                 (filter (fun line => negb (line =? "")%string)
                         (split_on LF content)))
  | Throw _ => []
  end.

Fixpoint has_char (c : ascii) (s : string) : bool :=
  match s with
  | String a rest => Ascii.eqb a c || has_char c rest
  | EmptyString => false
  end.

(** A name that the file format can hold. *)
Definition pid_name (s : string) : bool :=
  negb (has_char ":" s) && negb (has_char LF s).

Definition safe_pid (pid : option nat) : bool :=
  match pid with
  | Some n => (Z.of_nat n <=? MAX_SAFE_INTEGER)%Z
  | None => true
  end.

Definition loaded (e : string * option nat) : string * number :=
  (fst e, option_map Z.of_nat (snd e)).

(** The launcher: the PID file, if there is one, whether its directory
    refuses writes, the [processes] map, and the pids handed to
    [treeKill] so far. Console output is left out. *)
Record Launcher := mkLauncher {
  pidFile : option string;
  locked : bool;
  processes : list (string * option nat);
  killed : list number
}.

Definition readFile (l : Launcher) : outcome string :=
  match pidFile l with
  | Some content => Ok content
  | None => Throw ENOENT
  end.

Definition savePids (l : Launcher) : outcome unit * Launcher :=
  if locked l then (Throw EACCES, l)
  else (Ok tt, mkLauncher (Some (pid_lines (processes l))) (locked l)
                          (processes l) (killed l)).

Definition loadPids (l : Launcher) : list (string * number) :=
  parse_pids (readFile l).

Definition treeKill (pid : number) (l : Launcher) : Launcher :=
  mkLauncher (pidFile l) (locked l) (processes l) (killed l ++ [pid]).

(** [map.delete(k)] *)
Definition Map_delete (V : Type) (k : string) (m : list (string * V))
  : list (string * V) :=
  filter (fun e => negb (fst e =? k)%string) m.

(** [startProcess], given the pid of what [spawn] returns; the [exit]
    listener that it installs on the child is [onExit]. *)
Definition startProcess (name : string) (pid : option nat) (l : Launcher)
  : Launcher :=
  mkLauncher (pidFile l) (locked l) (Map_set name pid (processes l)) (killed l).

(** The [exit] listener of the child started as [name] (52-58): the entry
    of that name is deleted and the file is saved again. *)
Definition onExit (name : string) (l : Launcher) : outcome unit * Launcher :=
  savePids (mkLauncher (pidFile l) (locked l)
                       (Map_delete name (processes l)) (killed l)).

(** [stopAll]: a failure of [treeKill] or of [unlink] is caught. *)
Definition stopAll (l : Launcher) : Launcher :=
  let l := fold_left (fun l e => treeKill (snd e) l) (loadPids l) l in
  let l := fold_left (fun l e => treeKill (option_map Z.of_nat (snd e)) l)
                     (processes l) l in
  mkLauncher (if locked l then pidFile l else None) (locked l) [] (killed l).

(** [start], up to the moment its last save is written, given the pids of
    the two children and the [exit] events that arrive while it waits:
    [early] says that [server] exits during the wait of line 112, and
    [late] lists the children that exit while the last save is being
    written. The listener of each has then deleted its entry and started a
    save of its own; writes reach the file in the order in which they were
    started, so these saves are still to come when the save of [start] is
    written. When the directory refuses writes, the save of a listener
    fails, and so does [start]. *)
Definition start (server vite : option nat) (early : bool) (late : list string)
           (l : Launcher) : outcome unit * Launcher :=
  let l := startProcess "server" server (stopAll l) in
  match (if early then onExit "server" l else (Ok tt, l)) with
  | (Throw e, l) => (Throw e, l)
  | (Ok _, l) =>
      match savePids (startProcess "vite" vite l) with
      | (Throw e, l) => (Throw e, l)
      | (Ok _, l) =>
          (Ok tt,
           mkLauncher (pidFile l) (locked l)
                      (fold_left (fun m name => Map_delete name m) late
                                 (processes l))
                      (killed l))
      end
  end.

(** * The browser side: breadcrumb and reconnection

    [updateBreadcrumb] builds the children of the breadcrumb element and
    gives each item an [onclick] closure. A closure is kept as the
    argument it passes to [navigateTo] when it runs: a literal, or the
    local variable [currentPath] of the call that made it. All the
    closures of one call share that one variable, so they read what it
    holds when they run, after the call has returned. *)

Inductive argument :=
| Literal (s : string)
| LocalCurrentPath.

Record element := mkElement {
  className : string;
  textContent : string;
  onclick : option argument
}.

(** The body of [parts.forEach((part, index) => ...)], on the children
    appended so far and the local [currentPath]. *)
Definition breadcrumb_part (index : nat) (part : string)
                           (st : list element * string) : list element * string :=
  let (children, currentPath) := st in
  let children :=
    if Nat.ltb 0 index
    then children ++ [mkElement "breadcrumb-separator" "/" None]
    else children in
  let currentPath := (currentPath ++ "/" ++ part)%string in
  (children ++ [mkElement "breadcrumb-item" part (Some LocalCurrentPath)],
   currentPath).

Fixpoint forEach_index (A St : Type) (f : nat -> A -> St -> St)
                       (index : nat) (xs : list A) (st : St) : St :=
  match xs with
  | [] => st
  | x :: rest => forEach_index f (S index) rest (f index x st)
  end.

(** [updateBreadcrumb(path)]: the children of the breadcrumb, and what the
    local [currentPath] holds when the call returns. *)
Definition updateBreadcrumb (path : string) : list element * string :=
  let parts := filter (fun part => negb (part =? "")%string) (split_slash path) in
  forEach_index breadcrumb_part 0 parts
    ([mkElement "breadcrumb-item" "/" (Some (Literal "/"))], "").

(** A click on an element of the breadcrumb that [updateBreadcrumb(path)]
    left: the path handed to [navigateTo], if the element has a handler. *)
Definition click (path : string) (e : element) : option string :=
  match onclick e with
  | Some (Literal s) => Some s
  | Some LocalCurrentPath => Some (snd (updateBreadcrumb path))
  | None => None
  end.

(** The connection of the page to the server: the counter
    [reconnectAttempts], the number of [WebSocket] objects made so far, the
    number of [setTimeout(connectWebSocket, ...)] that have not fired yet,
    and the last status shown for the connection. *)
Inductive status :=
| NoStatus
| Connected
| Reconnecting (attempt : nat)
| PleaseRefresh.

Record Page := mkPage {
  reconnectAttempts : nat;
  sockets : nat;
  timers : nat;
  shown : status
}.

Definition maxReconnectAttempts : nat := 5.

Definition connectWebSocket (p : Page) : Page :=
  mkPage (reconnectAttempts p) (S (sockets p)) (timers p) (shown p).

(** [ws.onopen]; the request that it sends is not kept. *)
Definition onopen (p : Page) : Page :=
  mkPage 0 (sockets p) (timers p) Connected.

(** [ws.onclose] *)
Definition onclose (p : Page) : Page :=
  if Nat.ltb (reconnectAttempts p) maxReconnectAttempts
  then mkPage (S (reconnectAttempts p)) (sockets p)
              (S (timers p))
              (Reconnecting (S (reconnectAttempts p)))
  else mkPage (reconnectAttempts p) (sockets p) (timers p) PleaseRefresh.

Inductive page_event :=
| SocketOpens
| SocketCloses
| TimerFires.

(** A timer fires only if one is pending. *)
Definition page_step (p : Page) (ev : page_event) : Page :=
  match ev with
  | SocketOpens => onopen p
  | SocketCloses => onclose p
  | TimerFires =>
      match timers p with
      | 0 => p
      | S n =>
          connectWebSocket (mkPage (reconnectAttempts p) (sockets p) n (shown p))
      end
  end.

(** The page once the module has run: [connectWebSocket()] at the end. *)
Definition page_loaded : Page := connectWebSocket (mkPage 0 0 0 NoStatus).

Definition closes (evs : list page_event) : nat :=
  List.length (filter (fun ev => match ev with SocketCloses => true | _ => false end) evs).

Definition no_open (evs : list page_event) : bool :=
  forallb (fun ev => match ev with SocketOpens => false | _ => true end) evs.

Definition is_item (e : element) : bool := (className e =? "breadcrumb-item")%string.


(** * Handlers as they run: one segment per [await]

    An [async] handler does not run in one piece. It runs from the event
    that starts it to its first [await] on the file system, and then from
    the completion of each operation to the next [await]; the segments of
    other handlers run in between. Within a segment nothing else runs. An
    operation of the file system reads or writes the disk at the moment
    the handler resumes from it. The handlers above are these segments
    run one after the other with nothing in between. *)

(** ** [getDirectoryStructure], suspended

    What a walk that waits for the disk remembers: the loops that wait for
    the walk of a subdirectory, innermost first, each with the node that
    gets the children, the items left and the [structure] so far. *)
Record frame := mkFrame {
  f_dir : segments;
  f_node : node;
  f_rest : list string;
  f_structure : list node
}.

Inductive walk :=
| AwaitReaddir (dir : segments) (stack : list frame)          (* line 164 *)
| AwaitStat (dir : segments) (item : string) (rest : list string)
            (structure : list node) (stack : list frame)       (* line 170 *)
| Returned (structure : list node).

(** [return structure] (lines 192 and 195): the loop that waits for it
    pushes its node and goes on to its next item, and returns in turn when
    it has none. *)
Fixpoint return_to (stack : list frame) (result : list node) : walk :=
  match stack with
  | [] => Returned result
  | fr :: stack' =>
      let structure := f_structure fr ++ [set_children (f_node fr) result] in
      match f_rest fr with
      | [] => return_to stack' structure
      | item :: rest => AwaitStat (f_dir fr) item rest structure stack'
      end
  end.

(** The head of the loop at line 167. *)
Definition next_item (dir : segments) (items : list string)
           (structure : list node) (stack : list frame) : walk :=
  match items with
  | [] => return_to stack structure
  | item :: rest => AwaitStat dir item rest structure stack
  end.

(** The walk from one [await] to the next, on the disk [fs] while the
    module variable [projectRoot] holds [root], with the lines it writes
    to the console. *)
Definition walk_step (fs : entry) (root : segments) (w : walk)
  : walk * list string :=
  match w with
  | AwaitReaddir dir stack =>
      match readdir fs dir with
      | Ok items => (next_item dir items [] stack, [])
      | Throw _ => (return_to stack [], ["Error reading directory"])
      end
  | AwaitStat dir item rest structure stack =>
      match stat fs (join dir item) with
      | Throw _ =>
          (next_item dir rest structure stack, ["Error processing " ++ item]%string)
      | Ok stats =>
          if ignored item then (next_item dir rest structure stack, [])
          else if isDirectory stats
               then (AwaitReaddir (join dir item)
                       (mkFrame dir (node_of root dir item stats) rest structure
                          :: stack), [])
               else (next_item dir rest
                       (structure ++ [node_of root dir item stats]) stack, [])
      end
  | Returned structure => (Returned structure, [])
  end.

Definition awaiting (w : walk) : bool :=
  match w with
  | Returned _ => false
  | _ => true
  end.

(** ** Suspended handlers *)

(** What a handler does once [getDirectoryStructure(projectRoot)] has
    returned. *)
Inductive after_walk :=
| Greet (i : nat)          (* 255-263, in the [try] of 253-270 *)
| Reply (i : nat)          (* 277-285, in the [try] of 273-293 *)
| Announce                 (* 132-142, in the [try] of 96-146 *)
| Notify.                  (* 229-237, in the [try] of 220-240 *)

Inductive Task :=
| Walking (w : walk) (k : after_walk)
| AwaitRootStat (resolvedPath : segments)     (* [await stat], line 103 *)
| AwaitSave (data : string)                   (* [await writeFile], line 119 *)
| Finished (o : outcome unit)
| Answered (r : response).

Definition finished (t : Task) : bool :=
  match t with
  | Finished _ | Answered _ => true
  | _ => false
  end.

(** The [catch] of [/api/set-project] (143-146) *)
Definition answer_500 (err : error) : H Task :=
  console_log "Error setting project" ;;>
  hret (Answered (status_500 (errorMessage err))).

(** The last segment of the four senders: the root object is built around
    [structure] from what [projectRoot] holds now. *)
Definition finish (k : after_walk) (structure : list node) : H Task :=
  match k with
  | Greet i =>
      htry (root <~ gets projectRoot ;;
            ws_send i (MsgStructure (mkContent (base root) "/" directory structure)))
           (fun err =>
              console_log "Error sending initial structure" ;;>
              ws_send i (MsgError "Failed to load project structure")) ;;>
      hret (Finished (Ok tt))
  | Reply i =>
      htry (root <~ gets projectRoot ;;
            ws_send i (MsgStructure (mkContent (base root) "/" directory structure)))
           (fun err =>
              console_log "Error handling message" ;;>
              ws_send i (MsgError "Failed to process request")) ;;>
      hret (Finished (Ok tt))
  | Announce =>
      htry (root <~ gets projectRoot ;;
            broadcastToClients
              (MsgStructure (mkContent (base root) "/" directory structure)) ;;>
            hret (Answered json_success))
           answer_500
  | Notify =>
      htry (root <~ gets projectRoot ;;
            broadcastToClients
              (MsgStructure (mkContent (base root) "/" directory structure)))
           (fun err => console_log "Error broadcasting changes") ;;>
      hret (Finished (Ok tt))
  end.

(** The handler at the state [w] of its walk: it waits again, or the walk
    has returned and the handler runs to its end. *)
Definition land (k : after_walk) (w : walk) : H Task :=
  match w with
  | Returned structure => finish k structure
  | _ => hret (Walking w k)
  end.

(** The call [getDirectoryStructure(projectRoot)]: the argument is read
    and [readdir] is asked for before the handler yields. *)
Definition call_walk (k : after_walk) : H Task :=
  root <~ gets projectRoot ;;
  hret (Walking (AwaitReaddir root []) k).

Definition resume_walk (w : walk) (k : after_walk) : H Task :=
  root <~ gets projectRoot ;;
  d <~ gets disk ;;
  modify (fun s => set_console (console s ++ snd (walk_step d root w)) s) ;;>
  land k (fst (walk_step d root w)).

(** [POST /api/set-project]: lines 96-103, 103-119 and 119-131. *)
Definition setProject_arrive (body_path : option string) : H Task :=
  htry
    (console_log "Setting project path" ;;>
     here <~ gets cwd ;;
     resolvedPath <~ of_outcome (resolve here body_path) ;;
     hret (AwaitRootStat resolvedPath))
    answer_500.

Definition setProject_after_stat (resolvedPath : segments) : H Task :=
  htry
    (d <~ gets disk ;;
     stats <~ of_outcome (stat d resolvedPath) ;;
     (if negb (isDirectory stats) then hthrow (Error "Not a directory")
      else hret tt) ;;>
     modify (set_projectRoot resolvedPath) ;;>
     modify (fun s => set_recentProjects
                        (Set_add (path_string resolvedPath) (recentProjects s)) s) ;;>
     recent <~ gets recentProjects ;;
     (if Nat.ltb 10 (List.length recent)
      then modify (fun s =>
             set_recentProjects
               match recentProjects s with
               | [] => []
               | first :: _ => Set_delete first (recentProjects s)
               end s)
      else hret tt) ;;>
     recent <~ gets recentProjects ;;
     hret (AwaitSave (String.concat (String "010"%char "") recent)))
    answer_500.

Definition setProject_after_save (data : string) : H Task :=
  htry
    (here <~ gets cwd ;;
     htry (writeFile (join here RECENT_PROJECTS_FILE) data)
          (fun err => console_log "Error saving recent projects") ;;>
     w <~ gets watcher ;;
     match w with Some h => close h | None => hret tt end ;;>
     setupWatcher ;;>
     call_walk Announce)
    answer_500.

(** The callback of the watcher: lines 213-228. *)
Definition onWatchChange_arrive (filename : option string) : H Task :=
  match filename with
  | None => hret (Finished (Ok tt))
  | Some f =>
      if (f =? "")%string then hret (Finished (Ok tt))
      else if includes f "node_modules" || includes f ".git"
           then hret (Finished (Ok tt))
      else
        console_log ("File " ++ f ++ " changed")%string ;;>
        htry
          (broadcastToClients (MsgFileChange f) ;;>
           call_walk Notify)
          (fun err =>
             console_log "Error broadcasting changes" ;;>
             hret (Finished (Ok tt)))
  end.

(** [wss.on('connection')]: lines 250-254. *)
Definition onConnection_arrive (ws : WebSocket) : H Task :=
  modify (fun s => set_clients (clients s ++ [ws]) s) ;;>
  console_log "Client connected" ;;>
  call_walk (Greet (id ws)).

(** [ws.on('message')]: lines 273-276, or to the end when there is no walk. *)
Definition onMessage_arrive (i : nat) (m : inbound) : H Task :=
  htry
    (data <~ match m with
             | Unparsable => hthrow (Error "Unexpected token in JSON")
             | JsonNull => hthrow TypeError
             | Json ty => hret ty
             end ;;
     match data with
     | Some ty =>
         if (ty =? "getStructure")%string
         then call_walk (Reply i)
         else hret (Finished (Ok tt))
     | None => hret (Finished (Ok tt))
     end)
    (fun err =>
       console_log "Error handling message" ;;>
       ws_send i (MsgError "Failed to process request") ;;>
       hret (Finished (Ok tt))).

(** The first segment of the handler of an event. *)
Definition arrive (ev : event) : H Task :=
  match ev with
  | Connection ws => onConnection_arrive ws
  | Message i m => onMessage_arrive i m
  | SetProject p => setProject_arrive p
  | WatchChange f => onWatchChange_arrive f
  | _ => handle ev ;;> hret (Finished (Ok tt))
  end.

(** The next segment of a suspended handler. *)
Definition resume (t : Task) : H Task :=
  match t with
  | Walking w k => resume_walk w k
  | AwaitRootStat resolvedPath => setProject_after_stat resolvedPath
  | AwaitSave data => setProject_after_save data
  | Finished _ | Answered _ => hret t
  end.

(** A segment that throws ends its handler: the promise is rejected. *)
Definition segment (m : H Task) (s : Server) : option (Task * Server) :=
  match m s with
  | Some (Ok t, s') => Some (t, s')
  | Some (Throw e, s') => Some (Finished (Throw e), s')
  | None => None
  end.

(** ** One handler among the others

    [run_task env t s]: the handler [t] runs one segment for each element
    of [env], and before each of them the rest of the server does to the
    state what that element says. *)
Fixpoint run_task (env : list (Server -> Server)) (t : Task) (s : Server)
  : option (Task * Server) :=
  match env with
  | [] => Some (t, s)
  | e :: env' =>
      match segment (resume t) (e s) with
      | Some (t', s') => run_task env' t' s'
      | None => None
      end
  end.

(** The others leave the disk and the project root as they are. *)
Definition quiet (e : Server -> Server) : Prop :=
  forall s, disk (e s) = disk s /\ projectRoot (e s) = projectRoot s.

(** ** All the handlers together

    The handlers that have started, in the order of their events; a handler
    that has finished keeps its place. *)
Record World := mkWorld {
  server : Server;
  pending : list Task
}.

Inductive action :=
| Arrives (ev : event)       (* an event starts its handler *)
| Resumes (j : nat).         (* the operation that handler [j] awaits completes *)

Fixpoint replace_nth (A : Type) (j : nat) (x : A) (l : list A) : list A :=
  match l, j with
  | [], _ => []
  | _ :: rest, 0 => x :: rest
  | y :: rest, S j' => y :: replace_nth j' x rest
  end.

(** The connection handler puts the ['message'] listener on its socket at
    line 272, after the greeting: a message of a socket whose greeting is
    still under way has no listener and is not handled. The sockets of a
    server at rest have theirs. *)
Definition greeting (i : nat) (t : Task) : bool :=
  match t with
  | Walking _ (Greet j) => Nat.eqb j i
  | _ => false
  end.

Definition listens (ev : event) (ts : list Task) : bool :=
  match ev with
  | Message i _ => negb (existsb (greeting i) ts)
  | _ => true
  end.

Definition act (a : action) (w : World) : option World :=
  match a with
  | Arrives ev =>
      if listens ev (pending w) then
        match segment (arrive ev) (server w) with
        | Some (t, s') => Some (mkWorld s' (pending w ++ [t]))
        | None => None
        end
      else Some w
  | Resumes j =>
      match nth_error (pending w) j with
      | Some t =>
          match segment (resume t) (server w) with
          | Some (t', s') => Some (mkWorld s' (replace_nth j t' (pending w)))
          | None => None
          end
      | None => Some w
      end
  end.

Fixpoint schedule (acts : list action) (w : World) : option World :=
  match acts with
  | [] => Some w
  | a :: rest =>
      match act a w with
      | Some w' => schedule rest w'
      | None => None
      end
  end.

(** The server at rest in the state [s]: no handler is under way. *)
Definition at_rest (s : Server) : World := mkWorld s [].

(** The handler of [ev] started at rest and resumed [n] times, with no
    other handler in between. *)
Definition alone (ev : event) (n : nat) : list action :=
  Arrives ev :: repeat (Resumes 0) n.


(** ** Vocabulary of the statements about segments *)

(** The walk goes from [w] to [w'] in one step per element of [lgs], each
    step writing those lines, on the disk [fs] under the root [root]; it
    has not returned before the last step. *)
Fixpoint walk_path (fs : entry) (root : segments) (w : walk)
         (lgs : list (list string)) (w' : walk) : Prop :=
  match lgs with
  | [] => w = w'
  | lg :: rest =>
      awaiting w = true /\ snd (walk_step fs root w) = lg /\
      walk_path fs root (fst (walk_step fs root w)) rest w'
  end.

(** The state after the others and the walk took turns: before each step
    of the walk the others do [e], then the step writes its lines. *)
Fixpoint weave (env : list (Server -> Server)) (lgs : list (list string))
         (s : Server) : Server :=
  match env, lgs with
  | e :: env', lg :: lgs' =>
      weave env' lgs' (set_console (console (e s) ++ lg) (e s))
  | _, _ => s
  end.



(** A server at rest on [demo_disk] whose project root is [/proj], started
    in [/srv/app]. *)
Definition proj_server (cs : list WebSocket) : Server :=
  mkServer demo_disk ["srv"; "app"] ["proj"] (Some 0)
           [mkFSWatcher ["proj"] true] [Started 0] ["/proj"] cs [].

(** What a socket was told about the root: for each ['structure'] message
    in its inbox, the name of the root object and the names and paths of
    its children. *)
Definition told (c : WebSocket) : list (string * list string * list string) :=
  flat_map (fun msg => match msg with
                       | MsgStructure content =>
                           [(c_name content,
                             map name (c_children content),
                             map path (c_children content))]
                       | _ => []
                       end) (inbox c).



(** ** Vocabulary of the statements about bursts *)

(** What happens during a burst: raw events reach the watcher's callback,
    the disk goes on changing, and callbacks that wait for the disk resume
    in any order. *)
Definition burst_action (a : action) : bool :=
  match a with
  | Arrives (WatchChange _) => true
  | Arrives (DiskChange _) => true
  | Resumes _ => true
  | _ => false
  end.

Definition is_resume (a : action) : bool :=
  match a with
  | Resumes _ => true
  | _ => false
  end.

(** The raw events with a reported file name among the actions. *)
Definition notices (acts : list action) : nat :=
  List.length
    (filter (fun a => match a with
                      | Arrives (WatchChange (Some f)) => reported f
                      | _ => false
                      end) acts).

(** The handlers that have not reached their end. *)
Definition in_flight (w : World) : nat :=
  List.length (filter (fun t => negb (finished t)) (pending w)).

Definition is_structure (msg : message) : bool :=
  match msg with
  | MsgStructure _ => true
  | _ => false
  end.

(** The socket [c] has become [c'] by receiving, if it is open, exactly
    [changes] ['fileChange'] messages and [structures] ['structure']
    messages, in some order, and nothing if it is not open. *)
Definition heard (changes structures : nat) (c c' : WebSocket) : Prop :=
  id c' = id c /\ readyState c' = readyState c /\ sendFails c' = sendFails c /\
  exists extra,
    inbox c' = inbox c ++ extra /\
    if Nat.eqb (readyState c) OPEN
    then List.length (filter is_fileChange extra) = changes /\
         List.length (filter is_structure extra) = structures /\
         List.length extra = changes + structures
    else extra = [].

(** Every handler under way is a callback of the watcher in its walk. *)
Definition callbacks_only (w : World) : Prop :=
  Forall (fun t => finished t = true \/ exists wk, t = Walking wk Notify)
         (pending w).


(** ** Vocabulary of the statements about uninterrupted handlers *)

(** The handler [A], written in one piece, and the segments that start
    with [B] agree from [s]: whatever [A] does, the segments do when they
    run one after the other with nothing in between. [fin] turns the
    outcome of [A] into the handler at its end. *)
Definition refines (X : Type) (fin : outcome X -> Task) (A : H X) (B : H Task)
           (s : Server) : Prop :=
  forall o s',
    A s = Some (o, s') ->
    exists n t s1,
      segment B s = Some (t, s1) /\
      run_task (repeat (fun s => s) n) t s1 = Some (fin o, s').








(** [demo_disk] after a file was added to [/proj]. *)
Definition demo_disk_grown : entry :=
  EDir true
    [("proj", EDir true (scenario_entries true (EFile 5) ++ [("new.txt", EFile 1)]));
     ("other", EDir true []);
     ("srv", EDir true [("app", EDir true [])])].

(** The names at the top of what [getDirectoryStructure] returns for the
    project root of [s]. *)
Definition root_names (s : Server) : option (list string) :=
  match getDirectoryStructure (disk s) (projectRoot s) (projectRoot s) with
  | Some (Ok structure, _) => Some (map name structure)
  | _ => None
  end.


(** * Theorems *)

(** ** Facts about the file system *)

Lemma lookup_app (p q : segments) (e : entry) :
  lookup (p ++ q) e =
  match lookup p e with Some e' => lookup q e' | None => None end.
Proof.
  revert e; induction p as [|seg p IH]; intros e; simpl; [reflexivity|].
  destruct e; try reflexivity.
  destruct (find_entry seg entries); [apply IH | reflexivity].
Qed.

Lemma lookup_join (dir : segments) (item : string) (fs : entry) l entries :
  lookup dir fs = Some (EDir l entries) ->
  lookup (join dir item) fs = find_entry item entries.
Proof.
  intros H. unfold join. rewrite lookup_app, H. simpl.
  destruct (find_entry item entries); reflexivity.
Qed.

Lemma find_entry_height name entries l c :
  find_entry name entries = Some c -> height c < height (EDir l entries).
Proof.
  simpl. induction entries as [|[n e] rest IH]; simpl; [discriminate|].
  destruct (n =? name)%string.
  - intros [= ->]. lia.
  - intros H. specialize (IH H). lia.
Qed.

Lemma lookup_height (p : segments) (fs e : entry) :
  lookup p fs = Some e -> height e <= height fs.
Proof.
  revert fs; induction p as [|seg p IH]; intros fs; simpl.
  - intros [= ->]. lia.
  - destruct fs; try discriminate.
    destruct (find_entry seg entries) as [c|] eqn:F; [|discriminate].
    intros H. apply IH in H.
    pose proof (@find_entry_height _ _ listable _ F). lia.
Qed.

Lemma find_entry_In name entries c :
  find_entry name entries = Some c -> In name (map fst entries).
Proof.
  induction entries as [|[n e] rest IH]; simpl; [discriminate|].
  destruct (n =? name)%string eqn:E.
  - apply String.eqb_eq in E. auto.
  - auto.
Qed.

Lemma In_find_entry name entries :
  In name (map fst entries) -> exists c, find_entry name entries = Some c.
Proof.
  induction entries as [|[n e] rest IH]; simpl; [tauto|].
  intros [->|H].
  - rewrite String.eqb_refl. eauto.
  - destruct (n =? name)%string; eauto.
Qed.

Lemma readdir_Ok fs dir items :
  readdir fs dir = Ok items ->
  exists entries, lookup dir fs = Some (EDir true entries) /\ items = map fst entries.
Proof.
  unfold readdir. destruct (lookup dir fs) as [[| [|] entries | |]|];
    try discriminate.
  intros [= <-]. eauto.
Qed.

(** ** Facts about the builder *)

(** What one iteration does, case by case. *)
Lemma visit_cases fs root recurse dir item structure :
  visit fs root recurse dir item structure =
  match stat fs (join dir item) with
  | Throw _ => Some (Ok structure, ["Error processing " ++ item]%string)
  | Ok stats =>
      if ignored item then Some (Ok structure, [])
      else if isDirectory stats then
        match recurse (join dir item) with
        | None => None
        | Some (Ok kids, lg) =>
            Some (Ok (structure ++
                        [set_children (node_of root dir item stats) kids]),
                  lg)
        | Some (Throw _, lg) =>
            Some (Ok structure, lg ++ ["Error processing " ++ item]%string)
        end
      else Some (Ok (structure ++ [node_of root dir item stats]), [])
  end.
Proof.
  unfold visit, ignored, node_of.
  destruct (stat fs (join dir item)) as [stats|e]; simpl; [|reflexivity].
  destruct ((item =? "node_modules")%string || (item =? ".git")%string);
    simpl; [reflexivity|].
  destruct (isDirectory stats); simpl; [|reflexivity].
  destruct (recurse (join dir item)) as [[[kids|e] lg]|]; simpl;
    rewrite ?app_nil_r; reflexivity.
Qed.

Lemma gds_cases fs root fuel dir :
  gds fs root (S fuel) dir =
  match readdir fs dir with
  | Throw _ => Some (Ok [], ["Error reading directory"])
  | Ok items =>
      match for_of items (visit fs root (gds fs root fuel) dir) [] with
      | None => None
      | Some (Ok r, lg) => Some (Ok r, lg)
      | Some (Throw _, lg) => Some (Ok [], lg ++ ["Error reading directory"])
      end
  end.
Proof.
  simpl. destruct (readdir fs dir) as [items|e]; simpl; [|reflexivity].
  destruct (for_of items _ []) as [[[r|e] lg]|]; simpl; reflexivity.
Qed.

(** A loop whose iterations all complete normally completes normally. *)
Lemma for_of_total {A S} (items : list A) (body : A -> S -> M S) :
  (forall item acc, In item items ->
                    exists acc' lg, body item acc = Some (Ok acc', lg)) ->
  forall acc, exists r lg, for_of items body acc = Some (Ok r, lg).
Proof.
  induction items as [|item rest IH]; intros Hbody acc; simpl.
  - unfold ret. eauto.
  - destruct (Hbody item acc (or_introl eq_refl)) as (acc' & lg & E).
    destruct (IH (fun i a Hi => Hbody i a (or_intror Hi)) acc') as (r & lg' & E').
    unfold bind. rewrite E, E'. eauto.
Qed.

Lemma for_of_mono {A S} (items : list A) (body1 body2 : A -> S -> M S) :
  (forall item acc r, body1 item acc = Some r -> body2 item acc = Some r) ->
  forall acc r, for_of items body1 acc = Some r -> for_of items body2 acc = Some r.
Proof.
  intros Hb. induction items as [|item rest IH]; intros acc r; simpl; [auto|].
  unfold bind.
  destruct (body1 item acc) as [[[acc'|e] lg]|] eqn:E1; [| |discriminate];
    rewrite (Hb _ _ _ E1); [|auto].
  destruct (for_of rest body1 acc') as [[r' lg']|] eqn:E2; [|discriminate].
  rewrite (IH _ _ E2). auto.
Qed.

(** More fuel never changes a result that was reached. *)
Lemma gds_mono fs root n :
  forall m dir r, n <= m ->
    gds fs root n dir = Some r -> gds fs root m dir = Some r.
Proof.
  induction n as [|n IH]; intros m dir r Hle; [discriminate|].
  destruct m as [|m]; [lia|].
  rewrite !gds_cases.
  destruct (readdir fs dir) as [items|e]; [|auto].
  destruct (for_of items (visit fs root (gds fs root n) dir) [])
    as [r0|] eqn:E; [|discriminate].
  erewrite for_of_mono; [eauto | | exact E].
  intros item acc r1. rewrite !visit_cases.
  destruct (stat fs (join dir item)) as [stats|]; [|auto].
  destruct (ignored item); [auto|].
  destruct (isDirectory stats); [|auto].
  destruct (gds fs root n (join dir item)) as [r2|] eqn:E2; [|discriminate].
  rewrite (@IH m _ _ ltac:(lia) E2). auto.
Qed.

(** Whatever the builder returns, it returns normally: both [catch] blocks
    swallow the exception. *)
Lemma gds_never_throws fs root fuel dir o lg :
  gds fs root fuel dir = Some (o, lg) -> exists r, o = Ok r.
Proof.
  destruct fuel as [|fuel]; [discriminate|]. rewrite gds_cases.
  destruct (readdir fs dir) as [items|e].
  - destruct (for_of items _ []) as [[[r|e] lg']|]; intros [= <- <-]; eauto.
  - intros [= <- <-]. eauto.
Qed.

(** With fuel above the height of the subtree at [dir], the walk finishes. *)
Lemma gds_total fs root fuel :
  forall dir, height_at fs dir < fuel ->
    exists r lg, gds fs root fuel dir = Some (Ok r, lg).
Proof.
  induction fuel as [|fuel IH]; intros dir H; [lia|].
  rewrite gds_cases.
  destruct (readdir fs dir) as [items|e] eqn:R; [|eauto].
  apply readdir_Ok in R as (entries & L & ->).
  destruct (for_of_total (map fst entries)
              (visit fs root (gds fs root fuel) dir)) with (acc := @nil node)
    as (r & lg & E).
  - intros item acc Hin. rewrite visit_cases.
    unfold stat. rewrite (@lookup_join dir item fs _ _ L).
    destruct (@In_find_entry _ _ Hin) as (c & F). rewrite F.
    destruct (stats_of c) as [stats|] eqn:St; [|eauto].
    destruct (ignored item); [eauto|].
    destruct (isDirectory stats); [|eauto].
    destruct (IH (join dir item)) as (kids & lg & E).
    + unfold height_at in *. rewrite (@lookup_join dir item fs _ _ L), F. rewrite L in H.
      pose proof (@find_entry_height _ _ true _ F). lia.
    + rewrite E. eauto.
  - rewrite E. eauto.
Qed.

(** [getDirectoryStructure] always returns, and returns normally. *)
Lemma getDirectoryStructure_total fs root dir :
  exists r lg, getDirectoryStructure fs root dir = Some (Ok r, lg).
Proof.
  apply gds_total. unfold height_at.
  destruct (lookup dir fs) as [e|] eqn:L; [|lia].
  apply lookup_height in L. lia.
Qed.

(** Any fuel that suffices gives the result of [getDirectoryStructure]. *)
Lemma getDirectoryStructure_fuel fs root dir fuel r :
  gds fs root fuel dir = Some r ->
  getDirectoryStructure fs root dir = Some r.
Proof.
  intros H. unfold getDirectoryStructure.
  destruct (Nat.le_gt_cases fuel (S (height fs))) as [Hle|Hgt].
  - eapply gds_mono; eauto.
  - destruct (getDirectoryStructure_total fs root dir) as (r' & lg & E).
    unfold getDirectoryStructure in E.
    assert (Hle : S (height fs) <= fuel) by lia.
    rewrite (@gds_mono fs root _ fuel dir _ Hle E) in H.
    congruence.
Qed.

Lemma for_of_ext {A S} (items : list A) (body1 body2 : A -> S -> M S) :
  (forall item acc, body1 item acc = body2 item acc) ->
  forall acc, for_of items body1 acc = for_of items body2 acc.
Proof.
  intros Hb. induction items as [|item rest IH]; intros acc; simpl; [reflexivity|].
  unfold bind. rewrite Hb.
  destruct (body2 item acc) as [[[acc'|e] lg]|]; try reflexivity.
  rewrite IH. reflexivity.
Qed.

Lemma gds_in_correct fs root fuel :
  forall dir, gds fs root fuel dir = gds_in root fuel dir (lookup dir fs).
Proof.
  induction fuel as [|fuel IH]; intros dir; [reflexivity|].
  rewrite gds_cases. unfold readdir.
  destruct (lookup dir fs) as [[| [|] entries | |]|] eqn:L; try reflexivity.
  cbn [gds_in].
  erewrite for_of_ext; [reflexivity|].
  intros item acc. rewrite visit_cases. unfold stat.
  rewrite (@lookup_join dir item fs _ _ L).
  destruct (find_entry item entries) as [c|] eqn:F; [|reflexivity].
  destruct (stats_of c) as [stats|]; [|reflexivity].
  destruct (ignored item); [reflexivity|].
  destruct (isDirectory stats); [|reflexivity].
  rewrite IH, (@lookup_join dir item fs _ _ L), F. reflexivity.
Qed.

Lemma Permutation_3 {A} (a b c : A) (l : list A) :
  Permutation l [a; b; c] ->
  l = [a; b; c] \/ l = [a; c; b] \/ l = [b; a; c] \/
  l = [b; c; a] \/ l = [c; a; b] \/ l = [c; b; a].
Proof.
  intros P.
  destruct (Permutation_vs_cons_inv P) as (l1 & l2 & ->).
  apply Permutation_sym, Permutation_cons_app_inv, Permutation_length_2_inv in P.
  destruct l1 as [|x [|y [|z l1]]]; simpl in *;
    destruct P as [P|P]; inversion P; subst; auto 7;
    match goal with
    | E : _ ++ _ = [] |- _ => apply app_eq_nil in E as [_ E]; discriminate
    | _ => idtac
    end.
Qed.

(** ** The scenario of the tree builder *)

(** C1. Whenever the directory [dir] holds exactly [a.txt] (10 bytes), the
    directory [sub] holding exactly [b.txt] (20 bytes), and a directory
    [node_modules] holding [x.js], in whatever order the disk lists them,
    [getDirectoryStructure(dir)] returns normally with exactly two nodes:
    the file node [a.txt] of size 10 and the directory node [sub] whose
    children are the one file node [b.txt] of size 20; no node at any depth
    is named [node_modules]. *)
Theorem scenario_snapshot (fs : entry) (root dir : segments)
        (entries : list (string * entry)) (l : bool) (x : entry) :
  lookup dir fs = Some (EDir true entries) ->
  Permutation entries (scenario_entries l x) ->
  exists result lg,
    getDirectoryStructure fs root dir = Some (Ok result, lg) /\
    Permutation result [scenario_a root dir; scenario_sub root dir] /\
    List.length result = 2 /\
    mentions "node_modules" result = false.
Proof.
  intros L P.
  assert (exists result lg,
             gds fs root 3 dir = Some (Ok result, lg) /\
             Permutation result [scenario_a root dir; scenario_sub root dir] /\
             List.length result = 2 /\
             mentions "node_modules" result = false) as (result & lg & E & R).
  { rewrite gds_in_correct, L.
    apply Permutation_3 in P.
    destruct P as [P|[P|[P|[P|[P|P]]]]]; subst entries;
      (do 2 eexists; split; [reflexivity|]);
      (split; [first [apply Permutation_refl | apply perm_swap]
              | split; reflexivity]). }
  exists result, lg. split; [|exact R].
  eapply getDirectoryStructure_fuel; eauto.
Qed.

Lemma scenario_snapshot_witness :
  lookup ["proj"] demo_disk = Some (EDir true (scenario_entries true (EFile 5))) /\
  exists result lg,
    getDirectoryStructure demo_disk ["proj"] ["proj"] = Some (Ok result, lg) /\
    Permutation result [scenario_a ["proj"] ["proj"]; scenario_sub ["proj"] ["proj"]] /\
    List.length result = 2 /\
    mentions "node_modules" result = false.
Proof.
  split; [reflexivity|].
  apply (@scenario_snapshot demo_disk ["proj"] ["proj"]
           (scenario_entries true (EFile 5)) true (EFile 5));
    [reflexivity | apply Permutation_refl].
Defined.

(** ** A root that cannot be listed *)

Lemma not_directory_readdir fs dir :
  is_directory_at fs dir = false -> exists e, readdir fs dir = Throw e.
Proof.
  unfold is_directory_at, stat, readdir.
  destruct (lookup dir fs) as [[| [|] entries | |]|]; simpl;
    try discriminate; eauto.
Qed.

(** C6, as the code has it. When [dir] does not exist or is not a
    directory, [getDirectoryStructure(dir)] catches the failure of
    [readdir], writes one line to the console and returns the empty list
    normally; nothing is thrown to the caller. *)
Theorem missing_root_gives_empty (fs : entry) (root dir : segments) :
  is_directory_at fs dir = false ->
  getDirectoryStructure fs root dir = Some (Ok [], ["Error reading directory"]).
Proof.
  intros Hd. destruct (not_directory_readdir _ _ Hd) as (e & R).
  unfold getDirectoryStructure. rewrite gds_cases, R. reflexivity.
Qed.

Lemma missing_root_gives_empty_witness :
  is_directory_at demo_disk ["nowhere"] = false /\
  getDirectoryStructure demo_disk ["nowhere"] ["nowhere"] =
  Some (Ok [], ["Error reading directory"]).
Proof.
  split; [reflexivity|].
  apply (@missing_root_gives_empty demo_disk ["nowhere"] ["nowhere"]).
  reflexivity.
Defined.

(** C6, as the claim states it, fails: on the missing root [/nowhere], and
    on the file [/proj/a.txt], the build does not signal an error; it
    returns the empty list. *)
Lemma missing_root_not_signalled :
  (is_directory_at demo_disk ["nowhere"] = false /\
   forall e lg, getDirectoryStructure demo_disk ["nowhere"] ["nowhere"]
                <> Some (Throw e, lg)) /\
  (is_directory_at demo_disk ["proj"; "a.txt"] = false /\
   forall e lg, getDirectoryStructure demo_disk ["proj"] ["proj"; "a.txt"]
                <> Some (Throw e, lg)).
Proof.
  split; (split; [reflexivity | intros e lg; vm_compute; discriminate]).
Qed.

(** ** The fan-out *)

Lemma find_client_unique done c rest :
  NoDup (map id (done ++ c :: rest)) ->
  find_client (id c) (done ++ c :: rest) = Some c.
Proof.
  unfold find_client. induction done as [|d done IH]; simpl; intros N.
  - rewrite Nat.eqb_refl. reflexivity.
  - inversion N as [|? ? Hnotin N']; subst.
    destruct (Nat.eqb (id d) (id c)) eqn:E; [|auto].
    apply Nat.eqb_eq in E. exfalso. apply Hnotin. rewrite E.
    rewrite map_app. apply in_or_app. right. left. reflexivity.
Qed.

Lemma deliver_absent i msg cs :
  ~ In i (map id cs) -> deliver i msg cs = cs.
Proof.
  unfold deliver. induction cs as [|c cs IH]; simpl; intros N; [reflexivity|].
  destruct (Nat.eqb (id c) i) eqn:E.
  - apply Nat.eqb_eq in E. tauto.
  - rewrite IH; tauto.
Qed.

Lemma deliver_unique done c rest msg :
  NoDup (map id (done ++ c :: rest)) ->
  deliver (id c) msg (done ++ c :: rest) = done ++ received msg c :: rest.
Proof.
  intros N. rewrite map_app in N. simpl in N.
  pose proof (NoDup_remove_2 _ _ _ N) as Hnot.
  unfold deliver. rewrite map_app. simpl. rewrite Nat.eqb_refl.
  fold (deliver (id c) msg done). fold (deliver (id c) msg rest).
  rewrite !deliver_absent; auto; intros Hin; apply Hnot, in_or_app; auto.
Qed.

Lemma hears_id msg c : id (hears msg c) = id c.
Proof. unfold hears. destruct (Nat.eqb (readyState c) OPEN); reflexivity. Qed.

Lemma map_id_hears msg cs : map id (map (hears msg) cs) = map id cs.
Proof. rewrite map_map. apply map_ext, hears_id. Qed.

(** The loop of [broadcastToClients], started with [done] already served. *)
Lemma forEach_send_healthy msg rest :
  forall done s,
    clients s = done ++ rest ->
    healthy (clients s) ->
    forEach rest
      (fun client =>
         if Nat.eqb (readyState client) OPEN
         then ws_send (id client) msg else hret tt) s
    = Some (Ok tt, set_clients (done ++ map (hears msg) rest) s).
Proof.
  induction rest as [|c rest IH]; intros done s E [N F]; simpl.
  - unfold hret. rewrite <- E. destruct s; reflexivity.
  - unfold hbind, hears at 1.
    destruct (Nat.eqb (readyState c) OPEN) eqn:O.
    + unfold ws_send. rewrite E in N |- *.
      rewrite (find_client_unique _ _ _ N).
      rewrite (F c), O, (deliver_unique _ _ _ msg N).
      * rewrite (IH (done ++ [received msg c])); simpl.
        -- rewrite <- app_assoc. reflexivity.
        -- rewrite <- app_assoc. reflexivity.
        -- split; simpl.
           ++ rewrite map_app in *. exact N.
           ++ intros c' Hin Ho. apply in_app_or in Hin as [Hin|[<-|Hin]].
              ** apply F; [rewrite E; apply in_or_app; auto | exact Ho].
              ** simpl. apply F; [rewrite E; apply in_or_app; simpl; auto|].
                 apply Nat.eqb_eq, O.
              ** apply F; [rewrite E; apply in_or_app; simpl; auto | exact Ho].
      * rewrite E. apply in_or_app. simpl. auto.
      * apply Nat.eqb_eq, O.
    + unfold hret. rewrite (IH (done ++ [c])).
      * rewrite <- app_assoc. reflexivity.
      * rewrite <- app_assoc. exact E.
      * split; assumption.
Qed.

(** A broadcast among healthy sockets reaches exactly the open ones and
    returns normally. *)
Lemma broadcast_healthy msg s :
  healthy (clients s) ->
  broadcastToClients msg s =
  Some (Ok tt, set_clients (map (hears msg) (clients s)) s).
Proof.
  intros Hh. unfold broadcastToClients, hbind, gets.
  destruct (Nat.eqb (List.length (clients s)) 0) eqn:E.
  - apply Nat.eqb_eq, length_zero_iff_nil in E. unfold hret. rewrite E.
    destruct s; simpl in *; subst; reflexivity.
  - apply (forEach_send_healthy msg (clients s) [] s eq_refl Hh).
Qed.

(** C3, as the code has it. With three registered sockets of which the
    second is not open, so that nothing can be delivered to it, a broadcast
    delivers the message to the first and the third, returns normally, and
    leaves the registered set as it was: the second socket is still
    registered, untouched. *)
Theorem fanout_skips_unopened (msg : message) (s : Server) (c1 c2 c3 : WebSocket) :
  clients s = [c1; c2; c3] ->
  NoDup [id c1; id c2; id c3] ->
  readyState c1 = OPEN -> sendFails c1 = false ->
  readyState c2 <> OPEN ->
  readyState c3 = OPEN -> sendFails c3 = false ->
  exists s',
    broadcastToClients msg s = Some (Ok tt, s') /\
    clients s' = [received msg c1; c2; received msg c3] /\
    In c2 (clients s').
Proof.
  intros E N O1 F1 O2 O3 F3.
  assert (Hh : healthy (clients s)).
  { rewrite E. split; [exact N|].
    intros c [<-|[<-|[<-|[]]]] Ho; auto. contradiction. }
  rewrite (broadcast_healthy msg s Hh), E.
  eexists. split; [reflexivity|]. simpl. unfold hears.
  rewrite O1, O3. apply Nat.eqb_neq in O2. rewrite O2. simpl. auto.
Qed.

Lemma fanout_skips_unopened_witness :
  exists s',
    broadcastToClients (MsgFileChange "a.txt")
                       (demo_server [client1; client2_closed; client3])
    = Some (Ok tt, s') /\
    clients s' = [received (MsgFileChange "a.txt") client1; client2_closed;
                  received (MsgFileChange "a.txt") client3] /\
    In client2_closed (clients s').
Proof.
  apply (@fanout_skips_unopened (MsgFileChange "a.txt")
           (demo_server [client1; client2_closed; client3])
           client1 client2_closed client3);
    try reflexivity.
  - repeat constructor; simpl; intuition discriminate.
  - discriminate.
Defined.

(** C3, as the claim states it, fails. When [send] raises on the second of
    three open sockets, the exception leaves [broadcastToClients], the
    third socket receives nothing, and the second is still registered; when
    the second socket is closed instead, the other two are served, and the
    second is still registered. *)
Lemma fanout_not_isolated :
  broadcastToClients (MsgFileChange "a.txt")
                     (demo_server [client1; client2_raising; client3])
  = Some (Throw SendError,
          demo_server [received (MsgFileChange "a.txt") client1;
                       client2_raising; client3]) /\
  broadcastToClients (MsgFileChange "a.txt")
                     (demo_server [client1; client2_closed; client3])
  = Some (Ok tt,
          demo_server [received (MsgFileChange "a.txt") client1;
                       client2_closed;
                       received (MsgFileChange "a.txt") client3]).
Proof. split; reflexivity. Qed.

(** ** Errors of the watcher *)

(** C8, as the code has it. An error raised by the watcher is written to
    the console and nothing else happens: no socket receives anything, and
    the rest of the state is as before. *)
Theorem watch_error_only_logged (err : error) (s : Server) :
  onWatchError err s =
  Some (Ok tt,
        set_console (console s ++ ["File watcher error: " ++ errorMessage err]%string) s)
  /\ option_map clients (step (WatchError err) s) = Some (clients s).
Proof. split; reflexivity. Qed.

(** C8, as the claim states it, fails: with one open socket connected, an
    [EACCES] raised by the watcher leaves that socket's inbox empty. *)
Lemma watch_error_not_surfaced :
  option_map (fun s' => map inbox (clients s'))
             (step (WatchError EACCES) (demo_server [client1]))
  = Some [[]].
Proof. reflexivity. Qed.

(** ** Rejected root switches *)

(** The answer to a request that names no directory. *)
Lemma setProject_invalid (body_path : option string) (s : Server) :
  valid_root body_path s = false ->
  setProject body_path s =
  Some (Ok (status_500 (rejection body_path s)),
        set_console (console s ++ ["Setting project path"; "Error setting project"]) s).
Proof.
  unfold valid_root, rejection, is_directory_at, setProject.
  unfold htry, hbind, gets, of_outcome, console_log, modify. simpl.
  destruct (resolve (cwd s) body_path) as [r|e]; simpl.
  - destruct (stat (disk s) r) as [stats|e]; simpl.
    + intros ->. simpl. rewrite <- app_assoc. reflexivity.
    + intros _. rewrite <- app_assoc. reflexivity.
  - intros _. rewrite <- app_assoc. reflexivity.
Qed.

(** C7. A [set-project] request whose path does not exist or is not a
    directory is answered with status 500 and the error's message, and
    leaves the state as it was: the current root, the recent list, the
    watcher and the watcher objects are unchanged, and so are the sockets
    and the disk; only the console has two more lines. *)
Theorem invalid_root_rejected (body_path : option string) (s : Server) :
  valid_root body_path s = false ->
  exists s',
    setProject body_path s = Some (Ok (status_500 (rejection body_path s)), s') /\
    projectRoot s' = projectRoot s /\
    recentProjects s' = recentProjects s /\
    watcher s' = watcher s /\
    watchers s' = watchers s /\
    watchLog s' = watchLog s /\
    clients s' = clients s /\
    disk s' = disk s.
Proof.
  intros Hv. rewrite (setProject_invalid _ _ Hv).
  eexists. split; [reflexivity|]. repeat split.
Qed.

Lemma invalid_root_rejected_witness :
  valid_root (Some "/proj/a.txt") (demo_server [client1]) = false /\
  exists s',
    setProject (Some "/proj/a.txt") (demo_server [client1])
    = Some (Ok (status_500 (rejection (Some "/proj/a.txt") (demo_server [client1]))),
            s') /\
    projectRoot s' = projectRoot (demo_server [client1]) /\
    recentProjects s' = recentProjects (demo_server [client1]) /\
    watcher s' = watcher (demo_server [client1]) /\
    watchers s' = watchers (demo_server [client1]) /\
    watchLog s' = watchLog (demo_server [client1]) /\
    clients s' = clients (demo_server [client1]) /\
    disk s' = disk (demo_server [client1]).
Proof.
  split; [reflexivity|].
  apply (@invalid_root_rejected (Some "/proj/a.txt") (demo_server [client1])).
  reflexivity.
Defined.

(** ** Rules for [wp] *)

Section WpRules.
Context {A B : Type}.
Implicit Types (Q : outcome A -> Server -> Prop) (s : Server).

Lemma wp_ret (a : A) Q s : Q (Ok a) s -> wp (hret a) Q s.
Proof. intros HQ. exists (Ok a), s. auto. Qed.

Lemma wp_throw (e : error) Q s : Q (Throw e) s -> wp (hthrow e) Q s.
Proof. intros HQ. exists (Throw e), s. auto. Qed.

Lemma wp_gets (f : Server -> A) Q s : Q (Ok (f s)) s -> wp (gets f) Q s.
Proof. intros HQ. exists (Ok (f s)), s. auto. Qed.

Lemma wp_of_outcome (o : outcome A) Q s : Q o s -> wp (of_outcome o) Q s.
Proof. intros HQ. exists o, s. auto. Qed.

Lemma wp_mono (m : H A) Q Q' s :
  wp m Q s -> (forall o s', Q o s' -> Q' o s') -> wp m Q' s.
Proof. intros (o & s' & E & HQ) Himp. exists o, s'. auto. Qed.

Lemma wp_bind (m : H A) (f : A -> H B) (R : outcome B -> Server -> Prop) s :
  wp m (fun o s1 => match o with
                    | Ok a => wp (f a) R s1
                    | Throw e => R (Throw e) s1
                    end) s ->
  wp (hbind m f) R s.
Proof.
  intros ([a|e] & s1 & E & HQ); unfold wp, hbind; rewrite E.
  - exact HQ.
  - eauto.
Qed.

Lemma wp_try (body : H A) (handler : error -> H A) Q s :
  wp body (fun o s1 => match o with
                       | Ok a => Q (Ok a) s1
                       | Throw e => wp (handler e) Q s1
                       end) s ->
  wp (htry body handler) Q s.
Proof.
  intros ([a|e] & s1 & E & HQ); unfold wp, htry; rewrite E.
  - eauto.
  - exact HQ.
Qed.

Lemma wp_result (m : H A) Q s o s' :
  wp m Q s -> m s = Some (o, s') -> Q o s'.
Proof. intros (o' & s'' & E & HQ) E'. rewrite E in E'. congruence. Qed.
End WpRules.

Lemma wp_modify (f : Server -> Server) (Q : outcome unit -> Server -> Prop) s :
  Q (Ok tt) (f s) -> wp (modify f) Q s.
Proof. intros HQ. exists (Ok tt), (f s). auto. Qed.

Lemma wp_console_log line (Q : outcome unit -> Server -> Prop) s :
  Q (Ok tt) (set_console (console s ++ [line]) s) -> wp (console_log line) Q s.
Proof. apply wp_modify. Qed.

(** The builder always finishes normally; all it leaves behind is console
    output. *)
Lemma wp_run_builder d root dir (Q : outcome (list node) -> Server -> Prop) s :
  (forall structure lg,
      getDirectoryStructure d root dir = Some (Ok structure, lg) ->
      Q (Ok structure) (set_console (console s ++ lg) s)) ->
  wp (run (getDirectoryStructure d root dir)) Q s.
Proof.
  intros HQ. destruct (getDirectoryStructure_total d root dir) as (r & lg & E).
  unfold wp, run. rewrite E. eauto.
Qed.

(** ** Frames and growth *)

Lemma framed_refl s : framed s s.
Proof. repeat split. Qed.

Lemma framed_trans s1 s2 s3 : framed s1 s2 -> framed s2 s3 -> framed s1 s3.
Proof. unfold framed. intuition congruence. Qed.

Lemma framed_console s lines : framed s (set_console lines s).
Proof. repeat split. Qed.

Lemma framed_clients s cs : framed s (set_clients cs s).
Proof. repeat split. Qed.

Lemma grown_refl P c : grown P c c.
Proof. repeat split. exists []. rewrite app_nil_r. auto. Qed.

Lemma grows_refl P cs : grows P cs cs.
Proof. induction cs; constructor; auto using grown_refl. Qed.

Lemma grown_trans P c1 c2 c3 : grown P c1 c2 -> grown P c2 c3 -> grown P c1 c3.
Proof.
  intros (I1 & R1 & F1 & x1 & E1 & P1) (I2 & R2 & F2 & x2 & E2 & P2).
  repeat split; try congruence.
  exists (x1 ++ x2). rewrite E2, E1, app_assoc. split; [reflexivity|].
  apply Forall_app. auto.
Qed.

Lemma grows_trans P cs1 cs2 cs3 :
  grows P cs1 cs2 -> grows P cs2 cs3 -> grows P cs1 cs3.
Proof.
  unfold grows. intros G. revert cs3.
  induction G as [|c1 c2 l1 l2 Hc G IH]; intros cs3 G'; inversion G'; subst;
    constructor; [eapply grown_trans; eauto | apply IH; assumption].
Qed.

Lemma grows_deliver (P : message -> Prop) i msg cs :
  P msg -> grows P cs (deliver i msg cs).
Proof.
  intros HP. unfold deliver. induction cs as [|c cs IH]; simpl; constructor; auto.
  destruct (Nat.eqb (id c) i); [|apply grown_refl].
  repeat split. exists [msg]. auto.
Qed.

Lemma sends_refl P s : sends P s s.
Proof. split; [apply framed_refl | apply grows_refl]. Qed.

Lemma sends_trans P s1 s2 s3 :
  sends P s1 s2 -> sends P s2 s3 -> sends P s1 s3.
Proof.
  intros [F G] [F' G']. split; eauto using framed_trans, grows_trans.
Qed.

Lemma sends_log P s s' lines :
  sends P s s' -> sends P s (set_console lines s').
Proof.
  intros [F G]. split; [|exact G].
  eapply framed_trans; [exact F | apply framed_console].
Qed.

Lemma ws_send_sends (P : message -> Prop) i msg s :
  P msg -> wp (ws_send i msg) (sent P s) s.
Proof.
  intros HP. unfold wp, ws_send, sent.
  destruct (find_client i (clients s)) as [c|];
    [|do 2 eexists; split; [reflexivity | apply sends_refl]].
  destruct (sendFails c);
    [do 2 eexists; split; [reflexivity | apply sends_refl]|].
  destruct (Nat.eqb (readyState c) OPEN);
    do 2 eexists; (split; [reflexivity|]); [|apply sends_refl].
  split; [apply framed_clients | simpl; apply grows_deliver, HP].
Qed.

Lemma forEach_sends (P : message -> Prop) (f : WebSocket -> H unit) cs :
  (forall c s, wp (f c) (sent P s) s) ->
  forall s, wp (forEach cs f) (sent P s) s.
Proof.
  intros Hf. induction cs as [|c cs IH]; intros s; simpl.
  - apply wp_ret, sends_refl.
  - apply wp_bind. eapply wp_mono; [apply Hf|].
    intros [[]|e] s1 Hs; [|exact Hs].
    eapply wp_mono; [apply IH|].
    intros o s2 Hs2. eapply sends_trans; eauto.
Qed.

Lemma broadcast_sends (P : message -> Prop) msg s :
  P msg -> wp (broadcastToClients msg) (sent P s) s.
Proof.
  intros HP. unfold broadcastToClients. apply wp_bind, wp_gets.
  destruct (Nat.eqb (List.length (clients s)) 0).
  - apply wp_ret, sends_refl.
  - apply forEach_sends. intros c s0.
    destruct (Nat.eqb (readyState c) OPEN).
    + apply ws_send_sends, HP.
    + apply wp_ret, sends_refl.
Qed.

(** [currentStructure] finishes normally with a message that describes the
    current root, and only writes to the console. *)
Lemma currentStructure_spec s :
  wp currentStructure
     (fun o s' => framed s s' /\ clients s' = clients s /\
                  exists msg, o = Ok msg /\ describes (disk s) (projectRoot s) msg) s.
Proof.
  unfold currentStructure.
  apply wp_bind, wp_gets. apply wp_bind, wp_gets.
  apply wp_bind, wp_run_builder. intros structure lg E.
  apply wp_bind, wp_gets. apply wp_ret.
  split; [apply framed_console|]. split; [reflexivity|].
  eexists. split; [reflexivity|]. simpl. eauto.
Qed.

Lemma wp_watch root (Q : outcome nat -> Server -> Prop) s :
  (forall stats, stat (disk s) root = Ok stats ->
     Q (Ok (List.length (watchers s)))
       (set_watchers (watchers s ++ [mkFSWatcher root true])
                     (watchLog s ++ [Started (List.length (watchers s))]) s)) ->
  (forall e, stat (disk s) root = Throw e -> Q (Throw e) s) ->
  wp (watch root) Q s.
Proof.
  intros Hok Hthrow. unfold wp, watch.
  destruct (stat (disk s) root) as [stats|e]; eauto.
Qed.

Lemma wp_writeFile p data (Q : outcome unit -> Server -> Prop) s :
  (forall d, Q (Ok tt) (set_disk d s)) ->
  (forall e, Q (Throw e) s) ->
  wp (writeFile p data) Q s.
Proof.
  intros Hok Hthrow. unfold wp, writeFile.
  destruct (write_at p _ (Some (disk s))); eauto.
Qed.

Ltac state_simpl :=
  cbn [disk cwd projectRoot watcher watchers watchLog recentProjects clients
       console set_disk set_projectRoot set_watcher set_watchers
       set_recentProjects set_clients set_console] in *.

(** One step through a handler; it stops at the operations that have a
    specification of their own. *)
Ltac wp_step :=
  lazymatch goal with
  | |- wp currentStructure _ _ => fail "use currentStructure_spec"
  | |- wp (broadcastToClients _) _ _ => fail "use broadcast_sends"
  | |- wp (ws_send _ _) _ _ => fail "use ws_send_sends"
  | |- wp (hbind _ _) _ _ => apply wp_bind
  | |- wp (htry _ _) _ _ => apply wp_try
  | |- wp (hret _) _ _ => apply wp_ret
  | |- wp (hthrow _) _ _ => apply wp_throw
  | |- wp (gets _) _ _ => apply wp_gets
  | |- wp (modify _) _ _ => apply wp_modify
  | |- wp (console_log _) _ _ => apply wp_console_log
  | |- wp (of_outcome _) _ _ => apply wp_of_outcome
  | |- wp (close _) _ _ => unfold close
  | |- wp setupWatcher _ _ => unfold setupWatcher
  | |- wp (watch _) _ _ => apply wp_watch; [intros ? ?|intros ? ?]
  | |- wp (writeFile _ _) _ _ => apply wp_writeFile; intros ?
  | |- wp (if ?b then _ else _) _ _ => destruct b eqn:?
  | |- wp (match ?x with _ => _ end) _ _ => destruct x eqn:?
  | |- match ?o with Ok _ => _ | Throw _ => _ end => destruct o eqn:?
  end; cbv beta iota.

(** The announcement that ends a switch or follows a change on disk. *)
Lemma announce_spec s :
  wp (msg <~ currentStructure ;; broadcastToClients msg)
     (sent (describes (disk s) (projectRoot s)) s) s.
Proof.
  apply wp_bind. eapply wp_mono; [apply currentStructure_spec|].
  intros o s1 (F & C & msg & -> & D).
  eapply wp_mono; [apply (broadcast_sends (describes (disk s) (projectRoot s))), D|].
  intros o s2 [F2 G2]. split; [eapply framed_trans; eauto|].
  rewrite <- C. exact G2.
Qed.

(** The reply to one socket: on connection and on [getStructure]. *)
Lemma reply_spec i s :
  wp (msg <~ currentStructure ;; ws_send i msg)
     (sent (describes (disk s) (projectRoot s)) s) s.
Proof.
  apply wp_bind. eapply wp_mono; [apply currentStructure_spec|].
  intros o s1 (F & C & msg & -> & D).
  eapply wp_mono; [apply (ws_send_sends (describes (disk s) (projectRoot s))), D|].
  intros o s2 [F2 G2]. split; [eapply framed_trans; eauto|].
  rewrite <- C. exact G2.
Qed.

Lemma sends_framed s s1 s' :
  framed s s1 ->
  sends (describes (disk s1) (projectRoot s1)) s1 s' ->
  sends (describes (disk s) (projectRoot s)) s1 s'.
Proof.
  intros (D & _ & R & _) S. rewrite D, R in S. exact S.
Qed.

Lemma sends_console P s lines s' :
  sends P (set_console lines s) s' -> sends P s s'.
Proof.
  intros [F G]. split; [|exact G].
  eapply framed_trans; [apply framed_console | exact F].
Qed.

Lemma onWatchChange_spec filename s :
  wp (onWatchChange filename) (sent (describes (disk s) (projectRoot s)) s) s.
Proof.
  unfold onWatchChange.
  destruct filename as [f|]; [|apply wp_ret, sends_refl].
  destruct (f =? "")%string; [apply wp_ret, sends_refl|].
  destruct (includes f "node_modules" || includes f ".git");
    [apply wp_ret, sends_refl|].
  apply wp_bind, wp_console_log. apply wp_try.
  apply wp_bind.
  eapply wp_mono;
    [apply (broadcast_sends (describes (disk s) (projectRoot s))); exact I|].
  intros [[]|e] s2 S2; unfold sent in *; apply sends_console in S2.
  - eapply wp_mono; [apply announce_spec|].
    intros o s3 S3. unfold sent in *. apply (sends_framed (proj1 S2)) in S3.
    pose proof (sends_trans S2 S3) as S.
    destruct o as [[]|e]; [exact S|].
    apply wp_console_log, sends_log, S.
  - apply wp_console_log, sends_log, S2.
Qed.

Lemma onMessage_spec i m s :
  wp (onMessage i m) (sent (describes (disk s) (projectRoot s)) s) s.
Proof.
  unfold onMessage. apply wp_try.
  assert (Hfail : forall s0,
             sends (describes (disk s) (projectRoot s)) s s0 ->
             wp (console_log "Error handling message" ;;>
                 ws_send i (MsgError "Failed to process request"))
                (sent (describes (disk s) (projectRoot s)) s) s0).
  { intros s0 S0. apply wp_bind, wp_console_log.
    eapply wp_mono;
      [apply (ws_send_sends (describes (disk s) (projectRoot s))); exact I|].
    intros o s1 S1. unfold sent in *. apply sends_console in S1.
    exact (sends_trans S0 S1). }
  apply wp_bind.
  destruct m as [| |ty].
  - apply wp_throw. cbv beta iota. apply Hfail, sends_refl.
  - apply wp_throw. cbv beta iota. apply Hfail, sends_refl.
  - apply wp_ret. destruct ty as [ty|]; [|apply wp_ret, sends_refl].
    destruct (ty =? "getStructure")%string; [|apply wp_ret, sends_refl].
    eapply wp_mono; [apply reply_spec|].
    intros [[]|e] s1 S1; unfold sent in *; [exact S1 | apply Hfail, S1].
Qed.

Lemma onConnection_spec ws s :
  wp (onConnection ws)
     (fun o s' => framed s s' /\
                  grows (describes (disk s) (projectRoot s))
                        (clients s ++ [ws]) (clients s')) s.
Proof.
  unfold onConnection.
  apply wp_bind, wp_modify. apply wp_bind, wp_console_log.
  set (s1 := set_console _ _).
  assert (F1 : framed s s1) by (repeat split).
  change (clients s ++ [ws]) with (clients s1).
  assert (Hend : forall s',
             sends (describes (disk s1) (projectRoot s1)) s1 s' ->
             framed s s' /\
             grows (describes (disk s) (projectRoot s)) (clients s1) (clients s')).
  { intros s' S. apply (sends_framed F1) in S. destruct S as [F G].
    split; [exact (framed_trans F1 F) | exact G]. }
  apply wp_try. eapply wp_mono; [apply reply_spec|].
  intros [[]|e] s2 S2; unfold sent in *; [apply Hend, S2|].
  apply wp_bind, wp_console_log.
  eapply wp_mono;
    [apply (ws_send_sends (describes (disk s1) (projectRoot s1))); exact I|].
  intros o s3 S3. unfold sent in *. apply Hend.
  apply sends_console in S3. exact (sends_trans S2 S3).
Qed.

Lemma length_deactivate h ws : List.length (deactivate h ws) = List.length ws.
Proof.
  revert h; induction ws as [|w ws IH]; intros [|h]; simpl; auto.
Qed.

(** [/api/set-project] always answers. Whatever it sent describes the root
    it left behind; when it answered with success, the path was a
    directory and the state was switched to it. *)
Lemma setProject_spec p s :
  wp (setProject p)
     (fun o s' =>
        grows (describes (disk s') (projectRoot s')) (clients s) (clients s') /\
        (exists resp, o = Ok resp) /\
        (o = Ok json_success ->
         exists r, resolve (cwd s) p = Ok r /\
                   is_directory_at (disk s) r = true /\
                   switched r s s')) s.
Proof.
  unfold setProject.
  repeat (wp_step; state_simpl).
  all: try (split; [apply grows_refl | split; [eauto | discriminate]]).
  all: (eapply wp_mono; [apply currentStructure_spec|]);
    intros o s1 (F & C & msg & -> & D);
    apply wp_bind; (eapply wp_mono; [apply broadcast_sends, D|]);
    intros [[]|?] s2 [F2 G2];
    pose proof (framed_trans F F2) as (D1 & C1 & R1 & W1 & Ws1 & L1 & Rc1);
    rewrite C in G2; state_simpl; rewrite <- D1, <- R1 in G2.
  all: repeat (wp_step; state_simpl).
  all: split; [exact G2 | split; [eauto | try discriminate]].
  all: intros _; eexists; split; [reflexivity|]; split;
    [unfold is_directory_at;
     match goal with
     | H : stat (disk _) _ = Ok ?st, H' : negb (isDirectory ?st) = false |- _ =>
         rewrite H; apply negb_false_iff in H'; exact H'
     end
    |].
  all: unfold switched, recent_after;
    rewrite ?length_deactivate in *;
    match goal with H : Nat.ltb 10 _ = _ |- _ => rewrite H end;
    match goal with
    | H : watcher ?x = _ |- context [match watcher ?x with _ => _ end] =>
        rewrite H
    end;
    rewrite <- ?app_assoc in *; simpl app in *; auto 10.
Qed.

Lemma setProject_success p s s' :
  setProject p s = Some (Ok json_success, s') ->
  exists r, resolve (cwd s) p = Ok r /\
            is_directory_at (disk s) r = true /\
            switched r s s'.
Proof.
  intros E. destruct (wp_result (setProject_spec p s) E) as (_ & _ & Hs). auto.
Qed.

(** ** The recent list *)

Lemma Set_has_In x l : Set_has x l = true <-> In x l.
Proof.
  unfold Set_has. rewrite existsb_exists. split.
  - intros (y & Hin & E). apply String.eqb_eq in E. subst. exact Hin.
  - intros Hin. exists x. split; [exact Hin | apply String.eqb_refl].
Qed.

Lemma Set_delete_absent x l : ~ In x l -> Set_delete x l = l.
Proof.
  unfold Set_delete. induction l as [|y l IH]; simpl; intros N; [reflexivity|].
  destruct (String.eqb x y) eqn:E.
  - apply String.eqb_eq in E. subst. tauto.
  - simpl. rewrite IH; tauto.
Qed.

(** The list after a selection: an existing path stays where it is, a new
    one goes to the end, and the first entry leaves when the list was full. *)
Lemma recent_after_cases x l :
  NoDup l -> List.length l <= 10 ->
  recent_after x l =
  if Set_has x l then l
  else if Nat.ltb (List.length l) 10 then l ++ [x]
       else tl l ++ [x].
Proof.
  intros N Hlen. unfold recent_after, Set_add.
  destruct (Set_has x l) eqn:Hx.
  - destruct (Nat.ltb_spec 10 (List.length l)); [lia | reflexivity].
  - rewrite length_app. simpl.
    destruct (Nat.ltb_spec (List.length l) 10);
      destruct (Nat.ltb_spec 10 (List.length l + 1)); try lia; [reflexivity|].
    destruct l as [|first rest]; [simpl in *; lia|].
    simpl. unfold Set_delete. simpl. rewrite String.eqb_refl. simpl.
    fold (Set_delete first (rest ++ [x])).
    apply Set_delete_absent. intros Hin. apply in_app_or in Hin as [Hin|[->|[]]].
    + inversion N; tauto.
    + assert (Set_has first (first :: rest) = true)
        by (apply Set_has_In; simpl; auto).
      congruence.
Qed.

Lemma count_occ_once (x : string) l :
  NoDup l -> In x l -> count_occ string_dec l x = 1.
Proof.
  intros N Hin. pose proof (proj1 (NoDup_count_occ string_dec l) N x).
  apply (count_occ_In string_dec) in Hin. lia.
Qed.

Lemma recent_after_sound x l :
  NoDup l -> List.length l <= 10 ->
  NoDup (recent_after x l) /\ In x (recent_after x l) /\
  List.length (recent_after x l) <= 10.
Proof.
  intros N Hlen. rewrite (recent_after_cases x N Hlen).
  destruct (Set_has x l) eqn:Hx.
  - apply Set_has_In in Hx. auto.
  - assert (Hnot : ~ In x l).
    { intros Hin. apply Set_has_In in Hin. congruence. }
    destruct (Nat.ltb_spec (List.length l) 10).
    + repeat split.
      * apply NoDup_app; auto.
        -- repeat constructor; simpl; tauto.
        -- intros y Hy [<-|[]]. tauto.
      * apply in_or_app. simpl. auto.
      * rewrite length_app. simpl. lia.
    + destruct l as [|first rest]; [simpl in *; lia|]. simpl in *.
      inversion N; subst. repeat split.
      * apply NoDup_app; auto.
        -- repeat constructor; simpl; tauto.
        -- intros y Hy [<-|[]]. tauto.
      * apply in_or_app. simpl. auto.
      * rewrite length_app. simpl. lia.
Qed.

(** C5, as the code has it. After a successful switch the recent list holds
    the selected path exactly once, has no duplicates and at most 10
    entries; it is kept in insertion order, oldest first: a path already in
    the list stays where it is, a new path is appended at the end, and when
    the list was full its first, oldest entry is dropped. *)
Theorem recent_list_after_switch (p : option string) (s s' : Server) :
  setProject p s = Some (Ok json_success, s') ->
  NoDup (recentProjects s) ->
  List.length (recentProjects s) <= 10 ->
  let selected := path_string (projectRoot s') in
  count_occ string_dec (recentProjects s') selected = 1 /\
  NoDup (recentProjects s') /\
  List.length (recentProjects s') <= 10 /\
  recentProjects s' =
    if Set_has selected (recentProjects s) then recentProjects s
    else if Nat.ltb (List.length (recentProjects s)) 10
         then recentProjects s ++ [selected]
         else tl (recentProjects s) ++ [selected].
Proof.
  intros E N Hlen.
  destruct (setProject_success _ _ E) as (r & _ & _ & HR & _ & HS & _).
  rewrite HR, HS. cbv zeta.
  destruct (recent_after_sound (path_string r) N Hlen) as (N' & Hin & Hlen').
  repeat split; auto using count_occ_once, recent_after_cases.
Qed.

Lemma recent_list_after_switch_witness :
  let s := demo_server [] in
  let s' := after_switches [Some "/proj"] s in
  setProject (Some "/proj") s = Some (Ok json_success, s') /\
  count_occ string_dec (recentProjects s') (path_string (projectRoot s')) = 1 /\
  NoDup (recentProjects s') /\
  List.length (recentProjects s') <= 10 /\
  recentProjects s' =
    if Set_has (path_string (projectRoot s')) (recentProjects s)
    then recentProjects s
    else if Nat.ltb (List.length (recentProjects s)) 10
         then recentProjects s ++ [path_string (projectRoot s')]
         else tl (recentProjects s) ++ [path_string (projectRoot s')].
Proof.
  cbv zeta. split; [vm_compute; reflexivity|].
  apply (@recent_list_after_switch (Some "/proj") (demo_server [])
           (after_switches [Some "/proj"] (demo_server []))).
  - vm_compute. reflexivity.
  - simpl. constructor.
  - simpl. lia.
Defined.

(** C5, as the claim states it, fails. After the successful switches to
    [/proj] and then [/other] the list is [/proj; /other], oldest first; a
    further successful switch to [/other], already in the list, leaves it
    there, and the head of the list is not the path just selected. *)
Lemma recent_list_not_most_recent_first :
  let s := after_switches [Some "/proj"; Some "/other"] (demo_server []) in
  recentProjects s = ["/proj"; "/other"] /\
  exists s',
    setProject (Some "/other") s = Some (Ok json_success, s') /\
    projectRoot s' = ["other"] /\
    recentProjects s' = ["/proj"; "/other"] /\
    hd_error (recentProjects s') <> Some (path_string (projectRoot s')).
Proof.
  cbv zeta. split; [vm_compute; reflexivity|].
  eexists. split; [vm_compute; reflexivity|].
  split; [reflexivity|]. split; [reflexivity|]. vm_compute. discriminate.
Qed.

(** ** One watcher at a time *)

Lemma actives_from_app i ws w :
  actives_from i (ws ++ [w]) =
  actives_from i ws ++ (if active w then [i + List.length ws] else []).
Proof.
  revert i; induction ws as [|w0 ws IH]; intros i; simpl.
  - rewrite Nat.add_0_r. destruct (active w); reflexivity.
  - rewrite IH, Nat.add_succ_comm. destruct (active w0); reflexivity.
Qed.

Lemma actives_from_ge i ws h : In h (actives_from i ws) -> i <= h.
Proof.
  revert i; induction ws as [|w ws IH]; intros i; simpl; [tauto|].
  destruct (active w); simpl; [intros [<-|Hin]|intros Hin];
    try lia; apply IH in Hin; lia.
Qed.

(** Closing [h] takes [h], and nothing else, out of the active watchers. *)
Lemma actives_from_deactivate i h ws :
  actives_from i (deactivate h ws) =
  filter (fun k => negb (Nat.eqb k (i + h))) (actives_from i ws).
Proof.
  revert i h; induction ws as [|w ws IH]; intros i [|h]; simpl; auto.
  - rewrite Nat.add_0_r.
    assert (Hrest : filter (fun k => negb (Nat.eqb k i)) (actives_from (S i) ws)
                    = actives_from (S i) ws).
    { apply forallb_filter_id, forallb_forall. intros k Hk.
      apply actives_from_ge in Hk. apply negb_true_iff, Nat.eqb_neq. lia. }
    destruct (active w); simpl; rewrite ?Nat.eqb_refl; simpl; auto.
  - rewrite IH, <- Nat.add_succ_comm.
    destruct (active w); simpl; [|reflexivity].
    destruct (Nat.eqb_spec i (S (i + h))); [lia | reflexivity].
Qed.

Lemma filter_all_equal h l :
  forallb (fun k => Nat.eqb k h) l = true ->
  filter (fun k => negb (Nat.eqb k h)) l = [].
Proof.
  induction l as [|k l IH]; simpl; [reflexivity|].
  intros Hall. apply andb_true_iff in Hall as [E Hall].
  rewrite E. simpl. auto.
Qed.

Lemma forallb_false_nil {A} (l : list A) :
  forallb (fun _ => false) l = true -> l = [].
Proof. destruct l; simpl; [reflexivity | discriminate]. Qed.

(** One successful switch: the watcher it started is the only active one. *)
Lemma switched_single_watch r s s' :
  only_current_active s = true ->
  switched r s s' ->
  watcher s' = Some (List.length (watchers s)) /\
  List.length (watchers s') = S (List.length (watchers s)) /\
  actives s' = [List.length (watchers s)] /\
  only_current_active s' = true.
Proof.
  unfold only_current_active, actives.
  intros Inv (_ & _ & _ & W & Ws & _).
  assert (A' : actives_from 0 (watchers s') = [List.length (watchers s)]).
  { rewrite Ws, actives_from_app. simpl.
    destruct (watcher s) as [h|].
    - rewrite actives_from_deactivate, length_deactivate. simpl.
      rewrite (filter_all_equal _ _ Inv). reflexivity.
    - rewrite (forallb_false_nil _ Inv). reflexivity. }
  repeat split; auto.
  - rewrite Ws, length_app. simpl.
    destruct (watcher s); rewrite ?length_deactivate; lia.
  - rewrite A', W. simpl. rewrite Nat.eqb_refl. reflexivity.
Qed.

Lemma closed_before_started_switch cur n rest :
  closed_before_started cur
    (match cur with Some h => [Closed h] | None => [] end ++ [Started n] ++ rest)
  = closed_before_started (Some n) rest.
Proof.
  destruct cur as [h|]; simpl; [rewrite Nat.eqb_refl|]; reflexivity.
Qed.

Lemma switchRoots_single_watch paths :
  forall s s',
    paths <> [] ->
    only_current_active s = true ->
    switchRoots paths s = Some s' ->
    exists h ops,
      watcher s' = Some h /\
      S h = List.length (watchers s') /\
      actives s' = [h] /\
      watchLog s' = watchLog s ++ ops /\
      closed_before_started (watcher s) ops = true.
Proof.
  induction paths as [|p rest IH]; intros s s' Hne Inv E; [congruence|].
  simpl in E.
  destruct (setProject p s) as [[[[|msg]|e] s1]|] eqn:E1; try discriminate.
  destruct (setProject_success _ _ E1) as (r & _ & _ & Sw).
  destruct (switched_single_watch Inv Sw) as (W1 & L1 & A1 & Inv1).
  destruct Sw as (_ & _ & _ & _ & _ & Lg).
  destruct rest as [|p' rest'].
  - injection E as <-.
    exists (List.length (watchers s)), 
      (match watcher s with Some h => [Closed h] | None => [] end
       ++ [Started (List.length (watchers s))]).
    repeat split; auto.
    pose proof (closed_before_started_switch (watcher s)
                  (List.length (watchers s)) []) as C.
    exact C.
  - destruct (IH s1 s' ltac:(discriminate) Inv1 E) as (h & ops & W & L & A & Lg' & C).
    exists h,
      ((match watcher s with Some h => [Closed h] | None => [] end
        ++ [Started (List.length (watchers s))]) ++ ops).
    repeat split; auto.
    + rewrite Lg', Lg, <- !app_assoc. reflexivity.
    + rewrite <- app_assoc.
      rewrite (closed_before_started_switch (watcher s)
                 (List.length (watchers s)) ops).
      rewrite <- W1. exact C.
Qed.

Lemma active_in_actives ws :
  forall i k w,
    nth_error ws k = Some w -> active w = true -> In (i + k) (actives_from i ws).
Proof.
  induction ws as [|w0 ws IH]; intros i [|k] w E Ha; simpl in *; try discriminate.
  - injection E as ->. rewrite Ha, Nat.add_0_r. simpl. auto.
  - rewrite <- Nat.add_succ_comm.
    destruct (active w0); [right|]; eapply IH; eauto.
Qed.

(** C4. After [N >= 1] root switches that were all answered with success,
    starting from a state in which no watcher but the current one is
    active: exactly one watcher is active, it is the one created last and
    the one [watcher] refers to, and every watcher created before it is
    inactive; the calls on the watch API came in pairs, the close of the
    current watcher first and the start of the next one right after it. *)
Theorem one_active_watch_after_switches
        (paths : list (option string)) (s s' : Server) :
  1 <= List.length paths ->
  only_current_active s = true ->
  switchRoots paths s = Some s' ->
  exists h ops,
    watcher s' = Some h /\
    S h = List.length (watchers s') /\
    actives s' = [h] /\
    (forall k w, nth_error (watchers s') k = Some w -> active w = true -> k = h) /\
    watchLog s' = watchLog s ++ ops /\
    closed_before_started (watcher s) ops = true.
Proof.
  intros Hn Inv E.
  assert (Hne : paths <> []) by (destruct paths; simpl in Hn; [lia | discriminate]).
  destruct (@switchRoots_single_watch paths s s' Hne Inv E) as (h & ops & W & L & A & Lg & C).
  exists h, ops. repeat split; auto.
  intros k w Hk Ha.
  pose proof (active_in_actives (watchers s') 0 k Hk Ha) as Hin.
  fold (actives s') in Hin. rewrite A in Hin. simpl in Hin.
  destruct Hin as [<-|[]]. reflexivity.
Qed.

Lemma one_active_watch_after_switches_witness :
  let paths := [Some "/proj"; Some "/other"; Some "/proj"] in
  let s := demo_server [] in
  let s' := after_switches paths s in
  switchRoots paths s = Some s' /\
  exists h ops,
    watcher s' = Some h /\
    S h = List.length (watchers s') /\
    actives s' = [h] /\
    (forall k w, nth_error (watchers s') k = Some w -> active w = true -> k = h) /\
    watchLog s' = watchLog s ++ ops /\
    closed_before_started (watcher s) ops = true.
Proof.
  cbv zeta. split; [vm_compute; reflexivity|].
  apply (@one_active_watch_after_switches
           [Some "/proj"; Some "/other"; Some "/proj"] (demo_server [])
           (after_switches [Some "/proj"; Some "/other"; Some "/proj"]
                           (demo_server []))).
  - simpl. lia.
  - reflexivity.
  - vm_compute. reflexivity.
Defined.

(** The first watcher, set up when the module is loaded, is the only
    active one. *)
Lemma boot_single_watch d here o s :
  boot d here = Some (o, s) -> only_current_active s = true.
Proof.
  unfold boot, setupWatcher, hbind, gets, watch, modify. simpl.
  destruct (stat d _); intros [= <- <-]; reflexivity.
Qed.

(** *** The invariant in every state the server reaches *)

Lemma single_watch_after_close s h :
  only_current_active s = true -> watcher s = Some h ->
  actives_from 0 (deactivate h (watchers s)) = [].
Proof.
  unfold only_current_active, actives. intros Inv W. rewrite W in Inv.
  rewrite actives_from_deactivate. simpl. apply filter_all_equal, Inv.
Qed.

Lemma single_watch_none s :
  only_current_active s = true -> watcher s = None ->
  actives_from 0 (watchers s) = [].
Proof.
  unfold only_current_active, actives. intros Inv W. rewrite W in Inv.
  apply forallb_false_nil, Inv.
Qed.

Lemma single_watch_closed s h :
  only_current_active s = true -> watcher s = Some h ->
  forallb (fun k => match watcher s with
                    | Some c => Nat.eqb k c
                    | None => false
                    end)
          (actives_from 0 (deactivate h (watchers s))) = true.
Proof.
  intros Inv W. rewrite (single_watch_after_close s Inv W). reflexivity.
Qed.

Lemma single_watch_restarted s' before r :
  watcher s' = Some (List.length before) ->
  watchers s' = before ++ [mkFSWatcher r true] ->
  actives_from 0 before = [] ->
  only_current_active s' = true.
Proof.
  unfold only_current_active, actives. intros W Ws Hnone.
  rewrite W, Ws, actives_from_app, Hnone. simpl.
  rewrite Nat.eqb_refl. reflexivity.
Qed.

Lemma only_current_active_framed s s' :
  framed s s' -> only_current_active s' = only_current_active s.
Proof.
  intros (_ & _ & _ & W & Ws & _). unfold only_current_active, actives.
  rewrite W, Ws. reflexivity.
Qed.

Lemma setProject_keeps_single_watch p s :
  only_current_active s = true ->
  wp (setProject p) (fun _ s' => only_current_active s' = true) s.
Proof.
  intros Inv. unfold setProject.
  repeat (wp_step; state_simpl).
  all: try exact Inv.
  all: try ((eapply wp_mono; [apply currentStructure_spec|]);
    intros o s1 (F & C & msg & -> & D);
    apply wp_bind;
    (eapply wp_mono; [apply (broadcast_sends (fun _ => True)); exact I|]);
    intros [[]|?] s2 [F2 G2];
    pose proof (framed_trans F F2) as (_ & _ & _ & W1 & Ws1 & _);
    state_simpl; repeat (wp_step; state_simpl)).
  all: first
    [ unfold only_current_active, actives; state_simpl;
      apply single_watch_closed; assumption
    | eapply single_watch_restarted;
      [ eassumption | eassumption
      | first [ apply single_watch_after_close; assumption
              | apply single_watch_none; assumption ] ] ].
Qed.

(** Whatever happens, no watcher but the current one is ever active. *)
Lemma step_keeps_single_watch ev s s' :
  only_current_active s = true ->
  step ev s = Some s' ->
  only_current_active s' = true.
Proof.
  intros Inv. unfold step.
  destruct ev as [ws|i m|p|f|e|i|d]; simpl handle.
  - destruct (onConnection_spec ws s) as (o & s1 & E & F & _).
    rewrite E. intros [= <-]. rewrite (only_current_active_framed F). exact Inv.
  - destruct (onMessage_spec i m s) as (o & s1 & E & F & _).
    rewrite E. intros [= <-]. rewrite (only_current_active_framed F). exact Inv.
  - destruct (@setProject_keeps_single_watch p s Inv) as (o & s1 & E & Inv1).
    unfold forget, hbind. rewrite E.
    destruct o; intros [= <-]; exact Inv1.
  - destruct (onWatchChange_spec f s) as (o & s1 & E & F & _).
    rewrite E. intros [= <-]. rewrite (only_current_active_framed F). exact Inv.
  - intros [= <-]. exact Inv.
  - intros [= <-]. exact Inv.
  - intros [= <-]. exact Inv.
Qed.

Lemma steps_keep_single_watch evs :
  forall s s',
    only_current_active s = true ->
    steps evs s = Some s' ->
    only_current_active s' = true.
Proof.
  induction evs as [|ev evs IH]; intros s s' Inv; simpl.
  - intros [= <-]. exact Inv.
  - destruct (step ev s) as [s1|] eqn:E; [|discriminate].
    apply IH. eapply step_keeps_single_watch; eauto.
Qed.

(** ** What a ['structure'] message says *)

Lemma grows_framed s s' cs :
  framed s s' ->
  grows (describes (disk s) (projectRoot s)) cs (clients s') ->
  grows (describes (disk s') (projectRoot s')) cs (clients s').
Proof. intros (D & _ & R & _). rewrite D, R. auto. Qed.

(** A handler that runs from its event to its end with nothing in between
    sends only ['structure'] messages that describe the project root it
    leaves behind: the initial connection, a [getStructure] request, a root
    switch and a change reported by the watcher. *)
Lemma uninterrupted_handlers_describe_root (ev : event) (s : Server) :
  exists s',
    step ev s = Some s' /\
    grows (describes (disk s') (projectRoot s')) (arrivals ev s) (clients s').
Proof.
  unfold step.
  destruct ev as [ws|i m|p|f|e|i|d]; simpl handle; simpl arrivals.
  - destruct (onConnection_spec ws s) as (o & s' & E & F & G).
    exists s'. split; [rewrite E; reflexivity | exact (grows_framed F G)].
  - destruct (onMessage_spec i m s) as (o & s' & E & F & G).
    exists s'. split; [rewrite E; reflexivity | exact (grows_framed F G)].
  - destruct (setProject_spec p s) as (o & s' & E & G & (resp & ->) & _).
    exists s'. split; [unfold forget, hbind; rewrite E; reflexivity | exact G].
  - destruct (onWatchChange_spec f s) as (o & s' & E & F & G).
    exists s'. split; [rewrite E; reflexivity | exact (grows_framed F G)].
  - eexists. split; [reflexivity|]. apply grows_refl.
  - eexists. split; [reflexivity|]. apply grows_refl.
  - eexists. split; [reflexivity|]. apply grows_refl.
Qed.

(** ** Bursts of raw events *)

Lemma healthy_map_hears msg cs : healthy cs -> healthy (map (hears msg) cs).
Proof.
  intros [N F]. split; [rewrite map_id_hears; exact N|].
  intros c' Hin Ho. apply in_map_iff in Hin as (c & <- & Hin).
  unfold hears in *. destruct (Nat.eqb (readyState c) OPEN) eqn:O; simpl in *.
  - apply F; [exact Hin | apply Nat.eqb_eq, O].
  - apply F; assumption.
Qed.

Lemma hears_all_nil c : hears_all [] c = c.
Proof.
  unfold hears_all. destruct (Nat.eqb (readyState c) OPEN); [|reflexivity].
  rewrite app_nil_r. destruct c; reflexivity.
Qed.

Lemma hears_all_cons2 m1 m2 rest c :
  hears_all rest (hears m2 (hears m1 c)) = hears_all (m1 :: m2 :: rest) c.
Proof.
  unfold hears_all, hears, received.
  destruct (Nat.eqb (readyState c) OPEN) eqn:O; simpl; rewrite ?O; simpl;
    rewrite ?O; [|reflexivity].
  rewrite <- !app_assoc. reflexivity.
Qed.

(** One raw event with a reported name: two broadcasts, the change notice
    and then the whole tree. *)
Lemma onWatchChange_healthy f s structure lg :
  healthy (clients s) ->
  reported f = true ->
  getDirectoryStructure (disk s) (projectRoot s) (projectRoot s)
  = Some (Ok structure, lg) ->
  onWatchChange (Some f) s =
  Some (Ok tt,
        set_clients
          (map (hears (MsgStructure
                         (mkContent (base (projectRoot s)) "/" directory structure)))
               (map (hears (MsgFileChange f)) (clients s)))
          (set_console ((console s ++ ["File " ++ f ++ " changed"]%string) ++ lg) s)).
Proof.
  intros Hh Hr E. unfold reported in Hr.
  apply andb_true_iff in Hr as [Hne Hin].
  apply negb_true_iff in Hne, Hin.
  unfold onWatchChange. rewrite Hne, Hin.
  unfold hbind at 1, console_log, modify, htry, hbind at 1.
  rewrite broadcast_healthy by exact Hh.
  unfold hbind at 1, currentStructure, hbind, gets, run, hret. simpl.
  rewrite E. simpl.
  rewrite broadcast_healthy by (apply healthy_map_hears, Hh).
  reflexivity.
Qed.

Lemma burst_steps structure lg burst :
  forall s,
    healthy (clients s) ->
    forallb reported burst = true ->
    getDirectoryStructure (disk s) (projectRoot s) (projectRoot s)
    = Some (Ok structure, lg) ->
    exists s',
      steps (map (fun f => WatchChange (Some f)) burst) s = Some s' /\
      clients s' =
        map (hears_all
               (burst_messages
                  (mkContent (base (projectRoot s)) "/" directory structure) burst))
            (clients s) /\
      disk s' = disk s /\ projectRoot s' = projectRoot s.
Proof.
  induction burst as [|f rest IH]; intros s Hh Hr E.
  - exists s. repeat split; auto. simpl.
    rewrite (map_ext _ (fun c => c)) by apply hears_all_nil.
    symmetry. apply map_id.
  - simpl in Hr. apply andb_true_iff in Hr as [Hf Hrest].
    cbn [steps map]. unfold step at 1. cbn [handle].
    rewrite (onWatchChange_healthy f s Hh Hf E).
    set (content := mkContent (base (projectRoot s)) "/" directory structure).
    set (s1 := set_clients _ _).
    destruct (IH s1) as (s' & St & Cl & D & R).
    + simpl. apply healthy_map_hears, healthy_map_hears, Hh.
    + exact Hrest.
    + exact E.
    + exists s'. split; [exact St|]. split; [|split; [exact D | exact R]].
      rewrite Cl. simpl. fold content. rewrite !map_map.
      apply map_ext. intros c. apply hears_all_cons2.
Qed.

Lemma burst_messages_length content burst :
  List.length (burst_messages content burst) = 2 * List.length burst /\
  List.length (filter is_fileChange (burst_messages content burst))
  = List.length burst.
Proof.
  induction burst as [|f rest [IH1 IH2]]; simpl; [auto|].
  rewrite IH1, IH2. lia.
Qed.

(** When each callback of a burst runs to its end before the next one
    starts, and no [send] raises, every open socket receives, for each
    event in turn, one ['fileChange'] message and one ['structure']
    message. *)
Lemma sequential_burst (burst : list string) (s : Server) :
  healthy (clients s) ->
  forallb reported burst = true ->
  exists structure lg s',
    getDirectoryStructure (disk s) (projectRoot s) (projectRoot s)
    = Some (Ok structure, lg) /\
    steps (map (fun f => WatchChange (Some f)) burst) s = Some s' /\
    let content := mkContent (base (projectRoot s)) "/" directory structure in
    clients s' = map (hears_all (burst_messages content burst)) (clients s) /\
    List.length (burst_messages content burst) = 2 * List.length burst /\
    List.length (filter is_fileChange (burst_messages content burst))
    = List.length burst.
Proof.
  intros Hh Hr.
  destruct (getDirectoryStructure_total (disk s) (projectRoot s) (projectRoot s))
    as (structure & lg & E).
  destruct (@burst_steps structure lg burst s Hh Hr E) as (s' & St & Cl & _).
  exists structure, lg, s'. cbv zeta.
  pose proof (burst_messages_length
                (mkContent (base (projectRoot s)) "/" directory structure) burst)
    as [L1 L2].
  auto.
Qed.

(** C2, as the claim states it, fails: after a burst of 100 raw events for
    [src/a.js], the one open socket has received 100 change notices, 200
    messages in all, not one. *)
Lemma burst_not_one_signal :
  option_map
    (fun s' => map (fun c => (List.length (filter is_fileChange (inbox c)),
                              List.length (inbox c)))
                   (clients s'))
    (steps (map (fun f => WatchChange (Some f)) (repeat "src/a.js" 100))
           (demo_server [client1]))
  = Some [(100, 200)].
Proof. vm_compute. reflexivity. Qed.

(** ** The two ignore filters *)

Lemma prefix_app needle hay post :
  String.prefix needle hay = true ->
  String.prefix needle (hay ++ post)%string = true.
Proof.
  revert hay; induction needle as [|a needle IH]; intros hay.
  - destruct (hay ++ post)%string; reflexivity.
  - destruct hay as [|b hay]; simpl; [discriminate|].
    destruct (ascii_dec a b); [apply IH | discriminate].
Qed.

Lemma includes_cons c hay needle :
  includes (String c hay) needle =
  String.prefix needle (String c hay) || includes hay needle.
Proof. reflexivity. Qed.

Lemma includes_app_r hay needle post :
  includes hay needle = true -> includes (hay ++ post)%string needle = true.
Proof.
  induction hay as [|c hay IH].
  - destruct needle; [|discriminate]. intros _.
    destruct post; reflexivity.
  - rewrite includes_cons. intros Hor.
    change (String c hay ++ post)%string with (String c (hay ++ post)).
    rewrite includes_cons.
    apply orb_true_iff in Hor as [P|I].
    + change (String c (hay ++ post)) with (String c hay ++ post)%string.
      rewrite (prefix_app _ _ post P). reflexivity.
    + rewrite (IH I). apply orb_true_r.
Qed.

Lemma includes_app_l pre hay needle :
  includes hay needle = true -> includes (pre ++ hay)%string needle = true.
Proof.
  intros I. induction pre as [|c pre IH]; [exact I|].
  change (String c pre ++ hay)%string with (String c (pre ++ hay)).
  rewrite includes_cons, IH. apply orb_true_r.
Qed.

(** The watcher's callback does nothing at all for a file name that has
    one of the two ignored substrings. *)
Lemma onWatchChange_ignored f s :
  includes f "node_modules" || includes f ".git" = true ->
  onWatchChange (Some f) s = Some (Ok tt, s).
Proof.
  intros Hi. unfold onWatchChange. rewrite Hi.
  destruct (f =? "")%string; reflexivity.
Qed.

Lemma ignored_iff item :
  ignored item = true <-> item = "node_modules" \/ item = ".git".
Proof.
  unfold ignored. rewrite orb_true_iff, !String.eqb_eq. tauto.
Qed.

(** One iteration with the builder itself as the recursive call: it never
    throws, and it pushes a node named [item] exactly when [item] passes
    the exact-name test and [stat] succeeds. *)
Lemma visit_gds fs root fuel dir item acc o lg :
  visit fs root (gds fs root fuel) dir item acc = Some (o, lg) ->
  exists acc',
    o = Ok acc' /\
    ((acc' = acc /\
      (ignored item = true \/ exists e, stat fs (join dir item) = Throw e)) \/
     (exists n, acc' = acc ++ [n] /\ name n = item /\ ignored item = false /\
                exists stats, stat fs (join dir item) = Ok stats)).
Proof.
  rewrite visit_cases.
  destruct (stat fs (join dir item)) as [stats|e] eqn:St.
  - destruct (ignored item) eqn:Ig.
    + intros [= <- <-]. eauto 10.
    + destruct (isDirectory stats).
      * destruct (gds fs root fuel (join dir item)) as [[o' lg']|] eqn:G;
          [|discriminate].
        destruct (gds_never_throws _ _ _ _ G) as (kids & ->).
        intros [= <- <-]. eexists. split; [reflexivity|].
        right. eexists. split; [reflexivity|]. simpl. eauto.
      * intros [= <- <-]. eexists. split; [reflexivity|].
        right. eexists. split; [reflexivity|]. simpl. eauto.
  - intros [= <- <-]. eauto 10.
Qed.

Lemma for_of_visit_names fs root fuel dir items :
  forall acc o lg,
    for_of items (visit fs root (gds fs root fuel) dir) acc = Some (o, lg) ->
    exists r,
      o = Ok r /\
      (forall n, In n r ->
                 In n acc \/ (In (name n) items /\ ignored (name n) = false)) /\
      (forall n, In n acc -> In n r) /\
      (forall item stats,
          In item items -> ignored item = false ->
          stat fs (join dir item) = Ok stats ->
          exists n, In n r /\ name n = item).
Proof.
  induction items as [|item rest IH]; intros acc o lg; simpl.
  - intros [= <- <-]. exists acc. repeat split; auto. intros ? ? [].
  - unfold bind.
    destruct (visit fs root (gds fs root fuel) dir item acc) as [[o1 lg1]|] eqn:V;
      [|discriminate].
    destruct (visit_gds _ _ _ _ _ _ V) as (acc' & -> & Hacc).
    destruct (for_of rest _ acc') as [[o2 lg2]|] eqn:F; [|discriminate].
    intros [= <- <-].
    destruct (IH _ _ _ F) as (r & -> & Hfrom & Hkeep & Hpush).
    exists r. split; [reflexivity|]. repeat split.
    + intros n Hn. destruct (Hfrom n Hn) as [Hin|[Hin Hig]]; [|auto].
      destruct Hacc as [[-> _]|(n0 & -> & Hname & Hig & _)]; [auto|].
      apply in_app_or in Hin as [Hin|[<-|[]]]; [auto|].
      right. rewrite Hname. auto.
    + intros n Hn. apply Hkeep.
      destruct Hacc as [[-> _]|(n0 & -> & _)]; [auto|].
      apply in_or_app. auto.
    + intros item' stats [<-|Hin] Hig St; [|eauto].
      destruct Hacc as [[_ [Hig'|(e & St')]]|(n0 & -> & Hname & _)];
        try congruence.
      exists n0. split; [|exact Hname].
      apply Hkeep, in_or_app. simpl. auto.
Qed.

(** The top level of a snapshot of a listable directory: the names that
    pass the exact-name test and can be [stat]ed, and no others. *)
Lemma snapshot_names fs root dir entries :
  lookup dir fs = Some (EDir true entries) ->
  exists r lg,
    getDirectoryStructure fs root dir = Some (Ok r, lg) /\
    (forall n, In n r ->
               In (name n) (map fst entries) /\ ignored (name n) = false) /\
    (forall item stats,
        In item (map fst entries) -> ignored item = false ->
        stat fs (join dir item) = Ok stats ->
        exists n, In n r /\ name n = item).
Proof.
  intros L.
  destruct (getDirectoryStructure_total fs root dir) as (r & lg & E).
  exists r, lg. split; [exact E|].
  unfold getDirectoryStructure in E. rewrite gds_cases in E.
  unfold readdir in E. rewrite L in E.
  destruct (for_of _ _ []) as [[o lg']|] eqn:F; [|discriminate].
  destruct (for_of_visit_names _ _ _ _ _ _ F) as (r' & -> & Hfrom & _ & Hpush).
  injection E as <- <-. split; [|exact Hpush].
  intros n Hn. destruct (Hfrom n Hn) as [[]|]. assumption.
Qed.

(** C9. The two filters disagree. The watcher's callback drops every event
    whose file name contains [node_modules] or [.git] as a substring; the
    builder leaves out an entry only when its name is exactly
    [node_modules] or [.git]. So an entry such as [.github], whose name
    contains an ignored substring without being an ignored name, is in the
    snapshot of every directory that lists it, while no event for a file
    name that contains it is ever broadcast. *)
Theorem filters_disagree (fs : entry) (root dir : segments)
        (entries : list (string * entry)) (item : string) (c : entry)
        (stats : Stats) :
  lookup dir fs = Some (EDir true entries) ->
  find_entry item entries = Some c ->
  stats_of c = Ok stats ->
  ignored item = false ->
  includes item "node_modules" || includes item ".git" = true ->
  (exists r lg,
      getDirectoryStructure fs root dir = Some (Ok r, lg) /\
      (exists n, In n r /\ name n = item) /\
      (forall n, In n r -> name n <> "node_modules" /\ name n <> ".git")) /\
  (forall pre post s,
      onWatchChange (Some (pre ++ item ++ post)%string) s = Some (Ok tt, s)) /\
  (forall f s,
      includes f "node_modules" || includes f ".git" = true ->
      onWatchChange (Some f) s = Some (Ok tt, s)).
Proof.
  intros L F St Ig Sub. split; [|split].
  - destruct (snapshot_names fs root dir L) as (r & lg & E & Honly & Hpush).
    exists r, lg. split; [exact E|]. split.
    + apply (Hpush item stats); [eapply find_entry_In; eauto | exact Ig|].
      unfold stat. rewrite (@lookup_join dir item fs _ _ L), F. exact St.
    + intros n Hn. destruct (Honly n Hn) as [_ Hig].
      split; intros Heq;
        assert (ignored (name n) = true) by (apply ignored_iff; auto);
        congruence.
  - intros pre post s. apply onWatchChange_ignored.
    apply orb_true_iff in Sub as [S|S]; apply orb_true_iff; [left|right];
      apply includes_app_l, includes_app_r, S.
  - intros f s. apply onWatchChange_ignored.
Qed.

Lemma filters_disagree_witness :
  (exists r lg,
      getDirectoryStructure github_disk ["repo"] ["repo"] = Some (Ok r, lg) /\
      (exists n, In n r /\ name n = ".github") /\
      (forall n, In n r -> name n <> "node_modules" /\ name n <> ".git")) /\
  (forall pre post s,
      onWatchChange (Some (pre ++ ".github" ++ post)%string) s = Some (Ok tt, s)) /\
  (forall f s,
      includes f "node_modules" || includes f ".git" = true ->
      onWatchChange (Some f) s = Some (Ok tt, s)).
Proof.
  apply (@filters_disagree github_disk ["repo"] ["repo"]
           [(".github", EDir true [("ci.yml", EFile 120)]);
            (".git", EDir true [("HEAD", EFile 23)]);
            ("src", EDir true [("a.js", EFile 7)])]
           ".github" (EDir true [("ci.yml", EFile 120)])
           (mkStats true false 4096));
    reflexivity.
Defined.

(** * Further properties *)

(** ** The tree builder, node by node *)

(** An induction principle for what the builder returns: a property of
    nodes that holds of every leaf node the loop can push, and of every
    directory node whose children have it, holds of every node returned. *)
Lemma gds_nodes_ind fs root (P : segments -> node -> Prop) :
  (forall dir item stats,
      stat fs (join dir item) = Ok stats -> ignored item = false ->
      isDirectory stats = false ->
      P dir (node_of root dir item stats)) ->
  (forall dir item stats kids lg,
      stat fs (join dir item) = Ok stats -> ignored item = false ->
      isDirectory stats = true ->
      getDirectoryStructure fs root (join dir item) = Some (Ok kids, lg) ->
      Forall (P (join dir item)) kids ->
      P dir (set_children (node_of root dir item stats) kids)) ->
  forall fuel dir r lg,
    gds fs root fuel dir = Some (Ok r, lg) -> Forall (P dir) r.
Proof.
  intros Hleaf Hdir. induction fuel as [|fuel IH]; intros dir r lg; [discriminate|].
  rewrite gds_cases.
  destruct (readdir fs dir) as [items|e]; [|intros [= <- <-]; constructor].
  assert (Hloop : forall items acc o lg0,
             Forall (P dir) acc ->
             for_of items (visit fs root (gds fs root fuel) dir) acc = Some (o, lg0) ->
             exists r0, o = Ok r0 /\ Forall (P dir) r0).
  { clear items. induction items as [|item rest IHl]; intros acc o lg0 Hacc; simpl.
    - intros [= <- <-]. eauto.
    - unfold bind. rewrite visit_cases.
      destruct (stat fs (join dir item)) as [stats|e] eqn:St.
      + destruct (ignored item) eqn:Ig.
        * destruct (for_of rest _ acc) as [[o1 lg1]|] eqn:F; [|discriminate].
          intros [= <- <-]. eapply IHl; eauto.
        * destruct (isDirectory stats) eqn:D.
          -- destruct (gds fs root fuel (join dir item)) as [[o' lg']|] eqn:G;
               [|discriminate].
             destruct (gds_never_throws _ _ _ _ G) as (kids & ->).
             destruct (for_of rest _ (acc ++ _)) as [[o1 lg1]|] eqn:F;
               [|discriminate].
             intros [= <- <-]. eapply IHl; [|exact F].
             apply Forall_app. split; [exact Hacc|]. constructor; [|constructor].
             eapply Hdir; eauto using getDirectoryStructure_fuel.
          -- destruct (for_of rest _ (acc ++ _)) as [[o1 lg1]|] eqn:F;
               [|discriminate].
             intros [= <- <-]. eapply IHl; [|exact F].
             apply Forall_app. split; [exact Hacc|]. constructor; [|constructor].
             eapply Hleaf; eauto.
      + destruct (for_of rest _ acc) as [[o1 lg1]|] eqn:F; [|discriminate].
        intros [= <- <-]. eapply IHl; eauto. }
  destruct (for_of items _ []) as [[o lg0]|] eqn:F; [|discriminate].
  destruct (Hloop _ _ _ _ (Forall_nil _) F) as (r0 & -> & Hr0).
  intros [= <- <-]. exact Hr0.
Qed.

(** The same, for [getDirectoryStructure] itself. *)
Lemma snapshot_nodes_ind fs root (P : segments -> node -> Prop) :
  (forall dir item stats,
      stat fs (join dir item) = Ok stats -> ignored item = false ->
      isDirectory stats = false ->
      P dir (node_of root dir item stats)) ->
  (forall dir item stats kids lg,
      stat fs (join dir item) = Ok stats -> ignored item = false ->
      isDirectory stats = true ->
      getDirectoryStructure fs root (join dir item) = Some (Ok kids, lg) ->
      Forall (P (join dir item)) kids ->
      P dir (set_children (node_of root dir item stats) kids)) ->
  forall dir r lg,
    getDirectoryStructure fs root dir = Some (Ok r, lg) -> Forall (P dir) r.
Proof.
  intros Hleaf Hdir dir r lg. unfold getDirectoryStructure.
  apply gds_nodes_ind; assumption.
Qed.

Lemma mentions_node_children x nm p t sz c :
  mentions_node x (mkNode nm p t sz (Some c)) =
  (nm =? x)%string || mentions x c.
Proof.
  reflexivity.
Qed.

Lemma mentions_Forall x r :
  Forall (fun n => mentions_node x n = false) r -> mentions x r = false.
Proof.
  unfold mentions. induction 1 as [|n r Hn _ IH]; simpl; [reflexivity|].
  rewrite Hn, IH. reflexivity.
Qed.

Lemma ignored_name_differs item x :
  ignored item = false -> ignored x = true -> (item =? x)%string = false.
Proof.
  intros Hi Hx. apply String.eqb_neq. intros ->. congruence.
Qed.

(** X1. Whatever the disk, the project root and the directory walked, the
    build returns normally and no node of the result, at any depth, is
    named [node_modules] or [.git]. *)
Theorem snapshot_never_mentions_ignored (fs : entry) (root dir : segments) :
  exists r lg,
    getDirectoryStructure fs root dir = Some (Ok r, lg) /\
    mentions "node_modules" r = false /\
    mentions ".git" r = false.
Proof.
  destruct (getDirectoryStructure_total fs root dir) as (r & lg & E).
  exists r, lg. split; [exact E|].
  assert (H : forall x, ignored x = true -> mentions x r = false).
  { intros x Hx. apply mentions_Forall.
    apply (@snapshot_nodes_ind fs root
             (fun _ n => mentions_node x n = false)) with (dir := dir) (lg := lg);
      [| |exact E].
    - intros d item stats _ Ig _. unfold node_of. simpl.
      rewrite (ignored_name_differs _ _ Ig Hx). reflexivity.
    - intros d item stats kids lg' _ Ig _ _ Hk. unfold set_children, node_of.
      cbn [name path type size children].
      rewrite mentions_node_children, (ignored_name_differs _ _ Ig Hx).
      apply mentions_Forall, Hk. }
  split; apply H; reflexivity.
Qed.

Lemma well_shaped_directory nm p kids :
  well_shaped (mkNode nm p directory None (Some kids)) = forallb well_shaped kids.
Proof.
  reflexivity.
Qed.

Lemma stat_directory_not_file fs p stats :
  stat fs p = Ok stats -> isDirectory stats = true -> isFile stats = false.
Proof.
  unfold stat. destruct (lookup p fs) as [[| | |]|]; simpl;
    try discriminate; intros [= <-]; simpl; auto; discriminate.
Qed.

(** X2. In every snapshot, at every depth, a node has the [children]
    property exactly when its [type] is [directory], and a directory node
    has [size] null. *)
Theorem snapshot_well_shaped (fs : entry) (root dir : segments) :
  exists r lg,
    getDirectoryStructure fs root dir = Some (Ok r, lg) /\
    forallb well_shaped r = true.
Proof.
  destruct (getDirectoryStructure_total fs root dir) as (r & lg & E).
  exists r, lg. split; [exact E|]. apply forallb_forall. apply Forall_forall.
  apply (@snapshot_nodes_ind fs root (fun _ n => well_shaped n = true))
    with (dir := dir) (lg := lg); [| |exact E].
  - intros d item stats _ _ D. unfold node_of. rewrite D. reflexivity.
  - intros d item stats kids lg' St _ D _ Hk. unfold set_children, node_of.
    cbn [name path type size children].
    rewrite D, (stat_directory_not_file _ _ St D), well_shaped_directory.
    apply forallb_forall, Forall_forall, Hk.
Qed.

Lemma strip_common_below root q : strip_common root (root ++ q) = ([], q).
Proof.
  induction root as [|x root IH]; simpl.
  - destruct q; reflexivity.
  - rewrite String.eqb_refl. exact IH.
Qed.

(** The relative path of something below the root goes down only. *)
Lemma relative_below root q : relative root (root ++ q) = String.concat "/" q.
Proof. unfold relative. rewrite strip_common_below. reflexivity. Qed.

Lemma paths_below_children prefix nm p t sz kids :
  paths_below prefix (mkNode nm p t sz (Some kids)) =
  (p =? String.concat "/" (prefix ++ [nm]))%string
  && forallb (paths_below (prefix ++ [nm])) kids.
Proof.
  reflexivity.
Qed.

(** X3. In the snapshot of the project root, the [path] of every node, at
    every depth, is the chain of directory names that leads to it from the
    root followed by its own name, joined with slashes: it never starts
    with a slash and never climbs with [..]. *)
Theorem snapshot_paths_descend (fs : entry) (root : segments) :
  exists r lg,
    getDirectoryStructure fs root root = Some (Ok r, lg) /\
    forallb (paths_below []) r = true.
Proof.
  destruct (getDirectoryStructure_total fs root root) as (r & lg & E).
  exists r, lg. split; [exact E|]. apply forallb_forall. intros n Hn.
  assert (H : Forall (fun n => forall q, root = root ++ q -> paths_below q n = true) r).
  { apply (@snapshot_nodes_ind fs root
             (fun d n => forall q, d = root ++ q -> paths_below q n = true))
      with (dir := root) (lg := lg); [| |exact E].
    - intros d item stats _ _ _ q ->. unfold node_of, join. simpl.
      rewrite <- app_assoc, relative_below, String.eqb_refl. reflexivity.
    - intros d item stats kids lg' _ _ _ _ Hk q ->.
      unfold set_children, node_of, join in *.
      cbn [name path type size children].
      rewrite paths_below_children, <- app_assoc, relative_below, String.eqb_refl.
      apply forallb_forall. intros k Hin.
      rewrite Forall_forall in Hk. apply (Hk k Hin). symmetry. apply app_assoc. }
  rewrite Forall_forall in H. apply (H n Hn). symmetry. apply app_nil_r.
Qed.

(** X4. The builder composes: in every snapshot, the [children] of a
    directory node are exactly what [getDirectoryStructure] returns for
    that directory, so a subdirectory that cannot be listed shows up as a
    directory node with no children and does not disturb its siblings. *)
Theorem snapshot_children_are_snapshots (fs : entry) (root dir : segments) :
  exists r lg,
    getDirectoryStructure fs root dir = Some (Ok r, lg) /\
    forall n, In n r -> type n = directory ->
      exists kids lg',
        children n = Some kids /\
        getDirectoryStructure fs root (join dir (name n)) = Some (Ok kids, lg').
Proof.
  destruct (getDirectoryStructure_total fs root dir) as (r & lg & E).
  exists r, lg. split; [exact E|].
  rewrite <- Forall_forall.
  apply (@snapshot_nodes_ind fs root
           (fun d n => type n = directory ->
                       exists kids lg',
                         children n = Some kids /\
                         getDirectoryStructure fs root (join d (name n))
                         = Some (Ok kids, lg')))
    with (dir := dir) (lg := lg); [| |exact E].
  - intros d item stats _ _ D. unfold node_of. simpl. rewrite D. discriminate.
  - intros d item stats kids lg' _ _ _ Ek _ _. simpl. eauto.
Qed.

Lemma for_of_visit_order fs root fuel dir items :
  forall acc o lg,
    for_of items (visit fs root (gds fs root fuel) dir) acc = Some (o, lg) ->
    exists r, o = Ok r /\
              map name r = map name acc ++ filter (listed fs dir) items.
Proof.
  induction items as [|item rest IH]; intros acc o lg; simpl.
  - intros [= <- <-]. exists acc. rewrite app_nil_r. auto.
  - unfold bind.
    destruct (visit fs root (gds fs root fuel) dir item acc) as [[o1 lg1]|] eqn:V;
      [|discriminate].
    destruct (visit_gds _ _ _ _ _ _ V) as (acc' & -> & Hacc).
    destruct (for_of rest _ acc') as [[o2 lg2]|] eqn:F; [|discriminate].
    intros [= <- <-].
    destruct (IH _ _ _ F) as (r & -> & Hr).
    exists r. split; [reflexivity|]. rewrite Hr. unfold listed at 2.
    destruct Hacc as [[-> [Ig|(e & St)]]|(n & -> & Hn & Ig & stats & St)].
    + rewrite Ig. reflexivity.
    + rewrite St, andb_false_r. reflexivity.
    + rewrite Ig, St, map_app, <- app_assoc. simpl. rewrite Hn. reflexivity.
Qed.

(** X5. The top level of a snapshot follows the directory listing: its
    node names are the listed names, in the order [readdir] gave them,
    minus the two ignored names and minus the entries on which [stat]
    fails; one bad entry is left out and the others stay. A directory that
    cannot be read gives the empty list. *)
Theorem snapshot_follows_listing (fs : entry) (root dir : segments) :
  exists r lg,
    getDirectoryStructure fs root dir = Some (Ok r, lg) /\
    map name r =
    match readdir fs dir with
    | Ok items => filter (listed fs dir) items
    | Throw _ => []
    end.
Proof.
  destruct (getDirectoryStructure_total fs root dir) as (r & lg & E).
  exists r, lg. split; [exact E|].
  unfold getDirectoryStructure in E. rewrite gds_cases in E.
  destruct (readdir fs dir) as [items|e]; [|injection E as <- <-; reflexivity].
  destruct (for_of items _ []) as [[o lg']|] eqn:F; [|discriminate].
  destruct (for_of_visit_order _ _ _ _ _ _ F) as (r' & -> & Hr).
  injection E as <- <-. exact Hr.
Qed.

(** X6. A snapshot depends on the subtree it walks and on nothing else:
    two disks that hold the same thing at [dir] give the same result and
    the same console output, whatever differs elsewhere. *)
Theorem snapshot_is_local (fs1 fs2 : entry) (root dir : segments) :
  lookup dir fs1 = lookup dir fs2 ->
  getDirectoryStructure fs1 root dir = getDirectoryStructure fs2 root dir.
Proof.
  intros L.
  destruct (getDirectoryStructure_total fs1 root dir) as (r & lg & E).
  rewrite E. symmetry.
  apply (@getDirectoryStructure_fuel fs2 root dir (S (height fs1))).
  unfold getDirectoryStructure in E.
  rewrite gds_in_correct in E |- *. rewrite <- L. exact E.
Qed.

Lemma snapshot_is_local_witness :
  lookup ["proj"] demo_disk = lookup ["proj"] demo_disk_later /\
  getDirectoryStructure demo_disk ["proj"] ["proj"] =
  getDirectoryStructure demo_disk_later ["proj"] ["proj"].
Proof.
  split; [reflexivity|].
  apply (@snapshot_is_local demo_disk demo_disk_later ["proj"] ["proj"]).
  reflexivity.
Defined.

(** ** [resolve] *)

Lemma split_slash_no_slash s : Forall (fun seg => has_slash seg = false) (split_slash s).
Proof.
  induction s as [|c s IH]; simpl; [repeat constructor|].
  destruct (Ascii.eqb c "/"%char) eqn:E; [constructor; [reflexivity | exact IH]|].
  destruct (split_slash s) as [|h t]; [repeat constructor; simpl; rewrite E; reflexivity|].
  inversion IH; subst. constructor; [simpl; rewrite E; assumption | assumption].
Qed.

Lemma normalised_removelast p : normalised p = true -> normalised (removelast p) = true.
Proof.
  unfold normalised. rewrite !forallb_forall. intros H seg Hin.
  apply H. revert Hin. clear. induction p as [|x [|y p] IH]; simpl in *; tauto.
Qed.

Lemma normalize_step_normalised acc seg :
  normalised acc = true -> has_slash seg = false ->
  normalised (normalize_step acc seg) = true.
Proof.
  intros Hacc Hs. unfold normalize_step.
  destruct ((seg =? "")%string || (seg =? ".")%string) eqn:E1; [exact Hacc|].
  destruct (seg =? "..")%string eqn:E2; [apply normalised_removelast, Hacc|].
  apply orb_false_iff in E1 as [E0 E1].
  unfold normalised. rewrite forallb_app. fold (normalised acc). rewrite Hacc.
  simpl. unfold plain. rewrite E0, E1, E2, Hs. reflexivity.
Qed.

Lemma fold_normalize_normalised segs :
  forall acc,
    normalised acc = true ->
    Forall (fun seg => has_slash seg = false) segs ->
    normalised (fold_left normalize_step segs acc) = true.
Proof.
  induction segs as [|seg segs IH]; intros acc Hacc Hs; simpl; [exact Hacc|].
  inversion Hs; subst. apply IH; [apply normalize_step_normalised|]; assumption.
Qed.

(** X7. [resolve] gives a normalised path: whatever string a request
    carries, the resolved path has no empty, [.] or [..] segment and no
    slash inside a segment, provided the working directory is itself
    normalised; and an absolute request does not depend on the working
    directory at all. *)
Theorem resolve_normalises (here : segments) (p : string) :
  normalised here = true ->
  exists r,
    resolve here (Some p) = Ok r /\ normalised r = true /\
    (is_absolute p = true -> forall other, resolve other (Some p) = Ok r).
Proof.
  intros Hh. unfold resolve. eexists. split; [reflexivity|]. split.
  - apply fold_normalize_normalised; [|apply split_slash_no_slash].
    destruct (is_absolute p); [reflexivity | exact Hh].
  - intros ->. reflexivity.
Qed.

Lemma resolve_normalises_witness :
  normalised ["srv"; "app"] = true /\
  exists r,
    resolve ["srv"; "app"] (Some "../x/./y//z/") = Ok r /\ normalised r = true /\
    (is_absolute "../x/./y//z/" = true ->
     forall other, resolve other (Some "../x/./y//z/") = Ok r).
Proof.
  split; [reflexivity|].
  apply (@resolve_normalises ["srv"; "app"] "../x/./y//z/"). reflexivity.
Defined.

Lemma split_slash_plain seg : has_slash seg = false -> split_slash seg = [seg].
Proof.
  induction seg as [|c seg IH]; simpl; [reflexivity|].
  intros H. apply orb_false_iff in H as [E H]. rewrite E, (IH H). reflexivity.
Qed.

Lemma split_slash_cons seg rest :
  has_slash seg = false ->
  split_slash (seg ++ String "/"%char rest) = seg :: split_slash rest.
Proof.
  induction seg as [|c seg IH]; simpl; [reflexivity|].
  intros H. apply orb_false_iff in H as [E H]. rewrite E, (IH H). reflexivity.
Qed.

Lemma split_slash_concat r :
  Forall (fun seg => has_slash seg = false) r -> r <> [] ->
  split_slash (String.concat "/" r) = r.
Proof.
  induction r as [|x [|y r] IH]; intros H Hne; [congruence| |].
  - inversion H; subst. simpl. apply split_slash_plain. assumption.
  - inversion H; subst.
    change (String.concat "/" (x :: y :: r))
      with (x ++ String "/"%char (String.concat "/" (y :: r)))%string.
    rewrite split_slash_cons by assumption.
    rewrite IH; [reflexivity | assumption | discriminate].
Qed.

Lemma plain_no_slash seg : plain seg = true -> has_slash seg = false.
Proof.
  unfold plain. intros H. apply andb_true_iff in H as [_ H].
  apply negb_true_iff, H.
Qed.

Lemma normalize_step_plain acc seg :
  plain seg = true -> normalize_step acc seg = acc ++ [seg].
Proof.
  unfold plain, normalize_step. rewrite !andb_true_iff, !negb_true_iff.
  intros [[[-> ->] ->] _]. reflexivity.
Qed.

Lemma fold_normalize_plain r :
  forall acc, normalised r = true -> fold_left normalize_step r acc = acc ++ r.
Proof.
  induction r as [|seg r IH]; intros acc H; simpl; [symmetry; apply app_nil_r|].
  unfold normalised in H. simpl in H. apply andb_true_iff in H as [Hs Hr].
  rewrite (@normalize_step_plain acc seg Hs), IH by exact Hr.
  rewrite <- app_assoc. reflexivity.
Qed.

(** X8. Printing a normalised path and resolving the string gives the path
    back, from any working directory: the strings that the server stores
    in the recent list name the roots they came from. *)
Theorem resolve_path_string (here r : segments) :
  normalised r = true -> resolve here (Some (path_string r)) = Ok r.
Proof.
  intros H. unfold resolve, path_string. simpl. f_equal.
  destruct r as [|x r]; [reflexivity|].
  rewrite split_slash_concat; [|  |discriminate].
  - apply (@fold_normalize_plain (x :: r) [] H).
  - unfold normalised in H. rewrite forallb_forall in H.
    apply Forall_forall. intros seg Hin. apply plain_no_slash, H, Hin.
Qed.

Lemma resolve_path_string_witness :
  normalised ["proj"; "sub"] = true /\
  resolve ["srv"; "app"] (Some (path_string ["proj"; "sub"])) = Ok ["proj"; "sub"].
Proof.
  split; [reflexivity|].
  apply (@resolve_path_string ["srv"; "app"] ["proj"; "sub"]). reflexivity.
Defined.

(** ** The directory browser *)

Lemma set_console_nil s : set_console (console s ++ []) s = s.
Proof. destruct s. unfold set_console. simpl. rewrite app_nil_r. reflexivity. Qed.

Lemma set_console_twice s l1 l2 :
  set_console (console (set_console (console s ++ l1) s) ++ l2)
              (set_console (console s ++ l1) s)
  = set_console (console s ++ l1 ++ l2) s.
Proof. unfold set_console. simpl. rewrite app_assoc. reflexivity. Qed.

(** The loop of the browser is a filter: directories are kept in order,
    and an entry on which [stat] fails costs one console line. *)
Lemma browse_loop r items :
  forall acc s,
    hfor_of items
      (fun item directories =>
         htry
           (let fullPath := join r item in
            d <~ gets disk ;;
            stats <~ of_outcome (stat d fullPath) ;;
            if isDirectory stats
            then hret (directories ++ [mkDirItem item fullPath false])
            else hret directories)
           (fun err =>
              console_log ("Error processing " ++ item)%string ;;>
              hret directories))
      acc s
    = Some (Ok (acc ++ directory_items (disk s) r items),
            set_console (console s ++ stat_errors (disk s) r items) s).
Proof.
  induction items as [|item rest IH]; intros acc s.
  - simpl. unfold hret, directory_items. simpl.
    rewrite app_nil_r, set_console_nil. reflexivity.
  - cbn [hfor_of]. unfold hbind at 1, htry, hbind at 1, gets, hbind at 1, of_outcome.
    unfold directory_items, stat_errors, is_directory_at in *.
    cbn [filter flat_map map].
    destruct (stat (disk s) (join r item)) as [stats|e].
    + destruct (isDirectory stats); unfold hret; rewrite IH; cbn [map app].
      * rewrite <- app_assoc. reflexivity.
      * reflexivity.
    + unfold hbind, console_log, modify, hret. rewrite IH.
      cbn [disk set_console map app]. rewrite set_console_twice. reflexivity.
Qed.

(** Evaluation of a handler, one operation at a time. *)
Lemma hbind_eq {A B} (m : H A) (f : A -> H B) s a s1 :
  m s = Some (Ok a, s1) -> hbind m f s = f a s1.
Proof. intros E. unfold hbind. rewrite E. reflexivity. Qed.

Lemma hbind_throw {A B} (m : H A) (f : A -> H B) s e s1 :
  m s = Some (Throw e, s1) -> hbind m f s = Some (Throw e, s1).
Proof. intros E. unfold hbind. rewrite E. reflexivity. Qed.

Lemma htry_ok {A} (body : H A) (handler : error -> H A) s a s1 :
  body s = Some (Ok a, s1) -> htry body handler s = Some (Ok a, s1).
Proof. intros E. unfold htry. rewrite E. reflexivity. Qed.

Lemma htry_throw {A} (body : H A) (handler : error -> H A) s e s1 :
  body s = Some (Throw e, s1) -> htry body handler s = handler e s1.
Proof. intros E. unfold htry. rewrite E. reflexivity. Qed.

(** X9. Browsing a directory that can be read answers with the resolved
    path and, in the order of the listing, one item for each entry that is
    a directory (ignored names included), each with the joined path; an
    entry on which [stat] fails is skipped; a [..] item for the parent
    comes first unless the path is the root. A missing or empty [path]
    query means the root. Nothing but the console changes. *)
Theorem browse_lists_directories (query_path : option string) (s : Server)
        (r : segments) (items : list string) :
  resolve (cwd s) (Some (query_or_root query_path)) = Ok r ->
  readdir (disk s) r = Ok items ->
  listDirectories query_path s =
  Some (Ok (directory_listing r (with_parent r (directory_items (disk s) r items))),
        set_console
          (console s ++ ["Loading directories for path"]
                     ++ stat_errors (disk s) r items
                     ++ ["Sending directory response"]) s).
Proof.
  intros Hr Hd. unfold listDirectories. apply htry_ok. cbv zeta.
  erewrite hbind_eq by reflexivity. rewrite Hr.
  erewrite hbind_eq by reflexivity.
  erewrite hbind_eq by reflexivity.
  erewrite hbind_eq by reflexivity.
  cbn [disk set_console]. rewrite Hd.
  erewrite hbind_eq by reflexivity.
  erewrite hbind_eq by apply browse_loop.
  erewrite hbind_eq by reflexivity.
  unfold hret, with_parent, dirname. cbn [disk set_console app console].
  unfold set_console. simpl. rewrite <- !app_assoc. reflexivity.
Qed.

Lemma browse_lists_directories_witness :
  resolve (cwd (demo_server [client1])) (Some (query_or_root (Some "/proj")))
  = Ok ["proj"] /\
  readdir (disk (demo_server [client1])) ["proj"]
  = Ok ["a.txt"; "sub"; "node_modules"] /\
  listDirectories (Some "/proj") (demo_server [client1]) =
  Some (Ok (directory_listing ["proj"]
              (with_parent ["proj"]
                 (directory_items (disk (demo_server [client1])) ["proj"]
                                  ["a.txt"; "sub"; "node_modules"]))),
        set_console
          (console (demo_server [client1])
             ++ ["Loading directories for path"]
             ++ stat_errors (disk (demo_server [client1])) ["proj"]
                            ["a.txt"; "sub"; "node_modules"]
             ++ ["Sending directory response"]) (demo_server [client1])).
Proof.
  split; [reflexivity|]. split; [reflexivity|].
  apply (@browse_lists_directories (Some "/proj") (demo_server [client1])
           ["proj"] ["a.txt"; "sub"; "node_modules"]); reflexivity.
Defined.

(** X10. Browsing a path that does not exist, is not a directory or
    cannot be read answers with status 500 and the error's message; the
    active root, the watcher, the recent list, the sockets and the disk
    are untouched. *)
Theorem browse_rejects_unreadable (query_path : option string) (s : Server)
        (r : segments) (e : error) :
  resolve (cwd s) (Some (query_or_root query_path)) = Ok r ->
  readdir (disk s) r = Throw e ->
  listDirectories query_path s =
  Some (Ok (directory_error (errorMessage e)),
        set_console
          (console s ++ ["Loading directories for path";
                         "Error listing directories"]) s).
Proof.
  intros Hr Hd. unfold listDirectories.
  rewrite (@htry_throw _ _ _ s e
             (set_console (console s ++ ["Loading directories for path"]) s)).
  - erewrite hbind_eq by reflexivity. unfold hret, set_console. simpl.
    rewrite <- app_assoc. reflexivity.
  - cbv zeta.
    erewrite hbind_eq by reflexivity. rewrite Hr.
    erewrite hbind_eq by reflexivity.
    erewrite hbind_eq by reflexivity.
    erewrite hbind_eq by reflexivity.
    cbn [disk set_console]. rewrite Hd.
    erewrite hbind_throw by reflexivity. reflexivity.
Qed.

Lemma browse_rejects_unreadable_witness :
  resolve (cwd (demo_server [])) (Some (query_or_root (Some "/proj/a.txt")))
  = Ok ["proj"; "a.txt"] /\
  readdir (disk (demo_server [])) ["proj"; "a.txt"] = Throw ENOTDIR /\
  listDirectories (Some "/proj/a.txt") (demo_server []) =
  Some (Ok (directory_error (errorMessage ENOTDIR)),
        set_console
          (console (demo_server []) ++ ["Loading directories for path";
                                        "Error listing directories"])
          (demo_server [])).
Proof.
  split; [reflexivity|]. split; [reflexivity|].
  apply (@browse_rejects_unreadable (Some "/proj/a.txt") (demo_server [])
           ["proj"; "a.txt"] ENOTDIR); reflexivity.
Defined.

Lemma lookup_parent_directory fs r e :
  lookup r fs = Some e -> r <> [] -> is_directory_at fs (removelast r) = true.
Proof.
  intros L Hne.
  destruct (exists_last Hne) as (q & x & ->).
  rewrite removelast_last. rewrite lookup_app in L.
  unfold is_directory_at, stat.
  destruct (lookup q fs) as [e'|]; [|discriminate].
  destruct e'; simpl in L; try discriminate. reflexivity.
Qed.

Lemma normalised_join r item :
  normalised r = true -> plain item = true -> normalised (join r item) = true.
Proof.
  unfold normalised, join. intros Hr Hi. rewrite forallb_app, Hr. simpl.
  rewrite Hi. reflexivity.
Qed.

(** X11. Browsing and selecting fit together: every item that the browser
    returns for a readable directory, the [..] item included, names a path
    that [/api/set-project] accepts as a directory when it is sent back as
    printed. *)
Theorem browse_items_can_be_selected (s : Server) (r : segments)
        (items : list string) (it : DirItem) :
  normalised r = true ->
  readdir (disk s) r = Ok items ->
  forallb plain items = true ->
  In it (with_parent r (directory_items (disk s) r items)) ->
  valid_root (Some (path_string (d_path it))) s = true.
Proof.
  intros Hr Hd Hp Hin.
  assert (Hit : normalised (d_path it) = true /\
                is_directory_at (disk s) (d_path it) = true).
  { assert (Hitems : In it (directory_items (disk s) r items) ->
                     normalised (d_path it) = true /\
                     is_directory_at (disk s) (d_path it) = true).
    { unfold directory_items. intros Hi.
      apply in_map_iff in Hi as (item & <- & Hf).
      apply filter_In in Hf as [Hi Hdir]. simpl. split; [|exact Hdir].
      apply normalised_join; [exact Hr|].
      rewrite forallb_forall in Hp. apply Hp, Hi. }
    destruct r as [|x r']; [exact (Hitems Hin)|].
    destruct Hin as [<-|Hin]; [|exact (Hitems Hin)].
    cbn [d_path]. split; [apply normalised_removelast, Hr|].
    apply readdir_Ok in Hd as (entries & L & _).
    eapply lookup_parent_directory; [exact L | discriminate]. }
  destruct Hit as [Hn Hdir].
  unfold valid_root. rewrite (resolve_path_string (cwd s) _ Hn). exact Hdir.
Qed.

Lemma browse_items_can_be_selected_witness :
  normalised ["proj"] = true /\
  readdir (disk (demo_server [])) ["proj"] = Ok ["a.txt"; "sub"; "node_modules"] /\
  forallb plain ["a.txt"; "sub"; "node_modules"] = true /\
  valid_root (Some (path_string (d_path (mkDirItem "sub" ["proj"; "sub"] false))))
             (demo_server []) = true.
Proof.
  split; [reflexivity|]. split; [reflexivity|]. split; [reflexivity|].
  apply (@browse_items_can_be_selected (demo_server []) ["proj"]
           ["a.txt"; "sub"; "node_modules"]
           (mkDirItem "sub" ["proj"; "sub"] false));
    try reflexivity.
  simpl. auto.
Defined.

(** ** Saving the recent list *)

Lemma update_entry_find seg f entries entries' :
  update_entry seg f entries = Ok entries' ->
  (exists e', f (find_entry seg entries) = Ok e' /\
              find_entry seg entries' = Some e') /\
  (forall x, x <> seg -> find_entry x entries' = find_entry x entries).
Proof.
  revert entries'. induction entries as [|[n e] rest IH]; intros entries'; simpl.
  - destruct (f None) as [e'|] eqn:F; [|discriminate].
    intros [= <-]. simpl. rewrite String.eqb_refl. split; [eauto|].
    intros x Hx. destruct (String.eqb_spec seg x); [congruence | reflexivity].
  - destruct (n =? seg)%string eqn:E.
    + destruct (f (Some e)) as [e'|] eqn:F; [|discriminate].
      intros [= <-]. simpl. rewrite E. split; [eauto|].
      apply String.eqb_eq in E. subst n.
      intros x Hx. destruct (String.eqb_spec seg x); [congruence | reflexivity].
    + destruct (update_entry seg f rest) as [rest'|] eqn:U; [|discriminate].
      intros [= <-]. simpl. rewrite E.
      destruct (IH _ eq_refl) as [Hseg Hother]. split; [exact Hseg|].
      intros x Hx. rewrite (Hother x Hx). reflexivity.
Qed.



(** What was written is a file, or the device that swallowed it. *)
Lemma write_at_result bytes p :
  forall target d',
    write_at p bytes target = Ok d' ->
    lookup p d' = Some (EFile bytes) \/ lookup p d' = Some ESpecial.
Proof.
  induction p as [|seg rest IH]; intros target d' W.
  - destruct target as [[| | |]|]; simpl in W; try discriminate;
      injection W as <-; simpl; auto.
  - destruct target as [[|l0 entries| |]|]; simpl in W; try discriminate.
    destruct (update_entry seg (write_at rest bytes) entries) as [entries'|] eqn:U;
      [|discriminate].
    injection W as <-. simpl.
    destruct (update_entry_find _ _ _ U) as [(e' & We & ->) _].
    eapply IH; eauto.
Qed.

(** ** Root switches that go through *)









(** X13. What [set-project] saves is never read back. The recent list is
    written as a file; the module's start-up reads it with [readdir],
    which fails on a file, so after any successful save the next start in
    the same directory begins with an empty recent list. *)
Theorem saved_recent_list_is_not_read_back
        (data : string) (s s' : Server) (o : outcome unit) (started : Server) :
  writeFile (join (cwd s) RECENT_PROJECTS_FILE) data s = Some (Ok tt, s') ->
  boot (disk s') (cwd s) = Some (o, started) ->
  recentProjects started = [].
Proof.
  unfold writeFile.
  destruct (write_at _ _ (Some (disk s))) as [d|e] eqn:W; [|discriminate].
  intros [= <-]. cbn [disk set_disk].
  assert (R : exists e, readdir d (join (cwd s) RECENT_PROJECTS_FILE) = Throw e).
  { unfold readdir. destruct (write_at_result _ _ _ W) as [-> | ->]; eauto. }
  destruct R as (e & R).
  unfold boot. rewrite R.
  unfold setupWatcher, hbind, gets, watch, modify. cbn [disk projectRoot].
  destruct (stat d _); intros [= <- <-]; reflexivity.
Qed.

Lemma saved_recent_list_is_not_read_back_witness :
  let s := demo_server [] in
  let s' := set_disk
              (EDir true
                 [("proj", EDir true (scenario_entries true (EFile 5)));
                  ("other", EDir true []);
                  ("srv", EDir true
                            [("app", EDir true [(".recent_projects", EFile 5)])])])
              s in
  let started :=
    mkServer (disk s') ["srv"; "app"] ["srv"] (Some 0)
             [mkFSWatcher ["srv"] true] [Started 0] [] [] [] in
  writeFile (join (cwd s) RECENT_PROJECTS_FILE) "/proj" s = Some (Ok tt, s') /\
  boot (disk s') (cwd s) = Some (Ok tt, started) /\
  recentProjects started = [].
Proof.
  cbv zeta. split; [reflexivity|]. split; [reflexivity|].
  eapply (@saved_recent_list_is_not_read_back "/proj" (demo_server []));
    reflexivity.
Defined.

(** ** Connections and requests *)

Lemma ws_send_unique done c rest msg s :
  clients s = done ++ c :: rest ->
  NoDup (map id (clients s)) ->
  readyState c = OPEN -> sendFails c = false ->
  ws_send (id c) msg s =
  Some (Ok tt, set_clients (done ++ received msg c :: rest) s).
Proof.
  intros E N O F. unfold ws_send. rewrite E in N |- *.
  rewrite (find_client_unique _ _ _ N), F, O, (deliver_unique _ _ _ msg N).
  reflexivity.
Qed.

Lemma currentStructure_eq s structure lg :
  getDirectoryStructure (disk s) (projectRoot s) (projectRoot s)
  = Some (Ok structure, lg) ->
  currentStructure s =
  Some (Ok (structure_message s structure), set_console (console s ++ lg) s).
Proof.
  intros E. unfold currentStructure, hbind, gets, run, hret. rewrite E.
  reflexivity.
Qed.

(** The connection handler in one piece: when the socket is open, its
    [send] does not raise and its [id] is new, the handler returns
    normally, the socket is registered last and receives the
    ['structure'] message of the current root, and no other socket receives
    anything. *)
Lemma onConnection_greets (ws : WebSocket) (s : Server) :
  NoDup (map id (clients s ++ [ws])) ->
  readyState ws = OPEN -> sendFails ws = false ->
  exists structure lg,
    getDirectoryStructure (disk s) (projectRoot s) (projectRoot s)
    = Some (Ok structure, lg) /\
    onConnection ws s =
    Some (Ok tt,
          set_clients (clients s ++ [received (structure_message s structure) ws])
                      (set_console ((console s ++ ["Client connected"]) ++ lg) s)).
Proof.
  intros N O F.
  destruct (getDirectoryStructure_total (disk s) (projectRoot s) (projectRoot s))
    as (structure & lg & E).
  exists structure, lg. split; [exact E|].
  unfold onConnection.
  erewrite hbind_eq by reflexivity. erewrite hbind_eq by reflexivity.
  apply htry_ok.
  erewrite hbind_eq by (apply currentStructure_eq; exact E).
  erewrite (@ws_send_unique (clients s) ws []); try assumption; reflexivity.
Qed.

(** The message handler in one piece. When the socket [c] is registered,
    open and its [send] does not raise: a [getStructure] message makes
    [c], and no other socket, receive the ['structure'] message of the
    current root; a message that does not parse, or parses to [null],
    makes [c] alone receive the error ['Failed to process request']. *)
Lemma onMessage_answers
        (before after : list WebSocket) (c : WebSocket) (s : Server) :
  clients s = before ++ c :: after ->
  NoDup (map id (clients s)) ->
  readyState c = OPEN -> sendFails c = false ->
  (exists structure lg,
      getDirectoryStructure (disk s) (projectRoot s) (projectRoot s)
      = Some (Ok structure, lg) /\
      onMessage (id c) (Json (Some "getStructure")) s =
      Some (Ok tt,
            set_clients
              (before ++ received (structure_message s structure) c :: after)
              (set_console (console s ++ lg) s))) /\
  (forall m, m = Unparsable \/ m = JsonNull ->
     onMessage (id c) m s =
     Some (Ok tt,
           set_clients
             (before ++ received (MsgError "Failed to process request") c :: after)
             (set_console (console s ++ ["Error handling message"]) s))).
Proof.
  intros Ec N O F. split.
  - destruct (getDirectoryStructure_total (disk s) (projectRoot s) (projectRoot s))
      as (structure & lg & E).
    exists structure, lg. split; [exact E|].
    unfold onMessage. apply htry_ok.
    erewrite hbind_eq by reflexivity. cbv beta iota. rewrite String.eqb_refl.
    erewrite hbind_eq by (apply currentStructure_eq; exact E).
    erewrite (@ws_send_unique before c after); try assumption; reflexivity.
  - intros m Hm. unfold onMessage.
    assert (Hb : exists e,
               (data <~ match m with
                        | Unparsable => hthrow (Error "Unexpected token in JSON")
                        | JsonNull => hthrow TypeError
                        | Json ty => hret ty
                        end ;;
                match data with
                | Some ty =>
                    if (ty =? "getStructure")%string
                    then msg <~ currentStructure ;; ws_send (id c) msg
                    else hret tt
                | None => hret tt
                end) s = Some (Throw e, s)).
    { destruct Hm as [-> | ->]; eexists; reflexivity. }
    destruct Hb as (e & Hb).
    erewrite htry_throw by exact Hb.
    erewrite hbind_eq by reflexivity.
    erewrite (@ws_send_unique before c after); try assumption; reflexivity.
Qed.

(** X16. A message whose [type] is anything but [getStructure], or that
    has no [type], is ignored: no reply, no console line, no change. *)
Theorem other_requests_are_ignored (i : nat) (ty : option string) (s : Server) :
  ty <> Some "getStructure" ->
  onMessage i (Json ty) s = Some (Ok tt, s).
Proof.
  intros Hty. unfold onMessage. apply htry_ok.
  erewrite hbind_eq by reflexivity.
  destruct ty as [ty|]; [|reflexivity].
  destruct (String.eqb_spec ty "getStructure") as [->|Hne]; [congruence|].
  reflexivity.
Qed.

Lemma other_requests_are_ignored_witness :
  Some "ping" <> Some "getStructure" /\
  onMessage 1 (Json (Some "ping")) (demo_server [client1])
  = Some (Ok tt, demo_server [client1]).
Proof.
  split; [discriminate|].
  apply (@other_requests_are_ignored 1 (Some "ping") (demo_server [client1])).
  discriminate.
Defined.

(** ** More on the fan-out *)

Lemma grows_same_sockets P cs cs' :
  grows P cs cs' ->
  map id cs' = map id cs /\ map readyState cs' = map readyState cs.
Proof.
  unfold grows. induction 1 as [|c c' l l' (I & R & _) _ [IH1 IH2]]; simpl;
    [auto|]. rewrite I, R, IH1, IH2. auto.
Qed.

(** X17. A broadcast always finishes, and whether it returns or throws it
    only ever appends copies of the message to inboxes: no socket is
    registered, unregistered or reordered, what a socket had received
    stays in place, and the root, the watchers, the recent list and the
    disk are untouched. *)
Theorem broadcast_only_appends (msg : message) (s : Server) :
  exists o s',
    broadcastToClients msg s = Some (o, s') /\
    framed s s' /\
    map id (clients s') = map id (clients s) /\
    map readyState (clients s') = map readyState (clients s) /\
    grows (fun m => m = msg) (clients s) (clients s').
Proof.
  destruct (broadcast_sends (fun m => m = msg) msg s eq_refl)
    as (o & s' & E & F & G).
  exists o, s'. destruct (grows_same_sockets G) as [I R]. auto 6.
Qed.

Lemma forEach_app {A} (l1 l2 : list A) (f : A -> H unit) s :
  forEach (l1 ++ l2) f s = (forEach l1 f ;;> forEach l2 f) s.
Proof.
  revert s. induction l1 as [|x l1 IH]; intros s; simpl.
  - reflexivity.
  - unfold hbind. destruct (f x s) as [[[[]|e] s1]|]; auto.
Qed.

(** The loop of [broadcastToClients] over sockets none of which raises,
    with [done] before them and [tail] after them in the registry. *)
Lemma forEach_send_served msg served :
  forall done tail s,
    clients s = done ++ served ++ tail ->
    NoDup (map id (clients s)) ->
    (forall b, In b served -> readyState b = OPEN -> sendFails b = false) ->
    forEach served
      (fun client =>
         if Nat.eqb (readyState client) OPEN
         then ws_send (id client) msg else hret tt) s
    = Some (Ok tt, set_clients (done ++ map (hears msg) served ++ tail) s).
Proof.
  induction served as [|c served IH]; intros done tail s E N F; simpl.
  - unfold hret. simpl in E. rewrite <- E. destruct s; reflexivity.
  - unfold hbind, hears at 1.
    destruct (Nat.eqb (readyState c) OPEN) eqn:O.
    + rewrite (@ws_send_unique done c (served ++ tail) msg s E N);
        [|apply Nat.eqb_eq, O | apply F; [left; reflexivity | apply Nat.eqb_eq, O]].
      rewrite (IH (done ++ [received msg c]) tail); simpl.
      * rewrite <- app_assoc. reflexivity.
      * rewrite <- app_assoc. reflexivity.
      * rewrite E in N. revert N. rewrite !map_app. cbn [map app id received].
        rewrite <- ?app_assoc. cbn [app]. rewrite ?map_app. auto.
      * intros b Hb. apply F. right. exact Hb.
    + unfold hret. rewrite (IH (done ++ [c]) tail).
      * rewrite <- app_assoc. reflexivity.
      * rewrite <- app_assoc. exact E.
      * exact N.
      * intros b Hb. apply F. right. exact Hb.
Qed.

(** X18. A [send] that raises aborts the fan-out. When the first open
    socket whose [send] raises is [c], the sockets registered before [c]
    are served, the exception leaves [broadcastToClients], and no socket
    registered after [c] receives the message; the registry itself is
    unchanged. *)
Theorem broadcast_stops_at_raising_socket
        (before after : list WebSocket) (c : WebSocket) (msg : message)
        (s : Server) :
  clients s = before ++ c :: after ->
  NoDup (map id (clients s)) ->
  (forall b, In b before -> readyState b = OPEN -> sendFails b = false) ->
  readyState c = OPEN -> sendFails c = true ->
  broadcastToClients msg s =
  Some (Throw SendError, set_clients (map (hears msg) before ++ c :: after) s).
Proof.
  intros E N F O Fc. unfold broadcastToClients.
  erewrite hbind_eq by reflexivity.
  destruct (Nat.eqb (List.length (clients s)) 0) eqn:L.
  { apply Nat.eqb_eq in L. rewrite E, length_app in L. simpl in L. lia. }
  rewrite E at 1. rewrite forEach_app.
  erewrite hbind_eq
    by (apply (@forEach_send_served msg before [] (c :: after) s); assumption).
  cbn [app forEach]. rewrite O. cbn [Nat.eqb OPEN].
  change (Nat.eqb OPEN OPEN) with true. cbv iota.
  apply hbind_throw. unfold ws_send. cbn [clients set_clients].
  assert (N' : NoDup (map id (map (hears msg) before ++ c :: after))).
  { rewrite E in N. rewrite !map_app in *. rewrite map_id_hears. exact N. }
  rewrite (find_client_unique _ _ _ N'), Fc. reflexivity.
Qed.

Lemma broadcast_stops_at_raising_socket_witness :
  broadcastToClients (MsgFileChange "a.txt")
                     (demo_server [client1; client2_raising; client3]) =
  Some (Throw SendError,
        set_clients
          (map (hears (MsgFileChange "a.txt")) [client1]
             ++ client2_raising :: [client3])
          (demo_server [client1; client2_raising; client3])).
Proof.
  apply (@broadcast_stops_at_raising_socket [client1] [client3] client2_raising
           (MsgFileChange "a.txt")
           (demo_server [client1; client2_raising; client3]));
    try reflexivity.
  - repeat constructor; simpl; intuition discriminate.
  - intros b [<-|[]] _. reflexivity.
Defined.

(** ** The watcher's callback and the watchers *)

Lemma onWatchChange_returns filename s :
  wp (onWatchChange filename)
     (fun o s' => o = Ok tt /\ sends (fun _ => True) s s') s.
Proof.
  unfold onWatchChange.
  destruct filename as [f|]; [|apply wp_ret; split; [reflexivity | apply sends_refl]].
  destruct (f =? "")%string;
    [apply wp_ret; split; [reflexivity | apply sends_refl]|].
  destruct (includes f "node_modules" || includes f ".git");
    [apply wp_ret; split; [reflexivity | apply sends_refl]|].
  apply wp_bind, wp_console_log. apply wp_try. apply wp_bind.
  eapply wp_mono; [apply (broadcast_sends (fun _ => True)); exact I|].
  intros [[]|e] s2 S2; unfold sent in *; apply sends_console in S2.
  - apply wp_bind. eapply wp_mono; [apply currentStructure_spec|].
    intros o s3 (F3 & C3 & msg & -> & _).
    eapply wp_mono; [apply (broadcast_sends (fun _ => True)); exact I|].
    intros o s4 S4. unfold sent in *.
    assert (S : sends (fun _ => True) s s4).
    { eapply sends_trans; [exact S2|].
      destruct S4 as [F4 G4]. split; [eapply framed_trans; eauto|].
      rewrite <- C3. exact G4. }
    destruct o as [[]|e]; [split; [reflexivity | exact S]|].
    apply wp_console_log. split; [reflexivity | apply sends_log, S].
  - apply wp_console_log. split; [reflexivity | apply sends_log, S2].
Qed.

(** X19. The watcher's callback never throws: whatever the file name and
    whatever the sockets do, even when a [send] raises in the middle of a
    broadcast, it returns normally, having changed nothing but inboxes and
    the console. *)
Theorem watch_callback_never_throws (filename : option string) (s : Server) :
  exists s',
    onWatchChange filename s = Some (Ok tt, s') /\
    framed s s' /\
    map id (clients s') = map id (clients s).
Proof.
  destruct (onWatchChange_returns filename s) as (o & s' & E & -> & F & G).
  exists s'. destruct (grows_same_sockets G) as [I _]. auto.
Qed.

Lemma actives_all_equal_short c ws :
  forall i,
    forallb (fun h => Nat.eqb h c) (actives_from i ws) = true ->
    List.length (actives_from i ws) <= 1.
Proof.
  induction ws as [|w ws IH]; intros i; simpl; [lia|].
  destruct (active w); [|apply IH].
  simpl. intros Hall. apply andb_true_iff in Hall as [Hi Hrest].
  apply Nat.eqb_eq in Hi. subst c.
  destruct (actives_from (S i) ws) as [|h t] eqn:A; [simpl; lia|].
  simpl in Hrest. apply andb_true_iff in Hrest as [Hh _].
  apply Nat.eqb_eq in Hh. subst h.
  assert (Hin : In i (actives_from (S i) ws)) by (rewrite A; left; reflexivity).
  apply actives_from_ge in Hin. lia.
Qed.

Lemma only_current_active_short s :
  only_current_active s = true -> List.length (actives s) <= 1.
Proof.
  unfold only_current_active. destruct (watcher s) as [c|].
  - apply actives_all_equal_short.
  - intros H. rewrite (forallb_false_nil _ H). simpl. lia.
Qed.

(** X20. At most one watcher is ever active. In every state the server
    reaches from its start, through any sequence of connections, messages,
    root switches (accepted or rejected), watcher events, disconnections
    and changes on disk, no watcher is active except the one the variable
    [watcher] refers to. *)
Theorem at_most_one_active_watcher
        (d : entry) (here : segments) (o : outcome unit)
        (evs : list event) (s0 s : Server) :
  boot d here = Some (o, s0) ->
  steps evs s0 = Some s ->
  only_current_active s = true /\ List.length (actives s) <= 1.
Proof.
  intros B St.
  assert (Inv : only_current_active s = true).
  { eapply steps_keep_single_watch; [|exact St]. eapply boot_single_watch, B. }
  split; [exact Inv | apply only_current_active_short, Inv].
Qed.

Lemma at_most_one_active_watcher_witness :
  let evs := [Connection client1; SetProject (Some "/proj");
              SetProject (Some "/nowhere"); WatchChange (Some "a.txt");
              WatchError EACCES; SetProject (Some "/other"); Disconnect 1] in
  let s0 := demo_server [] in
  let s := match steps evs s0 with Some s => s | None => s0 end in
  boot demo_disk ["srv"; "app"] = Some (Ok tt, s0) /\
  steps evs s0 = Some s /\
  only_current_active s = true /\ List.length (actives s) <= 1.
Proof.
  cbv zeta. split; [reflexivity|]. split; [vm_compute; reflexivity|].
  apply (@at_most_one_active_watcher demo_disk ["srv"; "app"] (Ok tt)
           [Connection client1; SetProject (Some "/proj");
            SetProject (Some "/nowhere"); WatchChange (Some "a.txt");
            WatchError EACCES; SetProject (Some "/other"); Disconnect 1]
           (demo_server [])).
  - reflexivity.
  - vm_compute. reflexivity.
Defined.

(** ** The recent list in every reachable state *)

Lemma Set_add_NoDup x l : NoDup l -> NoDup (Set_add x l).
Proof.
  intros N. unfold Set_add. destruct (Set_has x l) eqn:Hx; [exact N|].
  apply NoDup_app; auto.
  - repeat constructor. simpl. tauto.
  - intros y Hy [<-|[]]. apply Set_has_In in Hy. congruence.
Qed.

Lemma fold_Set_add_NoDup names :
  forall l, NoDup l -> NoDup (fold_left (fun s x => Set_add x s) names l).
Proof.
  induction names as [|x names IH]; intros l N; simpl; [exact N|].
  apply IH, Set_add_NoDup, N.
Qed.

Lemma boot_recent_NoDup d here o s :
  boot d here = Some (o, s) -> NoDup (recentProjects s).
Proof.
  unfold boot, setupWatcher, hbind, gets, watch, modify. cbn [disk projectRoot].
  assert (N : NoDup match readdir d (join here RECENT_PROJECTS_FILE) with
                    | Ok names => fold_left (fun s x => Set_add x s) names []
                    | Throw _ => []
                    end).
  { destruct (readdir d _); [apply fold_Set_add_NoDup|]; constructor. }
  destruct (stat d _); intros [= <- <-]; exact N.
Qed.

(** A request leaves the recent list alone or records one selection. *)
Lemma setProject_recent p s :
  wp (setProject p)
     (fun _ s' =>
        recentProjects s' = recentProjects s \/
        exists x, recentProjects s' = recent_after x (recentProjects s)) s.
Proof.
  unfold setProject.
  repeat (wp_step; state_simpl).
  all: try (left; reflexivity).
  all: try ((eapply wp_mono; [apply currentStructure_spec|]);
    intros o s1 (F & C & msg & -> & D);
    apply wp_bind;
    (eapply wp_mono; [apply (broadcast_sends (fun _ => True)); exact I|]);
    intros [[]|?] s2 [F2 G2];
    pose proof (framed_trans F F2) as (_ & _ & _ & _ & _ & _ & Rc);
    state_simpl; repeat (wp_step; state_simpl)).
  all: right; eexists; unfold recent_after;
    match goal with H : Nat.ltb 10 _ = _ |- _ => rewrite H end;
    first [eassumption | reflexivity].
Qed.

Lemma step_recent ev s s' :
  step ev s = Some s' ->
  recentProjects s' = recentProjects s \/
  exists x, recentProjects s' = recent_after x (recentProjects s).
Proof.
  unfold step.
  destruct ev as [ws|i m|p|f|e|i|d]; simpl handle.
  - destruct (onConnection_spec ws s) as (o & s1 & E & F & _).
    rewrite E. intros [= <-]. left. apply F.
  - destruct (onMessage_spec i m s) as (o & s1 & E & F & _).
    rewrite E. intros [= <-]. left. apply F.
  - destruct (setProject_recent p s) as (o & s1 & E & R).
    unfold forget, hbind. rewrite E. destruct o; intros [= <-]; exact R.
  - destruct (onWatchChange_spec f s) as (o & s1 & E & F & _).
    rewrite E. intros [= <-]. left. apply F.
  - intros [= <-]. left. reflexivity.
  - intros [= <-]. left. reflexivity.
  - intros [= <-]. left. reflexivity.
Qed.

(** X21. The recent list stays a set of at most ten. If the server starts
    with at most 10 recent entries, then in every state it reaches,
    through any sequence of events, the recent list has no duplicate and
    at most 10 entries. *)
Theorem recent_list_stays_bounded
        (d : entry) (here : segments) (o : outcome unit)
        (evs : list event) (s0 s : Server) :
  boot d here = Some (o, s0) ->
  List.length (recentProjects s0) <= 10 ->
  steps evs s0 = Some s ->
  NoDup (recentProjects s) /\ List.length (recentProjects s) <= 10.
Proof.
  intros B L0 St.
  assert (I0 : NoDup (recentProjects s0) /\ List.length (recentProjects s0) <= 10)
    by (split; [eapply boot_recent_NoDup, B | exact L0]).
  clear B L0. revert s0 St I0.
  induction evs as [|ev evs IH]; intros s0 St I0; simpl in St.
  - injection St as <-. exact I0.
  - destruct (step ev s0) as [s1|] eqn:E; [|discriminate].
    apply (IH s1 St). destruct I0 as [N L].
    destruct (step_recent _ _ E) as [->|(x & ->)]; [auto|].
    destruct (recent_after_sound x N L) as (N' & _ & L'). auto.
Qed.

Lemma recent_list_stays_bounded_witness :
  let evs := [SetProject (Some "/proj"); SetProject (Some "/other");
              SetProject (Some "/proj"); SetProject (Some "/srv/app");
              SetProject (Some "/nowhere")] in
  let s0 := demo_server [] in
  let s := match steps evs s0 with Some s => s | None => s0 end in
  boot demo_disk ["srv"; "app"] = Some (Ok tt, s0) /\
  List.length (recentProjects s0) <= 10 /\
  steps evs s0 = Some s /\
  NoDup (recentProjects s) /\ List.length (recentProjects s) <= 10.
Proof.
  cbv zeta. split; [reflexivity|]. split; [simpl; lia|].
  split; [vm_compute; reflexivity|].
  apply (@recent_list_stays_bounded demo_disk ["srv"; "app"] (Ok tt)
           [SetProject (Some "/proj"); SetProject (Some "/other");
            SetProject (Some "/proj"); SetProject (Some "/srv/app");
            SetProject (Some "/nowhere")]
           (demo_server [])).
  - reflexivity.
  - simpl. lia.
  - vm_compute. reflexivity.
Defined.

(** ** The launcher's PID file *)

Lemma has_char_app c a b : has_char c (a ++ b) = has_char c a || has_char c b.
Proof.
  induction a as [|x a IH]; simpl; [reflexivity|].
  rewrite IH, orb_assoc. reflexivity.
Qed.

Lemma split_on_plain sep s : has_char sep s = false -> split_on sep s = [s].
Proof.
  induction s as [|c s IH]; simpl; [reflexivity|].
  intros H. apply orb_false_iff in H as [E H]. rewrite E, (IH H). reflexivity.
Qed.

Lemma split_on_cons sep s rest :
  has_char sep s = false ->
  split_on sep (s ++ String sep rest) = s :: split_on sep rest.
Proof.
  induction s as [|c s IH]; simpl.
  - intros _. rewrite Ascii.eqb_refl. reflexivity.
  - intros H. apply orb_false_iff in H as [E H]. rewrite E, (IH H). reflexivity.
Qed.

Lemma split_on_concat sep r :
  Forall (fun p => has_char sep p = false) r -> r <> [] ->
  split_on sep (String.concat (String sep "") r) = r.
Proof.
  induction r as [|x [|y r] IH]; intros H Hne; [congruence| |].
  - inversion H; subst. simpl. apply split_on_plain. assumption.
  - inversion H; subst.
    change (String.concat (String sep "") (x :: y :: r))
      with (x ++ String sep (String.concat (String sep "") (y :: r)))%string.
    rewrite split_on_cons by assumption.
    rewrite IH; [reflexivity | assumption | discriminate].
Qed.

Lemma split_on_pieces c sep s :
  (has_char c s = false \/ c = sep) ->
  Forall (fun p => has_char c p = false) (split_on sep s).
Proof.
  induction s as [|a s IH]; simpl; intros H; [repeat constructor|].
  assert (Hs : has_char c s = false \/ c = sep).
  { destruct H as [H | H]; [left | right; exact H].
    apply orb_false_iff in H. tauto. }
  specialize (IH Hs).
  destruct (Ascii.eqb a sep) eqn:E; [constructor; [reflexivity | exact IH]|].
  assert (Ha : Ascii.eqb a c = false).
  { destruct H as [H | ->]; [apply orb_false_iff in H; tauto | exact E]. }
  destruct (split_on sep s) as [|h t]; [repeat constructor; simpl; rewrite Ha; reflexivity|].
  inversion IH; subst. constructor; [simpl; rewrite Ha; assumption | assumption].
Qed.

Lemma split_on_not_nil sep s : split_on sep s <> [].
Proof.
  destruct s as [|a s]; simpl; [discriminate|].
  destruct (Ascii.eqb a sep); [discriminate|].
  destruct (split_on sep s); discriminate.
Qed.

(** *** The [Map] constructor *)

Lemma Map_set_fresh (V : Type) k (v : V) m :
  ~ In k (map fst m) -> Map_set k v m = m ++ [(k, v)].
Proof.
  induction m as [|[k' v'] m IH]; simpl; intros H; [reflexivity|].
  destruct (String.eqb_spec k' k) as [-> | _]; [tauto|].
  rewrite IH by tauto. reflexivity.
Qed.

Lemma Map_set_keys (V : Type) k (v : V) m k' :
  In k' (map fst (Map_set k v m)) -> k' = k \/ In k' (map fst m).
Proof.
  induction m as [|[k0 v0] m IH]; simpl; [intuition congruence|].
  destruct (String.eqb_spec k0 k) as [-> | _]; simpl; [intuition congruence|].
  intros [H | H]; [tauto | apply IH in H; tauto].
Qed.

Lemma Map_set_NoDup (V : Type) k (v : V) m :
  NoDup (map fst m) -> NoDup (map fst (Map_set k v m)).
Proof.
  induction m as [|[k0 v0] m IH]; simpl; intros H.
  - constructor; [tauto | constructor].
  - inversion H; subst.
    destruct (String.eqb_spec k0 k) as [-> | Hne]; simpl; [constructor; assumption|].
    constructor; [|apply IH; assumption].
    intros Hin. apply Map_set_keys in Hin as [E | Hin]; [congruence | tauto].
Qed.

Lemma fold_Map_set_distinct (V : Type) (l acc : list (string * V)) :
  NoDup (map fst (acc ++ l)) ->
  fold_left (fun m e => Map_set (fst e) (snd e) m) l acc = acc ++ l.
Proof.
  revert acc. induction l as [|[k v] l IH]; intros acc H; simpl.
  - rewrite app_nil_r. reflexivity.
  - rewrite Map_set_fresh.
    + rewrite IH; rewrite <- app_assoc; [reflexivity | exact H].
    + rewrite map_app in H. simpl in H. apply NoDup_remove_2 in H.
      intros Hin. apply H, in_or_app. left. exact Hin.
Qed.

Lemma fold_Map_set_keys (V : Type) (P : string -> Prop) (l acc : list (string * V)) :
  NoDup (map fst acc) -> Forall P (map fst acc) -> Forall P (map fst l) ->
  let m := fold_left (fun m e => Map_set (fst e) (snd e) m) l acc in
  NoDup (map fst m) /\ Forall P (map fst m).
Proof.
  revert acc. induction l as [|[k v] l IH]; intros acc N A L; simpl; [tauto|].
  inversion L; subst. apply IH; [apply Map_set_NoDup, N | | assumption].
  rewrite Forall_forall in *. intros k' Hin.
  apply Map_set_keys in Hin as [-> | Hin]; auto.
Qed.

(** *** Printing and reading a pid *)

Lemma digits_uint d acc :
  digits 10 (NilEmpty.string_of_uint d) (Some acc) = Some (Nat.of_uint_acc d acc).
Proof.
  revert acc.
  induction d as [|d IH|d IH|d IH|d IH|d IH|d IH|d IH|d IH|d IH|d IH]; intros acc;
    cbn [NilEmpty.string_of_uint digits Nat.of_uint_acc]; [reflexivity|..].
  all: match goal with
       | |- context [digit_in 10 ?c] =>
           let v := eval vm_compute in (digit_in 10 c) in
           change (digit_in 10 c) with v
       end;
       cbv iota beta; rewrite IH; f_equal; f_equal;
       rewrite Nat.tail_mul_spec; lia.
Qed.

Lemma to_uint_not_nil n : Nat.to_uint n <> Decimal.Nil.
Proof.
  rewrite <- (Unsigned.of_to n) at 1. rewrite Unsigned.to_of.
  apply DecimalFacts.unorm_nonnil.
Qed.

Ltac eval_chars :=
  repeat first
    [ progress cbv iota beta
    | progress cbn [orb digits skip_white_space NilEmpty.string_of_uint]
    | match goal with
      | |- context [is_white_space ?c] =>
          let v := eval vm_compute in (is_white_space c) in
          change (is_white_space c) with v
      | |- context [Ascii.eqb ?a ?b] =>
          let v := eval vm_compute in (Ascii.eqb a b) in
          change (Ascii.eqb a b) with v
      | |- context [digit_in 10 ?c] =>
          let v := eval vm_compute in (digit_in 10 c) in
          change (digit_in 10 c) with v
      end ].

Lemma parseInt_print n : parseInt (Some (print_pid (Some n))) = Some (Z.of_nat n).
Proof.
  unfold print_pid.
  pose proof (Unsigned.of_to n) as E. pose proof (@to_uint_not_nil n) as N.
  rewrite <- E at 2. clear E.
  destruct (Nat.to_uint n) as [|d|d|d|d|d|d|d|d|d|d]; [congruence|..].
  1: destruct d as [|d|d|d|d|d|d|d|d|d|d].
  all: unfold parseInt, Nat.of_uint; eval_chars; rewrite ?digits_uint;
       cbn [Nat.of_uint_acc]; reflexivity.
Qed.

Lemma print_pid_chars pid :
  has_char ":" (print_pid pid) = false /\ has_char LF (print_pid pid) = false.
Proof.
  destruct pid as [n|]; [|split; reflexivity]. simpl.
  induction (Nat.to_uint n); simpl; tauto.
Qed.

Lemma parse_line_saved name pid :
  has_char ":" name = false ->
  parse_line (name ++ ":" ++ print_pid pid) = loaded (name, pid).
Proof.
  intros H. unfold parse_line, loaded.
  change (name ++ ":" ++ print_pid pid)%string
    with (name ++ String ":" (print_pid pid))%string.
  rewrite split_on_cons by assumption.
  rewrite split_on_plain by apply print_pid_chars.
  simpl. f_equal. destruct pid as [n|]; [apply parseInt_print | reflexivity].
Qed.

Lemma filter_all (A : Type) (f : A -> bool) (l : list A) :
  (forall x, In x l -> f x = true) -> filter f l = l.
Proof.
  induction l as [|x l IH]; simpl; intros H; [reflexivity|].
  rewrite (H x) by tauto. rewrite IH by auto. reflexivity.
Qed.

Lemma parse_pid_lines ps :
  NoDup (map fst ps) ->
  forallb (fun e => pid_name (fst e)) ps = true ->
  parse_pids (Ok (pid_lines ps)) = map loaded ps.
Proof.
  intros N H. unfold parse_pids, pid_lines.
  destruct ps as [|e0 ps0]; [reflexivity|].
  set (ps := e0 :: ps0) in *.
  assert (Hl : Forall (fun e => has_char ":" (fst e) = false /\
                                has_char LF (fst e) = false) ps).
  { rewrite Forall_forall. intros e Hin.
    rewrite forallb_forall in H. specialize (H e Hin). unfold pid_name in H.
    apply andb_true_iff in H as [H1 H2].
    apply negb_true_iff in H1, H2. tauto. }
  assert (Hne : ps <> []) by discriminate.
  clearbody ps.
  rewrite split_on_concat.
  - assert (E : filter (fun line => negb (line =? "")%string)
                  (map (fun e => (fst e ++ ":" ++ print_pid (snd e))%string) ps)
                = map (fun e => (fst e ++ ":" ++ print_pid (snd e))%string) ps).
    { apply filter_all. intros line Hin.
      apply in_map_iff in Hin as [e [<- _]]. destruct (fst e); reflexivity. }
    rewrite E, map_map. clear E.
    assert (E : map (fun e => parse_line (fst e ++ ":" ++ print_pid (snd e))) ps
                = map loaded ps).
    { apply map_ext_in. intros [name pid] Hin.
      rewrite Forall_forall in Hl. apply parse_line_saved, (Hl _ Hin). }
    rewrite E. unfold new_Map. rewrite fold_Map_set_distinct; [reflexivity|].
    simpl. rewrite map_map. exact N.
  - rewrite Forall_forall. intros line Hin. apply in_map_iff in Hin as [e [<- Hin]].
    rewrite Forall_forall in Hl. destruct (Hl _ Hin) as [_ H2].
    rewrite !has_char_app, H2. simpl. apply print_pid_chars.
  - intros E. apply map_eq_nil in E. contradiction.
Qed.

Lemma parse_line_name line :
  has_char LF line = false -> pid_name (fst (parse_line line)) = true.
Proof.
  intros H. unfold parse_line.
  pose proof (split_on_pieces (c := ":") line (or_intror eq_refl)) as A.
  pose proof (split_on_pieces (sep := ":") line (or_introl H)) as B.
  pose proof (@split_on_not_nil ":" line) as C.
  destruct (split_on ":" line) as [|name [|pid rest]]; [congruence| |];
    inversion A; inversion B; subst; simpl; unfold pid_name;
    match goal with
    | H1 : has_char ":" name = false, H2 : has_char LF name = false |- _ =>
        rewrite H1, H2; reflexivity
    end.
Qed.

Lemma parse_pids_keys file :
  NoDup (map fst (parse_pids file)) /\
  Forall (fun name => pid_name name = true) (map fst (parse_pids file)).
Proof.
  destruct file as [content | e]; [|split; constructor].
  unfold parse_pids, new_Map.
  apply fold_Map_set_keys with (P := fun name => pid_name name = true);
    [constructor | constructor |].
  rewrite map_map, Forall_forall. intros name Hin.
  apply in_map_iff in Hin as [line [<- Hin]].
  apply filter_In in Hin as [Hin _].
  apply parse_line_name.
  pose proof (split_on_pieces (c := LF) content (or_intror eq_refl)) as A.
  rewrite Forall_forall in A. apply A, Hin.
Qed.

Lemma fold_treeKill (A : Type) (f : A -> number) (es : list A) (l : Launcher) :
  fold_left (fun l e => treeKill (f e) l) es l
  = mkLauncher (pidFile l) (locked l) (processes l) (killed l ++ map f es).
Proof.
  revert l. induction es as [|e es IH]; intros l; simpl.
  - rewrite app_nil_r. destruct l; reflexivity.
  - rewrite IH. simpl. rewrite <- app_assoc. reflexivity.
Qed.

(** X22. The PID file round-trips. When [savePids] succeeds, [loadPids]
    gives back the registry: the same names in the same order, each with
    its pid, and [NaN] for a process without a pid. This needs names
    without a colon or a line break, and pids that are safe integers. *)
Theorem pid_file_round_trip (l l' : Launcher) :
  NoDup (map fst (processes l)) ->
  forallb (fun e => pid_name (fst e) && safe_pid (snd e)) (processes l) = true ->
  savePids l = (Ok tt, l') ->
  loadPids l' = map loaded (processes l) /\ processes l' = processes l.
Proof.
  intros N H S. unfold savePids in S.
  destruct (locked l); [discriminate|]. inversion S; subst; clear S.
  split; [|reflexivity]. unfold loadPids, readFile. simpl.
  apply parse_pid_lines; [exact N|].
  rewrite forallb_forall in *. intros e Hin.
  specialize (H e Hin). apply andb_true_iff in H. tauto.
Qed.

Lemma pid_file_round_trip_witness :
  loadPids (snd (savePids (mkLauncher None false
                             [("server", Some 4242); ("vite", None)] [])))
  = [("server", Some 4242%Z); ("vite", None)].
Proof.
  apply (@pid_file_round_trip
           (mkLauncher None false [("server", Some 4242); ("vite", None)] [])
           _);
    [repeat constructor; simpl; intuition discriminate
    | vm_compute; reflexivity
    | reflexivity].
Defined.

(** X23. Whatever the PID file holds, and also when it is missing,
    [loadPids] returns a map whose names are distinct and contain neither
    a colon nor a line break. So a process registered under a name with a
    colon is never loaded under that name. *)
Theorem loaded_names_have_no_colon (l : Launcher) :
  NoDup (map fst (loadPids l)) /\
  Forall (fun name => pid_name name = true) (map fst (loadPids l)).
Proof.
  apply parse_pids_keys.
Qed.

(** X24. What [start] records. The launcher calls [start] with an empty
    registry. A [start] that can write hands every pid of a stale PID file
    to [treeKill]. At the moment its last save is written, writes reaching
    the file in the order in which they were started, [loadPids] reads
    from the file the registry as it was when that save was called:
    [vite], after [server] unless the [exit] event of [server] arrived
    during the one-second wait. The registry is the same, less the
    children whose [exit] events arrived while the save was being
    written. *)
Theorem start_records_both
        (server vite : option nat) (early : bool) (late : list string)
        (l l' : Launcher) :
  processes l = [] ->
  safe_pid server = true -> safe_pid vite = true ->
  start server vite early late l = (Ok tt, l') ->
  let saved := (if early then [] else [("server", server)]) ++ [("vite", vite)] in
  loadPids l' = map loaded saved /\
  processes l' = fold_left (fun m name => Map_delete name m) late saved /\
  killed l' = killed l ++ map snd (loadPids l).
Proof.
  intros P _ _ S. unfold start, onExit, savePids, startProcess in S.
  cbn [locked processes pidFile killed] in S.
  assert (L : locked (stopAll l) = false).
  { destruct (locked (stopAll l)); [|reflexivity].
    destruct early; discriminate. }
  rewrite L in S.
  assert (K : killed (stopAll l) = killed l ++ map snd (loadPids l)).
  { unfold stopAll. rewrite !fold_treeKill. cbn [processes killed].
    rewrite P. simpl. rewrite app_nil_r. reflexivity. }
  assert (R : processes (stopAll l) = []) by reflexivity.
  rewrite R in S. cbv zeta.
  destruct early; cbn [Map_set Map_delete filter app] in S;
    injection S as <-;
    cbn [processes killed pidFile locked];
    (split; [|split; [reflexivity | exact K]]);
    unfold loadPids, readFile; cbn [pidFile].
  - apply (@parse_pid_lines [("vite", vite)]);
      [repeat constructor; simpl; intuition discriminate | reflexivity].
  - apply (@parse_pid_lines [("server", server); ("vite", vite)]);
      [repeat constructor; simpl; intuition discriminate | reflexivity].
Qed.

Lemma start_records_both_witness :
  processes (snd (start (Some 311) None true []
                    (mkLauncher (Some "old:7") false [] [])))
  = [("vite", None)] /\
  processes (snd (start (Some 311) (Some 312) false ["vite"; "server"]
                    (mkLauncher (Some "old:7") false [] [])))
  = [].
Proof.
  split.
  - apply (@start_records_both (Some 311) None true []
             (mkLauncher (Some "old:7") false [] []) _); reflexivity.
  - apply (@start_records_both (Some 311) (Some 312) false ["vite"; "server"]
             (mkLauncher (Some "old:7") false [] []) _); reflexivity.
Defined.

(** ** The breadcrumb *)

Lemma string_app_nil_r (s : string) : (s ++ "")%string = s.
Proof.
  induction s as [|c s IH]; simpl; [reflexivity | rewrite IH; reflexivity].
Qed.

Lemma string_app_assoc (a b c : string) :
  (a ++ b ++ c)%string = ((a ++ b) ++ c)%string.
Proof.
  induction a as [|x a IH]; simpl; [reflexivity | rewrite IH; reflexivity].
Qed.

Lemma forEach_breadcrumb_items parts : forall index children currentPath,
  filter is_item
    (fst (forEach_index breadcrumb_part index parts (children, currentPath)))
  = filter is_item children
    ++ map (fun part => mkElement "breadcrumb-item" part (Some LocalCurrentPath))
           parts.
Proof.
  induction parts as [|part parts IH]; intros index children currentPath; simpl.
  - rewrite app_nil_r. reflexivity.
  - rewrite IH. destruct (Nat.ltb 0 index);
      rewrite ?filter_app; simpl; rewrite <- ?app_assoc; reflexivity.
Qed.

Lemma forEach_breadcrumb_path parts : forall index children currentPath,
  snd (forEach_index breadcrumb_part index parts (children, currentPath))
  = (currentPath ++ String.concat "" (map (fun part => "/" ++ part) parts))%string.
Proof.
  induction parts as [|part parts IH]; intros index children currentPath.
  - simpl. symmetry. apply string_app_nil_r.
  - cbn [forEach_index breadcrumb_part]. rewrite IH.
    destruct parts as [|part' parts].
    + simpl. rewrite !string_app_nil_r. reflexivity.
    + cbn [map String.concat]. rewrite <- !string_app_assoc. reflexivity.
Qed.

Lemma path_string_parts r :
  normalised r = true ->
  filter (fun part => negb (part =? "")%string) (split_slash (path_string r)) = r.
Proof.
  intros N. unfold path_string.
  change ("/" ++ String.concat "/" r)%string
    with (String "/"%char (String.concat "/" r)).
  cbn [split_slash]. rewrite Ascii.eqb_refl. cbn [filter String.eqb negb].
  assert (F : filter (fun part => negb (part =? "")%string) r = r).
  { apply filter_all. intros seg Hin. unfold normalised in N.
    rewrite forallb_forall in N. specialize (N seg Hin).
    unfold plain in N. rewrite !andb_true_iff in N. tauto. }
  destruct r as [|x r]; [reflexivity|].
  rewrite split_slash_concat; [exact F | | discriminate].
  rewrite Forall_forall. intros seg Hin. apply plain_no_slash.
  unfold normalised in N. rewrite forallb_forall in N. auto.
Qed.

Lemma path_string_concat r :
  r <> [] ->
  String.concat "" (map (fun part => "/" ++ part)%string r) = path_string r.
Proof.
  unfold path_string. induction r as [|x [|y r] IH]; intros Hne; [congruence| |].
  - reflexivity.
  - change (String.concat "" (map (fun part => "/" ++ part)%string (x :: y :: r)))
      with (("/" ++ x) ++ ""
            ++ String.concat "" (map (fun part => "/" ++ part)%string (y :: r)))%string.
    rewrite IH by discriminate. reflexivity.
Qed.

(** X25. Every crumb of the breadcrumb leads to the same place. For the
    path of a directory as the server prints it, the items of the
    breadcrumb are labelled [/] and then the segments of the path in
    order; a click on the first navigates to [/], and a click on any of
    the others, whatever ancestor it is labelled with, navigates to the
    whole path, because the handlers share the one variable
    [currentPath]. *)
Theorem breadcrumb_items_share_target (r : segments) :
  normalised r = true ->
  let items := filter is_item (fst (updateBreadcrumb (path_string r))) in
  map textContent items = "/" :: r /\
  map (click (path_string r)) items
  = Some "/" :: map (fun _ => Some (path_string r)) r.
Proof.
  intros N items. subst items.
  assert (E : snd (updateBreadcrumb (path_string r))
              = if match r with [] => true | _ => false end
                then "" else path_string r).
  { unfold updateBreadcrumb. rewrite path_string_parts by exact N.
    rewrite forEach_breadcrumb_path. destruct r as [|x r]; [reflexivity|].
    rewrite path_string_concat by discriminate. reflexivity. }
  unfold click. rewrite E. clear E.
  unfold updateBreadcrumb. rewrite path_string_parts by exact N.
  rewrite forEach_breadcrumb_items. cbn [filter is_item className String.eqb Ascii.eqb Bool.eqb app map textContent onclick].
  rewrite !map_map. cbn [textContent onclick]. rewrite map_id.
  split; [reflexivity|]. f_equal.
  destruct r as [|x r]; [reflexivity|]. reflexivity.
Qed.

Lemma breadcrumb_items_share_target_witness :
  map (click "/home/user/proj")
      (filter is_item (fst (updateBreadcrumb "/home/user/proj")))
  = [Some "/"; Some "/home/user/proj"; Some "/home/user/proj";
     Some "/home/user/proj"].
Proof.
  apply (@breadcrumb_items_share_target ["home"; "user"; "proj"]). reflexivity.
Defined.

(** ** Reconnection *)

(** X26. The page gives up after five reconnections in a row. From any
    state whose counter is within its bound, and through any sequence of
    close events and timers in which no socket opens, the counter is the
    number of closes seen, capped at five; one socket is made or one
    timer is pending for each time the counter went up; so at most five
    more sockets are ever made than were made or under way. *)
Theorem reconnection_gives_up (evs : list page_event) (p : Page) :
  reconnectAttempts p <= maxReconnectAttempts ->
  no_open evs = true ->
  let p' := fold_left page_step evs p in
  reconnectAttempts p'
  = Nat.min maxReconnectAttempts (reconnectAttempts p + closes evs) /\
  sockets p' + timers p'
  = sockets p + timers p + (reconnectAttempts p' - reconnectAttempts p) /\
  sockets p' <= sockets p + timers p + (maxReconnectAttempts - reconnectAttempts p).
Proof.
  unfold maxReconnectAttempts. revert p.
  induction evs as [|ev evs IH]; intros p B O; cbn [fold_left].
  - unfold closes. cbn [filter List.length]. lia.
  - simpl in O. apply andb_true_iff in O as [O1 O2].
    assert (Q : reconnectAttempts (page_step p ev)
                = Nat.min 5 (reconnectAttempts p
                             + closes [ev]) /\
                sockets (page_step p ev) + timers (page_step p ev)
                = sockets p + timers p
                  + (reconnectAttempts (page_step p ev) - reconnectAttempts p)).
    { destruct ev; [discriminate| |]; unfold closes; cbn [filter List.length].
      - unfold page_step, onclose, maxReconnectAttempts.
        destruct (Nat.ltb_spec (reconnectAttempts p) 5);
          cbn [reconnectAttempts sockets timers]; lia.
      - unfold page_step, connectWebSocket.
        destruct (timers p) eqn:T; cbn [reconnectAttempts sockets timers]; lia. }
    assert (C : closes (ev :: evs) = closes [ev] + closes evs).
    { unfold closes. cbn [filter]. destruct ev; reflexivity. }
    rewrite C. clear C. destruct Q as [Q1 Q2].
    specialize (IH (page_step p ev) ltac:(lia) O2). cbv zeta in IH |- *.
    lia.
Qed.

Lemma reconnection_gives_up_witness :
  sockets (fold_left page_step
             [SocketCloses; TimerFires; SocketCloses; SocketCloses; TimerFires;
              SocketCloses; SocketCloses; SocketCloses; SocketCloses; TimerFires;
              TimerFires; TimerFires; TimerFires]
             page_loaded) <= 6.
Proof.
  apply (@reconnection_gives_up
           [SocketCloses; TimerFires; SocketCloses; SocketCloses; TimerFires;
            SocketCloses; SocketCloses; SocketCloses; SocketCloses; TimerFires;
            TimerFires; TimerFires; TimerFires]
           page_loaded);
    [unfold maxReconnectAttempts; simpl; lia | reflexivity].
Defined.

(** * Handlers in segments *)

(** ** The suspended walk computes [getDirectoryStructure] *)

Lemma walk_path_app fs root a : forall w w1 b w2,
  walk_path fs root w a w1 -> walk_path fs root w1 b w2 ->
  walk_path fs root w (a ++ b) w2.
Proof.
  induction a as [|lg a IH]; intros w w1 b w2; simpl.
  - intros <-. auto.
  - intros (A & L & P) Q. eauto.
Qed.


Lemma return_to_frame dir nd rest structure stack result :
  return_to (mkFrame dir nd rest structure :: stack) result
  = next_item dir rest (structure ++ [set_children nd result]) stack.
Proof. destruct rest; reflexivity. Qed.

(** The loop of the builder and the loop of the suspended walk, side by
    side, for a walk of the subdirectories that is already known to agree. *)
Lemma for_of_walk_path fs root fuel dir :
  (forall sub r lg,
      gds fs root fuel sub = Some (Ok r, lg) ->
      forall stack, exists lgs,
        List.concat lgs = lg /\
        walk_path fs root (AwaitReaddir sub stack) lgs (return_to stack r)) ->
  forall items acc o lg,
    for_of items (visit fs root (gds fs root fuel) dir) acc = Some (o, lg) ->
    exists r, o = Ok r /\
      forall stack, exists lgs,
        List.concat lgs = lg /\
        walk_path fs root (next_item dir items acc stack) lgs (return_to stack r).
Proof.
  intros Hsub. induction items as [|item rest IH]; intros acc o lg; simpl.
  - intros [= <- <-]. exists acc. split; [reflexivity|].
    intros stack. exists []. split; reflexivity.
  - unfold bind. rewrite visit_cases.
    destruct (stat fs (join dir item)) as [stats|e] eqn:St.
    + destruct (ignored item) eqn:Ig.
      * destruct (for_of rest _ acc) as [[o2 lg2]|] eqn:E; [|discriminate].
        intros [= <- <-]. destruct (IH _ _ _ E) as (r & -> & Hr).
        exists r. split; [reflexivity|]. intros stack.
        destruct (Hr stack) as (lgs & C & P).
        exists ([] :: lgs). split; [simpl; rewrite C; reflexivity|].
        simpl. rewrite St, Ig. simpl. auto.
      * destruct (isDirectory stats) eqn:D.
        -- destruct (gds fs root fuel (join dir item)) as [[[kids|e] lgk]|] eqn:G;
             [| |discriminate].
           ++ destruct (for_of rest _ _) as [[o2 lg2]|] eqn:E; [|discriminate].
              intros [= <- <-]. destruct (IH _ _ _ E) as (r & -> & Hr).
              exists r. split; [reflexivity|]. intros stack.
              destruct (Hr stack) as (lgs & C & P).
              destruct (Hsub _ _ _ G
                          (mkFrame dir (node_of root dir item stats) rest acc
                             :: stack)) as (lgsk & Ck & Pk).
              rewrite return_to_frame in Pk.
              exists ([] :: lgsk ++ lgs). split.
              ** simpl. rewrite concat_app, Ck, C. reflexivity.
              ** simpl. rewrite St, Ig, D. simpl.
                 repeat split. eapply walk_path_app; eauto.
           ++ apply gds_never_throws in G as (r & Hr). discriminate.
        -- destruct (for_of rest _ _) as [[o2 lg2]|] eqn:E; [|discriminate].
           intros [= <- <-]. destruct (IH _ _ _ E) as (r & -> & Hr).
           exists r. split; [reflexivity|]. intros stack.
           destruct (Hr stack) as (lgs & C & P).
           exists ([] :: lgs). split; [simpl; rewrite C; reflexivity|].
           simpl. rewrite St, Ig, D. simpl. auto.
    + destruct (for_of rest _ acc) as [[o2 lg2]|] eqn:E; [|discriminate].
      intros [= <- <-]. destruct (IH _ _ _ E) as (r & -> & Hr).
      exists r. split; [reflexivity|]. intros stack.
      destruct (Hr stack) as (lgs & C & P).
      exists (["Error processing " ++ item]%string :: lgs).
      split; [simpl; rewrite C; reflexivity|].
      simpl. rewrite St. simpl. auto.
Qed.

(** Resumed step after step on a disk and under a root that stay as they
    are, the suspended walk returns what [getDirectoryStructure] returns,
    and writes the same lines. *)
Lemma gds_walk_path fs root fuel :
  forall dir r lg,
    gds fs root fuel dir = Some (Ok r, lg) ->
    forall stack, exists lgs,
      List.concat lgs = lg /\
      walk_path fs root (AwaitReaddir dir stack) lgs (return_to stack r).
Proof.
  induction fuel as [|fuel IH]; intros dir r lg; [discriminate|].
  rewrite gds_cases.
  destruct (readdir fs dir) as [items|e] eqn:R.
  - destruct (for_of items _ []) as [[o lg0]|] eqn:E; [|discriminate].
    destruct (@for_of_walk_path fs root fuel dir IH items [] o lg0 E)
      as (r0 & -> & Hr).
    intros [= <- <-] stack. destruct (Hr stack) as (lgs & C & P).
    exists ([] :: lgs). split; [simpl; rewrite C; reflexivity|].
    simpl. rewrite R. simpl. auto.
  - intros [= <- <-] stack. exists [["Error reading directory"]].
    split; [reflexivity|]. simpl. rewrite R. simpl. auto.
Qed.

Lemma walk_path_not_nil fs root dir stack lgs w' :
  walk_path fs root (AwaitReaddir dir stack) lgs (Returned w') -> lgs <> [].
Proof. destruct lgs; [discriminate 1 | discriminate]. Qed.

(** ** One handler among the others *)

Lemma land_awaiting k w s :
  awaiting w = true -> segment (land k w) s = Some (Walking w k, s).
Proof. destruct w; [reflexivity | reflexivity | discriminate]. Qed.

Lemma segment_resume_walk w k s :
  segment (resume (Walking w k)) s
  = segment (land k (fst (walk_step (disk s) (projectRoot s) w)))
            (set_console (console s ++ snd (walk_step (disk s) (projectRoot s) w)) s).
Proof. reflexivity. Qed.

Lemma run_task_app a : forall b t s,
  run_task (a ++ b) t s =
  match run_task a t s with
  | Some (t', s') => run_task b t' s'
  | None => None
  end.
Proof.
  induction a as [|e a IH]; intros b t s; simpl; [reflexivity|].
  destruct (segment (resume t) (e s)) as [[t' s']|]; [apply IH | reflexivity].
Qed.


Lemma weave_alone lgs : forall s,
  weave (repeat (fun s => s) (List.length lgs)) lgs s
  = set_console (console s ++ List.concat lgs) s.
Proof.
  induction lgs as [|lg lgs IH]; intros s; simpl.
  - symmetry. apply set_console_nil.
  - rewrite IH. apply set_console_twice.
Qed.

(** The handler follows its walk, whatever the others do in between to
    anything but the disk and the project root. *)
Lemma run_task_walk fs root k lgs : forall w w' env1 env2 s,
  walk_path fs root w lgs w' ->
  List.length env1 = List.length lgs -> Forall quiet env1 ->
  disk s = fs -> projectRoot s = root ->
  match segment (land k w) s with
  | Some (t, s1) => run_task (env1 ++ env2) t s1
  | None => None
  end
  = match segment (land k w') (weave env1 lgs s) with
    | Some (t, s1) => run_task env2 t s1
    | None => None
    end.
Proof.
  induction lgs as [|lg lgs IH]; intros w w' env1 env2 s P L Q D R.
  - destruct env1; [|discriminate]. simpl in P. subst w'. reflexivity.
  - destruct env1 as [|e env1]; [discriminate|].
    destruct P as (A & Lg & P). inversion Q as [|? ? Qe Qenv]; subst.
    destruct (Qe s) as [De Re].
    rewrite (land_awaiting k w s A). cbn [app run_task weave].
    rewrite segment_resume_walk, De, Re.
    apply IH; auto.
Qed.





(** ** What the last segment delivers *)






(** ** The root object and the root *)


Lemma quiet_id : quiet (fun s => s).
Proof. intros s. split; reflexivity. Qed.




(** The disk matters in the same way: a file added to [/proj] after the
    walk has listed the directory is not in the reply, though the root
    has not changed. *)
Example structure_message_lags_disk :
  option_map
    (fun w => (projectRoot (server w), map told (clients (server w)),
               root_names (server w)))
    (schedule
       [Arrives (Message 1 (Json (Some "getStructure")));
        Resumes 0;
        Arrives (DiskChange demo_disk_grown);
        Resumes 0; Resumes 0; Resumes 0; Resumes 0; Resumes 0]
       (at_rest (proj_server [client1])))
  = Some (["proj"],
          [[("proj", ["a.txt"; "sub"], ["a.txt"; "sub"])]],
          Some ["a.txt"; "sub"; "new.txt"]).
Proof. vm_compute; reflexivity. Qed.

(** ** Every walk returns *)

Lemma for_of_visit_total fs root dir items : forall acc,
  exists r lg,
    for_of items (visit fs root (gds fs root (S (height fs))) dir) acc
    = Some (Ok r, lg).
Proof.
  apply for_of_total. intros item acc _. rewrite visit_cases.
  destruct (stat fs (join dir item)) as [stats|e]; [|eauto].
  destruct (ignored item); [eauto|].
  destruct (isDirectory stats); [|eauto].
  destruct (getDirectoryStructure_total fs root (join dir item)) as (kids & lg & E).
  unfold getDirectoryStructure in E. rewrite E. eauto.
Qed.

Lemma loop_returns fs root dir items acc stack :
  (forall r, exists lgs r', walk_path fs root (return_to stack r) lgs (Returned r')) ->
  exists lgs r',
    walk_path fs root (next_item dir items acc stack) lgs (Returned r').
Proof.
  intros Hret.
  destruct (for_of_visit_total fs root dir items acc) as (r & lg & E).
  destruct (@for_of_walk_path fs root (S (height fs)) dir
              (gds_walk_path fs root (S (height fs))) items acc _ _ E)
    as (r0 & [= <-] & Hr).
  destruct (Hr stack) as (lgs & _ & P).
  destruct (Hret r) as (lgs' & r' & P').
  exists (lgs ++ lgs'), r'. eapply walk_path_app; eauto.
Qed.

Lemma return_returns fs root stack : forall r,
  exists lgs r', walk_path fs root (return_to stack r) lgs (Returned r').
Proof.
  induction stack as [|[dir nd rest structure] stack IH]; intros r.
  - exists [], r. reflexivity.
  - rewrite return_to_frame. apply loop_returns, IH.
Qed.

(** From wherever it is, on a disk that stays as it is, the walk returns
    after finitely many steps. *)
Lemma walk_returns fs root w :
  exists lgs r', walk_path fs root w lgs (Returned r').
Proof.
  destruct w as [dir stack|dir item rest structure stack|r].
  - destruct (getDirectoryStructure_total fs root dir) as (r & lg & E).
    destruct (gds_walk_path _ _ _ _ E stack) as (lgs & _ & P).
    destruct (return_returns fs root stack r) as (lgs' & r' & P').
    exists (lgs ++ lgs'), r'. eapply walk_path_app; eauto.
  - apply (@loop_returns fs root dir (item :: rest) structure stack).
    apply return_returns.
  - exists [], r. reflexivity.
Qed.

(** ** Segments always complete *)

Lemma segment_wp (m : H Task) (Q : Task -> Server -> Prop) s :
  wp m (fun o s' => match o with
                    | Ok t => Q t s'
                    | Throw e => Q (Finished (Throw e)) s'
                    end) s ->
  exists t s', segment m s = Some (t, s') /\ Q t s'.
Proof.
  intros ([t|e] & s' & E & HQ); unfold segment; rewrite E; eauto.
Qed.

Lemma ws_send_returns i msg s : exists o s', ws_send i msg s = Some (o, s').
Proof.
  destruct (@ws_send_sends (fun _ => True) i msg s I) as (o & s' & E & _). eauto.
Qed.

Lemma broadcast_returns msg s :
  exists o s', broadcastToClients msg s = Some (o, s').
Proof.
  destruct (@broadcast_sends (fun _ => True) msg s I) as (o & s' & E & _). eauto.
Qed.

Lemma finish_finished k structure s :
  exists t s', segment (finish k structure) s = Some (t, s') /\ finished t = true.
Proof.
  destruct k as [i|i| |]; unfold finish, answer_500, segment, hbind, htry, gets,
    console_log, modify, hret.
  - destruct (ws_send_returns i
                (MsgStructure (mkContent (base (projectRoot s)) "/" directory structure))
                s) as ([[]|e] & s1 & ->); [eauto|].
    destruct (ws_send_returns i (MsgError "Failed to load project structure")
                (set_console (console s1 ++ ["Error sending initial structure"]) s1))
      as ([[]|e'] & s2 & ->); eauto.
  - destruct (ws_send_returns i
                (MsgStructure (mkContent (base (projectRoot s)) "/" directory structure))
                s) as ([[]|e] & s1 & ->); [eauto|].
    destruct (ws_send_returns i (MsgError "Failed to process request")
                (set_console (console s1 ++ ["Error handling message"]) s1))
      as ([[]|e'] & s2 & ->); eauto.
  - destruct (broadcast_returns
                (MsgStructure (mkContent (base (projectRoot s)) "/" directory structure))
                s) as ([[]|e] & s1 & ->); eauto.
  - destruct (broadcast_returns
                (MsgStructure (mkContent (base (projectRoot s)) "/" directory structure))
                s) as ([[]|e] & s1 & ->); eauto.
Qed.

(** Left alone, a handler that walks reaches its end. *)
Lemma walking_settles w k s :
  exists n t s',
    run_task (repeat (fun s => s) n) (Walking w k) s = Some (t, s') /\
    finished t = true.
Proof.
  destruct (awaiting w) eqn:A.
  - destruct (walk_returns (disk s) (projectRoot s) w) as (lgs & r & P).
    pose proof (@run_task_walk (disk s) (projectRoot s) k lgs w (Returned r)
                  (repeat (fun s => s) (List.length lgs)) [] s P) as Hrun.
    rewrite app_nil_r, repeat_length in Hrun.
    specialize (Hrun eq_refl).
    assert (Q : Forall quiet (repeat (fun s : Server => s) (List.length lgs))).
    { apply Forall_forall. intros e He. apply repeat_spec in He. subst e.
      apply quiet_id. }
    specialize (Hrun Q eq_refl eq_refl).
    rewrite (land_awaiting k w s A) in Hrun.
    destruct (finish_finished k r (weave (repeat (fun s => s) (List.length lgs)) lgs s))
      as (t & s' & E & F).
    cbn [land] in Hrun. rewrite E in Hrun. simpl in Hrun. eauto.
  - destruct w as [| |r]; try discriminate.
    destruct (finish_finished k r (set_console (console s ++ []) s))
      as (t & s' & E & F).
    exists 1, t, s'. split; [|exact F]. cbn [repeat run_task].
    rewrite segment_resume_walk. cbn [walk_step fst snd land]. rewrite E.
    reflexivity.
Qed.

(** ** All the handlers together *)

Lemma schedule_app a : forall b w,
  schedule (a ++ b) w =
  match schedule a w with
  | Some w' => schedule b w'
  | None => None
  end.
Proof.
  induction a as [|x a IH]; intros b w; simpl; [reflexivity|].
  destruct (act x w); [apply IH | reflexivity].
Qed.

Lemma nth_error_replace_nth (A : Type) (l : list A) : forall j x y,
  nth_error l j = Some y -> nth_error (replace_nth j x l) j = Some x.
Proof.
  induction l as [|z l IH]; intros [|j] x y; simpl; try discriminate; eauto.
Qed.

Lemma replace_nth_twice (A : Type) (l : list A) : forall j x y,
  replace_nth j x (replace_nth j y l) = replace_nth j x l.
Proof.
  induction l as [|z l IH]; intros [|j] x y; simpl; try reflexivity.
  rewrite IH. reflexivity.
Qed.

Lemma replace_nth_same (A : Type) (l : list A) : forall j x,
  nth_error l j = Some x -> replace_nth j x l = l.
Proof.
  induction l as [|z l IH]; intros [|j] x; simpl; try discriminate.
  - intros [= ->]. reflexivity.
  - intros E. rewrite (IH _ _ E). reflexivity.
Qed.

Lemma Forall_replace_nth (A : Type) (P : A -> Prop) (l : list A) : forall j x,
  Forall P l -> P x -> Forall P (replace_nth j x l).
Proof.
  induction l as [|z l IH]; intros [|j] x F Px; simpl; auto;
    inversion F; subst; constructor; auto.
Qed.

Lemma unfinished_replace_nth (l : list Task) : forall j t t',
  nth_error l j = Some t ->
  List.length (filter (fun t => negb (finished t)) (replace_nth j t' l))
  + (if finished t then 0 else 1)
  = List.length (filter (fun t => negb (finished t)) l)
    + (if finished t' then 0 else 1).
Proof.
  induction l as [|z l IH]; intros [|j] t t'; simpl; try discriminate.
  - intros [= ->]. destruct (finished t), (finished t'); simpl; lia.
  - intros E. specialize (IH _ _ t' E).
    destruct (finished z); simpl; lia.
Qed.

Lemma unfinished_exists (l : list Task) :
  0 < List.length (filter (fun t => negb (finished t)) l) ->
  exists j t, nth_error l j = Some t /\ finished t = false.
Proof.
  induction l as [|z l IH]; simpl; [lia|].
  destruct (finished z) eqn:F; simpl.
  - intros H. destruct (IH H) as (j & t & E & Ft). exists (S j), t. auto.
  - intros _. exists 0, z. auto.
Qed.

(** A handler resumed again and again while the others wait. *)
Lemma schedule_resumes n : forall j t t' s' w,
  nth_error (pending w) j = Some t ->
  run_task (repeat (fun s => s) n) t (server w) = Some (t', s') ->
  schedule (repeat (Resumes j) n) w
  = Some (mkWorld s' (replace_nth j t' (pending w))).
Proof.
  induction n as [|n IH]; intros j t t' s' w E; simpl.
  - intros [= <- <-]. rewrite (replace_nth_same _ _ E). destruct w; reflexivity.
  - rewrite E. destruct (segment (resume t) (server w)) as [[t1 s1]|]; [|discriminate].
    intros R.
    rewrite (IH j t1 t' s' (mkWorld s1 (replace_nth j t1 (pending w))));
      [|apply (nth_error_replace_nth _ _ _ E) | exact R].
    cbn [pending]. rewrite replace_nth_twice. reflexivity.
Qed.

(** ** Bursts of raw events, interleaved *)

Lemma heard_healthy a b cs cs' :
  healthy cs -> Forall2 (heard a b) cs cs' -> healthy cs'.
Proof.
  intros [N F] H2. split.
  - assert (E : map id cs' = map id cs).
    { clear N F. induction H2 as [|c c' l l' (I & _) _ IH]; simpl; congruence. }
    rewrite E. exact N.
  - intros c' Hin Ho.
    assert (Hc : exists c, In c cs /\ readyState c' = readyState c /\
                           sendFails c' = sendFails c).
    { clear N F Ho. induction H2 as [|c0 c0' l l' (I & R & Sf & _) _ IH];
        [destruct Hin|].
      destruct Hin as [<-|Hin]; [exists c0; simpl; auto|].
      destruct (IH Hin) as (c & Hc & Hr). exists c. simpl. auto. }
    destruct Hc as (c & Hc & R & Sf). rewrite Sf. apply F; congruence.
Qed.

Lemma heard_change a b f cs cs' :
  Forall2 (heard a b) cs cs' ->
  Forall2 (heard (S a) b) cs (map (hears (MsgFileChange f)) cs').
Proof.
  induction 1 as [|c c' l l' (I & R & Sf & extra & E & X) _ IH]; simpl;
    constructor; auto.
  unfold hears. rewrite R.
  destruct (Nat.eqb (readyState c) OPEN) eqn:O.
  - repeat split; auto. exists (extra ++ [MsgFileChange f]). simpl.
    rewrite E, app_assoc. split; [reflexivity|].
    rewrite O. destruct X as (X1 & X2 & X3).
    rewrite !filter_app, !length_app. simpl. lia.
  - repeat split; auto. exists extra. rewrite O. auto.
Qed.

Lemma heard_structure a b content cs cs' :
  Forall2 (heard a b) cs cs' ->
  Forall2 (heard a (S b)) cs (map (hears (MsgStructure content)) cs').
Proof.
  induction 1 as [|c c' l l' (I & R & Sf & extra & E & X) _ IH]; simpl;
    constructor; auto.
  unfold hears. rewrite R.
  destruct (Nat.eqb (readyState c) OPEN) eqn:O.
  - repeat split; auto. exists (extra ++ [MsgStructure content]). simpl.
    rewrite E, app_assoc. split; [reflexivity|].
    rewrite O. destruct X as (X1 & X2 & X3).
    rewrite !filter_app, !length_app. simpl. lia.
  - repeat split; auto. exists extra. rewrite O. auto.
Qed.

Lemma heard_nothing cs : Forall2 (heard 0 0) cs cs.
Proof.
  induction cs as [|c cs IH]; constructor; auto.
  repeat split. exists []. rewrite app_nil_r. split; [reflexivity|].
  destruct (Nat.eqb (readyState c) OPEN); auto.
Qed.

(** The first segment of the callback among healthy sockets: the notice
    goes out and the walk is under way. *)
Lemma watch_arrives_healthy f s :
  healthy (clients s) -> reported f = true ->
  segment (arrive (WatchChange (Some f))) s
  = Some (Walking (AwaitReaddir (projectRoot s) []) Notify,
          set_clients (map (hears (MsgFileChange f)) (clients s))
                      (set_console (console s ++ ["File " ++ f ++ " changed"]%string) s)).
Proof.
  intros Hh Hr. unfold reported in Hr.
  apply andb_true_iff in Hr as [Hne Hin]. apply negb_true_iff in Hne, Hin.
  unfold segment, arrive, onWatchChange_arrive. rewrite Hne, Hin.
  unfold hbind at 1, console_log, modify, htry, hbind at 1.
  rewrite broadcast_healthy by exact Hh. reflexivity.
Qed.

(** A raw event without a reported name ends in its first segment. *)
Lemma watch_arrives_unreported filename s :
  match filename with Some f => reported f | None => false end = false ->
  segment (arrive (WatchChange filename)) s = Some (Finished (Ok tt), s).
Proof.
  destruct filename as [f|]; [|reflexivity].
  unfold reported, segment, arrive, onWatchChange_arrive. intros Hr.
  destruct (f =? "")%string; [reflexivity|].
  destruct (includes f "node_modules" || includes f ".git"); [reflexivity|].
  discriminate.
Qed.

(** The last segment of the callback among healthy sockets. *)
Lemma notify_healthy structure s :
  healthy (clients s) ->
  segment (finish Notify structure) s
  = Some (Finished (Ok tt),
          set_clients (map (hears (structure_message s structure)) (clients s)) s).
Proof.
  intros Hh. unfold segment, finish, hbind at 1, htry, hbind at 1, gets.
  rewrite broadcast_healthy by exact Hh. reflexivity.
Qed.

(** One action of a burst keeps the account: every open socket has heard
    one notice per raw event and one tree per callback that has ended. *)
Lemma burst_step s0 a b w x :
  healthy (clients s0) ->
  Forall2 (heard a b) (clients s0) (clients (server w)) ->
  a = b + in_flight w ->
  callbacks_only w ->
  burst_action x = true ->
  exists w' b',
    act x w = Some w' /\
    Forall2 (heard (a + notices [x]) b') (clients s0) (clients (server w')) /\
    a + notices [x] = b' + in_flight w' /\
    callbacks_only w'.
Proof.
  intros H0 Hh Hab Hc Hx.
  pose proof (heard_healthy H0 Hh) as Hnow.
  destruct x as [ev|j]; simpl in Hx.
  - destruct ev as [ | | |filename| | |d]; try discriminate.
    + destruct (match filename with Some f => reported f | None => false end)
        eqn:Hr.
      * destruct filename as [f|]; [|discriminate].
        unfold act. cbn [listens].
        rewrite (watch_arrives_healthy f (server w) Hnow Hr).
        eexists; exists b. split; [reflexivity|]. cbn [server pending clients].
        unfold notices, in_flight, callbacks_only in *.
        cbn [filter]. rewrite Hr.
        cbn [List.length pending set_clients clients].
        rewrite filter_app, length_app. cbn [filter finished negb List.length].
        split; [rewrite Nat.add_1_r; apply heard_change, Hh|].
        split; [lia|]. apply Forall_app. split; [exact Hc|].
        constructor; [right; eauto | constructor].
      * unfold act. cbn [listens].
        rewrite (watch_arrives_unreported filename (server w) Hr).
        eexists; exists b. split; [reflexivity|]. cbn [server pending clients].
        unfold notices, in_flight, callbacks_only in *.
        assert (N0 : filter (fun a => match a with
                                      | Arrives (WatchChange (Some f)) => reported f
                                      | _ => false
                                      end) [Arrives (WatchChange filename)] = [])
          by (destruct filename as [f|]; cbn [filter]; [rewrite Hr|]; reflexivity).
        rewrite N0. cbn [List.length pending].
        rewrite filter_app, length_app. cbn [filter finished negb List.length].
        rewrite !Nat.add_0_r. split; [exact Hh|]. split; [exact Hab|].
        apply Forall_app. split; [exact Hc|].
        constructor; [left; reflexivity | constructor].
    + eexists; exists b. split; [reflexivity|]. cbn [server pending clients].
      unfold notices, in_flight, callbacks_only in *.
      cbn [filter List.length pending set_disk clients].
      rewrite filter_app, length_app. cbn [filter finished negb List.length].
      rewrite !Nat.add_0_r. split; [exact Hh|]. split; [exact Hab|].
      apply Forall_app. split; [exact Hc|]. constructor; [left; reflexivity | constructor].
  - unfold act, notices. cbn [filter List.length]. rewrite Nat.add_0_r.
    destruct (nth_error (pending w) j) as [t|] eqn:E; [|exists w, b; auto].
    assert (Ht : finished t = true \/ exists wk, t = Walking wk Notify).
    { unfold callbacks_only in Hc. rewrite Forall_forall in Hc.
      apply Hc. eapply nth_error_In; eauto. }
    destruct Ht as [Ft | (wk & ->)].
    + assert (R : segment (resume t) (server w) = Some (t, server w))
        by (destruct t; try discriminate; reflexivity).
      rewrite R, (replace_nth_same _ _ E). exists (mkWorld (server w) (pending w)), b.
      auto.
    + rewrite segment_resume_walk.
      set (w1 := fst (walk_step _ _ wk)). set (s1 := set_console _ _).
      assert (H1 : healthy (clients s1)) by exact Hnow.
      pose proof (unfinished_replace_nth (pending w) j) as Hcount.
      destruct (awaiting w1) eqn:A.
      * rewrite (land_awaiting Notify w1 s1 A).
        eexists; exists b. split; [reflexivity|]. cbn [server pending].
        split; [exact Hh|]. unfold in_flight, callbacks_only in *. cbn [pending].
        specialize (Hcount _ (Walking w1 Notify) E). cbn [finished] in Hcount.
        split; [lia|]. apply Forall_replace_nth; [exact Hc | right; eauto].
      * destruct w1 as [| |r]; try discriminate. cbn [land].
        rewrite (notify_healthy r s1 H1).
        eexists; exists (S b). split; [reflexivity|]. cbn [server pending].
        split; [apply heard_structure, Hh|].
        unfold in_flight, callbacks_only in *. cbn [pending].
        specialize (Hcount _ (Finished (Ok tt)) E). cbn [finished] in Hcount.
        split; [lia|]. apply Forall_replace_nth; [exact Hc | left; reflexivity].
Qed.

Lemma notices_cons x acts : notices (x :: acts) = notices [x] + notices acts.
Proof.
  unfold notices. cbn [filter].
  destruct x as [[ | | |[f|]| | | ]|]; try reflexivity.
  destruct (reported f); reflexivity.
Qed.

Lemma burst_schedule s0 acts : forall a b w,
  healthy (clients s0) ->
  Forall2 (heard a b) (clients s0) (clients (server w)) ->
  a = b + in_flight w ->
  callbacks_only w ->
  forallb burst_action acts = true ->
  exists w' b',
    schedule acts w = Some w' /\
    Forall2 (heard (a + notices acts) b') (clients s0) (clients (server w')) /\
    a + notices acts = b' + in_flight w' /\
    callbacks_only w'.
Proof.
  induction acts as [|x acts IH]; intros a b w H0 Hh Hab Hc Hx.
  - exists w, b. unfold notices. simpl. rewrite Nat.add_0_r. auto.
  - simpl in Hx. apply andb_true_iff in Hx as [Hx Hrest].
    destruct (@burst_step s0 a b w x H0 Hh Hab Hc Hx)
      as (w1 & b1 & E1 & Hh1 & Hab1 & Hc1).
    destruct (IH _ _ _ H0 Hh1 Hab1 Hc1 Hrest) as (w' & b' & E & Hh' & Hab' & Hc').
    exists w', b'. cbn [schedule]. rewrite E1, notices_cons, Nat.add_assoc. auto.
Qed.

(** The callbacks that are under way can always be brought to their end. *)
Lemma burst_completes k : forall w,
  in_flight w = k -> callbacks_only w ->
  exists rest w'',
    forallb is_resume rest = true /\
    schedule rest w = Some w'' /\ in_flight w'' = 0.
Proof.
  induction k as [|k IH]; intros w Hk Hc.
  - exists [], w. auto.
  - destruct (@unfinished_exists (pending w)) as (j & t & E & Ft);
      [unfold in_flight in Hk; lia|].
    assert (Ht : finished t = true \/ exists wk, t = Walking wk Notify).
    { unfold callbacks_only in Hc. rewrite Forall_forall in Hc.
      apply Hc. eapply nth_error_In; eauto. }
    destruct Ht as [Ft' | (wk & ->)]; [congruence|].
    destruct (walking_settles wk Notify (server w)) as (n & t' & s' & R & F').
    pose proof (schedule_resumes n j w E R) as Sch.
    destruct (IH (mkWorld s' (replace_nth j t' (pending w)))) as (rest & w'' & Hr & S2 & Z).
    + pose proof (unfinished_replace_nth (pending w) j t' E) as Hcount.
      unfold in_flight in *. cbn [pending finished] in *. rewrite F' in Hcount. lia.
    + unfold callbacks_only in *. cbn [pending].
      apply Forall_replace_nth; auto.
    + exists (repeat (Resumes j) n ++ rest), w''.
      split; [|split; [rewrite schedule_app, Sch; exact S2 | exact Z]].
      rewrite forallb_app, Hr, andb_true_r.
      apply forallb_forall. intros x Hx. apply repeat_spec in Hx. subst x.
      reflexivity.
Qed.

Lemma resumes_are_burst rest :
  forallb is_resume rest = true ->
  forallb burst_action rest = true /\ notices rest = 0.
Proof.
  induction rest as [|x rest IH]; simpl; [auto|].
  intros H. apply andb_true_iff in H as [Hx Hr].
  destruct x as [ev|j]; [discriminate|].
  destruct (IH Hr) as [B N]. rewrite notices_cons, N. simpl. auto.
Qed.

(** C2, as the code has it. The watcher's callback runs once per raw
    event and nothing is coalesced. Take a burst of raw events, handled
    while no [send] raises and the same sockets stay connected, and let
    the callbacks interleave in any way, the disk changing meanwhile. At
    every moment each open socket has received one ['fileChange'] message
    per raw event with a reported file name and one ['structure'] message
    per callback that has reached the end of its walk, and a socket that
    is not open has received nothing. The callbacks under way can always
    be brought to their end, and then each open socket has received two
    messages per such event: a burst of [n] events gives [2 * n] messages,
    [n] of them change notices. *)
Theorem burst_is_not_coalesced (acts : list action) (s : Server) :
  healthy (clients s) ->
  forallb burst_action acts = true ->
  exists w',
    schedule acts (at_rest s) = Some w' /\
    in_flight w' <= notices acts /\
    Forall2 (heard (notices acts) (notices acts - in_flight w'))
            (clients s) (clients (server w')) /\
    exists rest w'',
      forallb is_resume rest = true /\
      schedule (acts ++ rest) (at_rest s) = Some w'' /\
      in_flight w'' = 0 /\
      Forall2 (heard (notices acts) (notices acts))
              (clients s) (clients (server w'')).
Proof.
  intros H0 Hx.
  assert (Hc0 : callbacks_only (at_rest s)) by constructor.
  destruct (@burst_schedule s acts 0 0 (at_rest s) H0 (heard_nothing (clients s))
              eq_refl Hc0 Hx) as (w' & b' & E & Hh & Hab & Hc).
  simpl in Hh, Hab. exists w'. split; [exact E|]. split; [lia|].
  split; [replace (notices acts - in_flight w') with b' by lia; exact Hh|].
  destruct (@burst_completes (in_flight w') w' eq_refl Hc) as (rest & w'' & Hr & S2 & Z).
  exists rest, w''. split; [exact Hr|].
  split; [rewrite schedule_app, E; exact S2|]. split; [exact Z|].
  destruct (resumes_are_burst rest Hr) as [Br Nr].
  destruct (@burst_schedule s rest (notices acts) b' w' H0 Hh Hab Hc Br)
    as (w3 & b3 & E3 & Hh3 & Hab3 & _).
  rewrite S2 in E3. injection E3 as <-.
  rewrite Nr, Nat.add_0_r in Hh3, Hab3. rewrite Z in Hab3.
  replace b3 with (notices acts) in Hh3 by lia. exact Hh3.
Qed.

Lemma burst_is_not_coalesced_witness :
  let acts := repeat (Arrives (WatchChange (Some "src/a.js"))) 100
              ++ [Resumes 99; Resumes 0; Resumes 99;
                  Arrives (WatchChange (Some ".git/index"));
                  Arrives (DiskChange demo_disk_later); Resumes 7] in
  let s := demo_server [client1; client2_closed] in
  healthy (clients s) /\
  forallb burst_action acts = true /\
  exists w',
    schedule acts (at_rest s) = Some w' /\
    in_flight w' <= notices acts /\
    Forall2 (heard (notices acts) (notices acts - in_flight w'))
            (clients s) (clients (server w')) /\
    exists rest w'',
      forallb is_resume rest = true /\
      schedule (acts ++ rest) (at_rest s) = Some w'' /\
      in_flight w'' = 0 /\
      Forall2 (heard (notices acts) (notices acts))
              (clients s) (clients (server w'')).
Proof.
  cbv zeta.
  assert (Hh : healthy (clients (demo_server [client1; client2_closed]))).
  { split; simpl.
    - repeat constructor; simpl; intuition discriminate.
    - intros c [<-|[<-|[]]] _; reflexivity. }
  split; [exact Hh|]. split; [vm_compute; reflexivity|].
  apply (@burst_is_not_coalesced
           (repeat (Arrives (WatchChange (Some "src/a.js"))) 100
            ++ [Resumes 99; Resumes 0; Resumes 99;
                Arrives (WatchChange (Some ".git/index"));
                Arrives (DiskChange demo_disk_later); Resumes 7])
           (demo_server [client1; client2_closed]) Hh).
  vm_compute. reflexivity.
Defined.

(** ** Uninterrupted, the segments are the handler in one piece *)

Lemma htry_hbind {A B} (m : H A) (f : A -> H B) (h : error -> H B) s :
  htry (hbind m f) h s =
  match m s with
  | Some (Ok a, s1) => htry (f a) h s1
  | Some (Throw e, s1) => h e s1
  | None => None
  end.
Proof.
  unfold htry, hbind. destruct (m s) as [[[a|e] s1]|]; reflexivity.
Qed.

Section Refinement.
Context {X : Type}.
Variable fin : outcome X -> Task.
Hypothesis fin_throws : forall e, fin (Throw e) = Finished (Throw e).

Lemma refines_ext (A A' : H X) (B B' : H Task) s :
  A s = A' s -> B s = B' s -> refines fin A' B' s -> refines fin A B s.
Proof.
  unfold refines, segment. intros -> ->. auto.
Qed.

(** Both go through the same operation first. *)
Lemma refines_bind {Y} (m : H Y) (fa : Y -> H X) (fb : Y -> H Task) s :
  (forall a s1, m s = Some (Ok a, s1) -> refines fin (fa a) (fb a) s1) ->
  refines fin (hbind m fa) (hbind m fb) s.
Proof.
  intros Hok o s'. unfold refines, segment, hbind in *.
  destruct (m s) as [[[a|e] s1]|]; [apply Hok; reflexivity | | discriminate].
  intros [= <- <-]. exists 0, (Finished (Throw e)), s1.
  rewrite fin_throws. auto.
Qed.

(** The same, inside a [try] whose [catch] blocks agree. *)
Lemma refines_try_bind {Y} (m : H Y) (fa : Y -> H X) (fb : Y -> H Task)
      (ha : error -> H X) (hb : error -> H Task) s :
  (forall a s1, m s = Some (Ok a, s1) ->
                refines fin (htry (fa a) ha) (htry (fb a) hb) s1) ->
  (forall e s1, m s = Some (Throw e, s1) -> refines fin (ha e) (hb e) s1) ->
  refines fin (htry (hbind m fa) ha) (htry (hbind m fb) hb) s.
Proof.
  intros Hok Hthrow o s'. unfold refines, segment in *. rewrite !htry_hbind.
  destruct (m s) as [[[a|e] s1]|]; [apply Hok | apply Hthrow | discriminate];
    reflexivity.
Qed.


End Refinement.

(** The walk, uninterrupted, is [getDirectoryStructure]. *)
Lemma walk_alone k s structure lg :
  getDirectoryStructure (disk s) (projectRoot s) (projectRoot s)
  = Some (Ok structure, lg) ->
  exists n,
    forall m t' s',
      match segment (finish k structure) (set_console (console s ++ lg) s) with
      | Some (t, s1) => run_task (repeat (fun s => s) m) t s1
      | None => None
      end = Some (t', s') ->
      run_task (repeat (fun s => s) (n + m))
               (Walking (AwaitReaddir (projectRoot s) []) k) s
      = Some (t', s').
Proof.
  intros E. destruct (gds_walk_path _ _ _ _ E []) as (lgs & C & P).
  exists (List.length lgs). intros m t' s' Hfin.
  pose proof (@run_task_walk (disk s) (projectRoot s) k lgs _ _
                (repeat (fun s => s) (List.length lgs))
                (repeat (fun s => s) m) s P) as Hrun.
  rewrite repeat_length in Hrun. specialize (Hrun eq_refl).
  assert (Q : Forall quiet (repeat (fun s : Server => s) (List.length lgs))).
  { apply Forall_forall. intros e He. apply repeat_spec in He. subst e.
    apply quiet_id. }
  specialize (Hrun Q eq_refl eq_refl).
  rewrite weave_alone, C, <- repeat_app in Hrun.
  rewrite (land_awaiting k (AwaitReaddir (projectRoot s) []) s eq_refl) in Hrun.
  cbn [return_to land] in Hrun. rewrite Hrun. exact Hfin.
Qed.

(** The handler in one piece builds the message and goes on with it; the
    segments walk and then run their last segment. *)
Lemma refines_walk {X} (fin : outcome X -> Task)
      (K : message -> H X) (ha : error -> H X) (k : after_walk) s :
  (forall structure lg,
      getDirectoryStructure (disk s) (projectRoot s) (projectRoot s)
      = Some (Ok structure, lg) ->
      refines fin (htry (K (structure_message s structure)) ha)
              (finish k structure) (set_console (console s ++ lg) s)) ->
  refines fin (htry (msg <~ currentStructure ;; K msg) ha) (call_walk k) s.
Proof.
  intros Hfin o s'.
  destruct (getDirectoryStructure_total (disk s) (projectRoot s) (projectRoot s))
    as (structure & lg & E).
  rewrite htry_hbind, (currentStructure_eq _ E). intros HA.
  destruct (Hfin _ _ E o s' HA) as (n & t & s1 & Sg & Rn).
  destruct (walk_alone k s E) as (n0 & Hwalk).
  exists (n0 + n), (Walking (AwaitReaddir (projectRoot s) []) k), s.
  split; [reflexivity|]. apply Hwalk. rewrite Sg. exact Rn.
Qed.

Lemma refines_finish_unit (A A' : H unit) s :
  A' s = A s ->
  refines Finished A (A' ;;> hret (Finished (Ok tt))) s.
Proof.
  intros E o s' HA. exists 0, (Finished o), s'.
  unfold segment, hbind, hret. rewrite E, HA.
  destruct o as [[]|e]; split; reflexivity.
Qed.

Lemma refines_done {X} (fin : outcome X -> Task) (x : X)
      (ha : error -> H X) (hb : error -> H Task) s :
  refines fin (htry (hret x) ha) (htry (hret (fin (Ok x))) hb) s.
Proof.
  intros o s' [= <- <-]. exists 0, (fin (Ok x)), s. split; reflexivity.
Qed.



(** [wss.on('connection')] *)
Lemma onConnection_refines ws s :
  refines Finished (onConnection ws) (arrive (Connection ws)) s.
Proof.
  unfold onConnection, arrive, onConnection_arrive.
  apply refines_bind; [reflexivity|]. intros [] s1 [= <-].
  apply refines_bind; [reflexivity|]. intros [] s2 [= <-].
  apply refines_walk. intros structure lg E.
  apply refines_finish_unit. reflexivity.
Qed.

(** [ws.on('message')] *)
Lemma onMessage_refines i m s :
  refines Finished (onMessage i m) (arrive (Message i m)) s.
Proof.
  unfold onMessage, arrive, onMessage_arrive.
  apply refines_try_bind.
  - intros [ty|] s1 _; [|apply (@refines_done unit Finished tt)].
    destruct (ty =? "getStructure")%string; [|apply (@refines_done unit Finished tt)].
    eapply refines_ext; [reflexivity | | apply refines_walk].
    + reflexivity.
    + intros structure lg E. apply refines_finish_unit. reflexivity.
  - intros e s1 _.
    apply refines_bind; [reflexivity|]. intros [] s2 _.
    apply refines_finish_unit. reflexivity.
Qed.

(** The callback of the watcher *)
Lemma onWatchChange_refines filename s :
  refines Finished (onWatchChange filename) (arrive (WatchChange filename)) s.
Proof.
  assert (Hskip : refines Finished (hret tt) (hret (Finished (Ok tt))) s)
    by (intros o s' [= <- <-]; exists 0; do 2 eexists; split; reflexivity).
  unfold onWatchChange, arrive, onWatchChange_arrive.
  destruct filename as [f|]; [|exact Hskip].
  destruct (f =? "")%string; [exact Hskip|].
  destruct (includes f "node_modules" || includes f ".git"); [exact Hskip|].
  apply refines_bind; [reflexivity|]. intros [] s1 _.
  apply refines_try_bind.
  - intros [] s2 _.
    eapply refines_ext; [reflexivity | | apply refines_walk].
    + reflexivity.
    + intros structure lg E. apply refines_finish_unit. reflexivity.
  - intros e s2 _. apply refines_finish_unit. reflexivity.
Qed.


(** ** A handler with no other in between *)

Lemma alone_schedule ev n s t s1 t' s' :
  segment (arrive ev) s = Some (t, s1) ->
  run_task (repeat (fun s => s) n) t s1 = Some (t', s') ->
  schedule (alone ev n) (at_rest s) = Some (mkWorld s' [t']).
Proof.
  intros Sg R. unfold alone, at_rest. cbn [schedule act server pending app].
  replace (listens ev []) with true by (destruct ev; reflexivity).
  rewrite Sg.
  apply (@schedule_resumes n 0 t t' s' (mkWorld s1 [t]) eq_refl R).
Qed.

Lemma refines_alone {X} (fin : outcome X -> Task) (A : H X) ev s o s' :
  refines fin A (arrive ev) s ->
  A s = Some (o, s') ->
  exists n, schedule (alone ev n) (at_rest s) = Some (mkWorld s' [fin o]).
Proof.
  intros R E. destruct (R o s' E) as (n & t & s1 & Sg & Rn).
  exists n. eapply alone_schedule; eauto.
Qed.



(** X14. A greeting with no other handler in between. When a socket
    connects that is open, whose [send] does not raise and whose [id] is
    new, and no other handler runs between its connection and the end of
    the connection handler, the socket is registered last, the one
    message it receives is the ['structure'] message of the current root,
    and no other socket receives anything. *)
Theorem connection_is_greeted (ws : WebSocket) (s : Server) :
  NoDup (map id (clients s ++ [ws])) ->
  readyState ws = OPEN -> sendFails ws = false ->
  exists structure lg n,
    getDirectoryStructure (disk s) (projectRoot s) (projectRoot s)
    = Some (Ok structure, lg) /\
    schedule (alone (Connection ws) n) (at_rest s) =
    Some (mkWorld
            (set_clients (clients s ++ [received (structure_message s structure) ws])
                         (set_console ((console s ++ ["Client connected"]) ++ lg) s))
            [Finished (Ok tt)]).
Proof.
  intros N O F.
  destruct (@onConnection_greets ws s N O F) as (structure & lg & E & Hc).
  destruct (@refines_alone _ Finished (onConnection ws) (Connection ws) s _ _
              (@onConnection_refines ws s) Hc) as (n & Sch).
  exists structure, lg, n. auto.
Qed.

Lemma connection_is_greeted_witness :
  let s := demo_server [client1] in
  exists structure lg n,
    getDirectoryStructure (disk s) (projectRoot s) (projectRoot s)
    = Some (Ok structure, lg) /\
    schedule (alone (Connection client3) n) (at_rest s) =
    Some (mkWorld
            (set_clients
               (clients s ++ [received (structure_message s structure) client3])
               (set_console ((console s ++ ["Client connected"]) ++ lg) s))
            [Finished (Ok tt)]).
Proof.
  cbv zeta.
  apply (@connection_is_greeted client3 (demo_server [client1]));
    try reflexivity.
  repeat constructor; simpl; intuition discriminate.
Defined.

(** X15. Requests are answered to the requester alone. Let the socket [c]
    be registered and open, with a [send] that does not raise. A
    [getStructure] message, when no other handler runs between the
    message and the reply, makes [c], and no other socket, receive the
    ['structure'] message of the current root. A message that does not
    parse, or parses to [null], is handled in one segment, so whatever
    other handlers are under way, once the greeting of [c] is over and its
    listener is there: [c] alone receives the error ['Failed to process
    request']. *)
Theorem request_is_answered_to_requester
        (before after : list WebSocket) (c : WebSocket) (s : Server) :
  clients s = before ++ c :: after ->
  NoDup (map id (clients s)) ->
  readyState c = OPEN -> sendFails c = false ->
  (exists structure lg n,
      getDirectoryStructure (disk s) (projectRoot s) (projectRoot s)
      = Some (Ok structure, lg) /\
      schedule (alone (Message (id c) (Json (Some "getStructure"))) n) (at_rest s) =
      Some (mkWorld
              (set_clients
                 (before ++ received (structure_message s structure) c :: after)
                 (set_console (console s ++ lg) s))
              [Finished (Ok tt)])) /\
  (forall m others, m = Unparsable \/ m = JsonNull ->
     listens (Message (id c) m) others = true ->
     act (Arrives (Message (id c) m)) (mkWorld s others) =
     Some (mkWorld
             (set_clients
                (before ++ received (MsgError "Failed to process request") c :: after)
                (set_console (console s ++ ["Error handling message"]) s))
             (others ++ [Finished (Ok tt)]))).
Proof.
  intros Ec N O F.
  destruct (@onMessage_answers before after c s Ec N O F)
    as ((structure & lg & E & Hm) & Herr).
  split.
  - destruct (@refines_alone _ Finished _ (Message (id c) (Json (Some "getStructure")))
                s _ _ (@onMessage_refines (id c) _ s) Hm) as (n & Sch).
    exists structure, lg, n. auto.
  - intros m others Hm' Hl. specialize (Herr m Hm').
    destruct (@onMessage_refines (id c) m s _ _ Herr) as (n & t & s1 & Sg & Rn).
    assert (Ft : t = Finished (Ok tt) /\ s1 = set_clients
                (before ++ received (MsgError "Failed to process request") c :: after)
                (set_console (console s ++ ["Error handling message"]) s)).
    { assert (Hfin : finished t = true).
      { destruct Hm' as [-> | ->]; unfold segment, arrive, onMessage_arrive in Sg;
          rewrite htry_hbind in Sg; cbn [hthrow] in Sg;
          unfold hbind at 1, console_log, modify in Sg; unfold hbind, hret in Sg;
          match type of Sg with
          | context [ws_send ?i ?msg ?st] =>
              destruct (ws_send i msg st) as [[[[]|e] s2]|]
          end; try discriminate; injection Sg as <- _; reflexivity. }
      assert (Hstay : forall k t0 s0, finished t0 = true ->
                 run_task (repeat (fun s => s) k) t0 s0 = Some (t0, s0)).
      { induction k as [|k IHk]; intros t0 s0 F0; [reflexivity|].
        cbn [repeat run_task].
        destruct t0; try discriminate; cbn [resume segment hret]; apply IHk, F0. }
      rewrite (Hstay n t s1 Hfin) in Rn. injection Rn as -> ->. auto. }
    destruct Ft as [-> ->]. unfold act. cbn [server pending].
    rewrite Hl, Sg. reflexivity.
Qed.

Lemma request_is_answered_to_requester_witness :
  let s := demo_server [client1; client3] in
  (exists structure lg n,
      getDirectoryStructure (disk s) (projectRoot s) (projectRoot s)
      = Some (Ok structure, lg) /\
      schedule (alone (Message (id client3) (Json (Some "getStructure"))) n)
               (at_rest s) =
      Some (mkWorld
              (set_clients
                 ([client1] ++ received (structure_message s structure) client3 :: [])
                 (set_console (console s ++ lg) s))
              [Finished (Ok tt)])) /\
  (forall m others, m = Unparsable \/ m = JsonNull ->
     listens (Message (id client3) m) others = true ->
     act (Arrives (Message (id client3) m)) (mkWorld s others) =
     Some (mkWorld
             (set_clients
                ([client1]
                   ++ received (MsgError "Failed to process request") client3 :: [])
                (set_console (console s ++ ["Error handling message"]) s))
             (others ++ [Finished (Ok tt)]))).
Proof.
  cbv zeta.
  apply (@request_is_answered_to_requester [client1] [] client3
           (demo_server [client1; client3])); try reflexivity.
  repeat constructor; simpl; intuition discriminate.
Defined.
